(** * Connect-4 adversarial search: Minimax and Alpha-Beta on three columns

    A shallow embedding of [connect4.py] and the proofs of its specified
    properties.

    Modelling choices.
    - A board is a Python list of rows, each a list of integers.  Row 0 is
      the top row, row [ROWS - 1] the bottom row.  The module [Obj] has the
      rows as objects in a store, so that two entries of a board may be one
      row object; there [copy.deepcopy] keeps the sharing and a write to a
      row shows in every entry that refers to it.  The value-level [Board],
      [list (list Z)], is a board whose rows are distinct objects, as
      [create_initial_board] builds them and [make_move] keeps them
      ([initial_board_distinct], [make_move_view]); the searches are stated
      on it.
    - Subscripting follows Python: a negative index counts from the end, an
      index out of range raises [IndexError].  Fallible code lives in the
      [result] monad.
    - The searches mix integers with [float("-inf")] and [float("inf")]; the
      type [val] has the three shapes and Python's comparison between them.
    - The recursive searches take a [fuel] argument; the theorems show that any
      fuel above the number of playable cells is enough on a well-formed board
      and that the result does not depend on it.
    - The depth limit [MAX_DEPTH] is a parameter of the searches, so that the
      theorems hold for every depth limit; the examples use its value 3.
    - The [print] calls (the console transcript) are not modelled.
    - Two pieces are added to the code to state what it does to its
      environment: a log of the calls of [alphabeta] and of [minimax] (ghost
      state, erased by [alphabeta_calls_value] and [minimax_calls_value]) and
      [make_move] on an object store, of whole boards ([heap_make_move]) and
      of row objects ([Obj.make_move]). *)

From Stdlib Require Import String DecimalString ZArith List Bool Lia Sorted.
Import ListNotations.
Open Scope Z_scope.

(** ** Results of fallible code *)

Inductive result (A : Type) : Type :=
| Ok (a : A)
| IndexError
| OutOfFuel.

Arguments Ok {A} a.
Arguments IndexError {A}.
Arguments OutOfFuel {A}.

Definition bind {A B : Type} (m : result A) (f : A -> result B) : result B :=
  match m with
  | Ok a => f a
  | IndexError => IndexError
  | OutOfFuel => OutOfFuel
  end.

Definition fmap {A B : Type} (f : A -> B) (m : result A) : result B :=
  bind m (fun a => Ok (f a)).

Notation "x <- m ;; k" := (bind m (fun x => k))
  (at level 61, m at next level, right associativity).
Notation "' p <- m ;; k" := (bind m (fun x => match x with p => k end))
  (at level 61, p pattern, m at next level, right associativity).

(** ** Global configuration *)

Definition MAX_DEPTH : Z := 3.
Definition ROWS : Z := 6.
Definition COLUMNS : Z := 7.

(** ** Python lists: subscripting and ranges *)

Definition py_norm (n : nat) (i : Z) : Z :=
  if i <? 0 then i + Z.of_nat n else i.

Definition in_bounds (n : nat) (j : Z) : bool :=
  (0 <=? j) && (j <? Z.of_nat n).

(** [l[i]] *)
Definition py_getitem {A : Type} (l : list A) (i : Z) : result A :=
  let j := py_norm (length l) i in
  if in_bounds (length l) j then
    match nth_error l (Z.to_nat j) with
    | Some x => Ok x
    | None => IndexError
    end
  else IndexError.

Fixpoint list_update {A : Type} (l : list A) (n : nat) (x : A) : list A :=
  match l, n with
  | [], _ => []
  | _ :: t, O => x :: t
  | h :: t, S n' => h :: list_update t n' x
  end.

(** [l[i] = x] *)
Definition py_setitem {A : Type} (l : list A) (i : Z) (x : A) : result (list A) :=
  let j := py_norm (length l) i in
  if in_bounds (length l) j then Ok (list_update l (Z.to_nat j) x)
  else IndexError.

(** [range(a, b)] and [range(n)] *)
Definition range_from (a b : Z) : list Z :=
  map (fun k => a + Z.of_nat k) (seq 0 (Z.to_nat (b - a))).

Definition range (n : Z) : list Z := range_from 0 n.

(** ** Board state *)

Definition Board : Type := list (list Z).

(** [board[r][c]] *)
Definition cell (board : Board) (r c : Z) : result Z :=
  row <- py_getitem board r ;;
  py_getitem row c.

(** [board[r][c] = v] on a board whose rows are distinct objects *)
Definition set_cell (board : Board) (r c v : Z) : result Board :=
  row <- py_getitem board r ;;
  row' <- py_setitem row c v ;;
  py_setitem board r row'.

(** [[[0] * COLUMNS for _ in range(ROWS)]] *)
Definition empty_board : Board :=
  map (fun _ => repeat 0 (Z.to_nat COLUMNS)) (range ROWS).

Definition create_initial_board : result Board :=
  let board := empty_board in
  board <- set_cell board 5 0 (-1) ;;
  board <- set_cell board 4 0 1 ;;
  board <- set_cell board 3 0 1 ;;
  board <- set_cell board 5 1 1 ;;
  board <- set_cell board 4 1 (-1) ;;
  board <- set_cell board 3 1 1 ;;
  board <- set_cell board 5 2 1 ;;
  board <- set_cell board 4 2 1 ;;
  board <- set_cell board 3 2 1 ;;
  board <- set_cell board 5 3 (-1) ;;
  board <- set_cell board 5 5 (-1) ;;
  board <- set_cell board 5 6 (-1) ;;
  board <- set_cell board 4 6 (-1) ;;
  Ok board.

(** [all(board[r + dr*i][c + dc*i] == player for i in range(4))]: the
    generator stops at the first cell that differs. *)
Fixpoint all_equal (board : Board) (player : Z) (coords : list (Z * Z))
  : result bool :=
  match coords with
  | [] => Ok true
  | (r, c) :: rest =>
      x <- cell board r c ;;
      if x =? player then all_equal board player rest else Ok false
  end.

Definition line (dr dc : Z) (start : Z * Z) : list (Z * Z) :=
  map (fun i => (fst start + dr * i, snd start + dc * i)) (range 4).

(** One direction of [check_win]: the nested [for] loops over the starting
    cells, returning [True] at the first aligned line. *)
Fixpoint scan_lines (board : Board) (player : Z) (dr dc : Z)
  (starts : list (Z * Z)) : result bool :=
  match starts with
  | [] => Ok false
  | s :: rest =>
      w <- all_equal board player (line dr dc s) ;;
      if w then Ok true else scan_lines board player dr dc rest
  end.

Definition horizontal_starts : list (Z * Z) :=
  flat_map (fun r => map (fun c => (r, c)) (range (COLUMNS - 3))) (range ROWS).

Definition vertical_starts : list (Z * Z) :=
  flat_map (fun c => map (fun r => (r, c)) (range (ROWS - 3))) (range COLUMNS).

Definition diag_down_starts : list (Z * Z) :=
  flat_map (fun r => map (fun c => (r, c)) (range (COLUMNS - 3)))
           (range (ROWS - 3)).

Definition diag_up_starts : list (Z * Z) :=
  flat_map (fun r => map (fun c => (r, c)) (range (COLUMNS - 3)))
           (range_from 3 ROWS).

Definition check_win (board : Board) (player : Z) : result bool :=
  h <- scan_lines board player 0 1 horizontal_starts ;;
  if h then Ok true else
  v <- scan_lines board player 1 0 vertical_starts ;;
  if v then Ok true else
  d <- scan_lines board player 1 1 diag_down_starts ;;
  if d then Ok true else
  u <- scan_lines board player (-1) 1 diag_up_starts ;;
  if u then Ok true else Ok false.

(** ** Move generator *)

Fixpoint valid_loop (board : Board) (cols valid : list Z) : result (list Z) :=
  match cols with
  | [] => Ok valid
  | c :: rest =>
      x <- cell board 0 c ;;
      valid_loop board rest (if x =? 0 then valid ++ [c] else valid)
  end.

Definition get_valid_moves (board : Board) (depth : Z) : result (list Z) :=
  let cols := [0; 1; 2] in
  valid_loop board cols [].

(** ** Move application *)

(** [copy.deepcopy(board)] on a board whose rows are distinct objects: a
    fresh board of fresh rows with the same contents.  [Obj.deepcopy] is the
    copy of a board that may share rows. *)
Definition deepcopy (board : Board) : Board := board.

(** The [for r in reversed(range(ROWS))] loop with its [break]. *)
Fixpoint drop_loop (new_board : Board) (rows : list Z) (col player : Z)
  : result Board :=
  match rows with
  | [] => Ok new_board
  | r :: rest =>
      x <- cell new_board r col ;;
      if x =? 0 then set_cell new_board r col player
      else drop_loop new_board rest col player
  end.

Definition make_move (board : Board) (col player : Z) : result Board :=
  let new_board := deepcopy board in
  drop_loop new_board (rev (range ROWS)) col player.

(** ** Terminal evaluator *)

Definition evaluate (board : Board) : result Z :=
  w <- check_win board 1 ;;
  if w then Ok 100 else
  l <- check_win board (-1) ;;
  if l then Ok (-100) else Ok 0.

(** ** Search values: integers and the two float infinities *)

Inductive val : Type :=
| NegInf
| Fin (z : Z)
| PosInf.

(** Python's [a < b] on these values *)
Definition val_ltb (a b : val) : bool :=
  match a, b with
  | NegInf, NegInf => false
  | NegInf, _ => true
  | Fin _, NegInf => false
  | Fin x, Fin y => x <? y
  | Fin _, PosInf => true
  | PosInf, _ => false
  end.

(** Python's [a <= b] *)
Definition val_leb (a b : val) : bool :=
  match a, b with
  | NegInf, _ => true
  | Fin _, NegInf => false
  | Fin x, Fin y => x <=? y
  | Fin _, PosInf => true
  | PosInf, PosInf => true
  | PosInf, _ => false
  end.

Definition val_lt (a b : val) : Prop := val_ltb a b = true.
Definition val_le (a b : val) : Prop := val_leb a b = true.

Definition val_gtb (a b : val) : bool := val_ltb b a.
Definition val_geb (a b : val) : bool := val_leb b a.

(** ** Node records of the collecting searches *)

Inductive node_kind : Type :=
| Terminal
| Max
| Min.

(** The dictionaries appended to [nodes]; a key that a record does not carry
    is [None]. *)
Record node : Type := mk_node {
  node_path : list Z;
  node_state : string;
  node_value : val;
  node_type : node_kind;
  node_depth : Z;
  node_children_values : option (list val);
  node_moves : option (list Z);
  node_explored_moves : option (list Z);
  node_pruned : option bool;
  node_alpha : option val;
  node_beta : option val
}.

(** [str(x)] on an integer *)
Definition str (x : Z) : string := NilZero.string_of_int (Z.to_int x).

(** ["Root" if depth == 0 else "-".join(str(x) for x in path)] *)
Definition state_of (depth : Z) (path : list Z) : string :=
  if depth =? 0 then "Root"%string
  else String.concat "-"%string (map str path).

(** The arguments of one [alphabeta] call, for the call log. *)
Record call : Type := mk_call {
  call_depth : Z;
  call_path : list Z;
  call_alpha : val;
  call_beta : val
}.

(** ** The searches

    [max_depth] stands for the global [MAX_DEPTH]; it is kept a parameter so
    that the results hold for every depth limit. *)

Section Search.

Variable max_depth : Z.

(** *** Minimax *)

Fixpoint minimax_max_loop (rec : Board -> Z -> list Z -> result val)
  (board : Board) (depth : Z) (path moves : list Z) (best_val : val)
  : result val :=
  match moves with
  | [] => Ok best_val
  | m :: rest =>
      child <- make_move board m 1 ;;
      v <- rec child (depth + 1) (path ++ [m]) ;;
      minimax_max_loop rec board depth path rest
        (if val_gtb v best_val then v else best_val)
  end.

Fixpoint minimax_min_loop (rec : Board -> Z -> list Z -> result val)
  (board : Board) (depth : Z) (path moves : list Z) (best_val : val)
  : result val :=
  match moves with
  | [] => Ok best_val
  | m :: rest =>
      child <- make_move board m (-1) ;;
      v <- rec child (depth + 1) (path ++ [m]) ;;
      minimax_min_loop rec board depth path rest
        (if val_ltb v best_val then v else best_val)
  end.

Fixpoint minimax (fuel : nat) (board : Board) (depth : Z) (path : list Z)
  : result val :=
  match fuel with
  | O => OutOfFuel
  | S fuel' =>
      score_win <- evaluate board ;;
      if (depth =? max_depth) || negb (score_win =? 0) then
        Ok (Fin score_win)
      else if depth mod 2 =? 0 then
        moves <- get_valid_moves board depth ;;
        minimax_max_loop (minimax fuel') board depth path moves NegInf
      else
        moves <- get_valid_moves board depth ;;
        minimax_min_loop (minimax fuel') board depth path moves PosInf
  end.

(** *** Alpha-Beta *)

Fixpoint alphabeta_max_loop
  (rec : Board -> Z -> list Z -> val -> val -> result val)
  (board : Board) (depth : Z) (path moves : list Z) (value alpha beta : val)
  : result val :=
  match moves with
  | [] => Ok value
  | m :: rest =>
      child <- make_move board m 1 ;;
      v <- rec child (depth + 1) (path ++ [m]) alpha beta ;;
      let value := if val_gtb v value then v else value in
      let alpha := if val_gtb value alpha then value else alpha in
      if val_geb alpha beta then Ok value
      else alphabeta_max_loop rec board depth path rest value alpha beta
  end.

Fixpoint alphabeta_min_loop
  (rec : Board -> Z -> list Z -> val -> val -> result val)
  (board : Board) (depth : Z) (path moves : list Z) (value alpha beta : val)
  : result val :=
  match moves with
  | [] => Ok value
  | m :: rest =>
      child <- make_move board m (-1) ;;
      v <- rec child (depth + 1) (path ++ [m]) alpha beta ;;
      let value := if val_ltb v value then v else value in
      let beta := if val_ltb value beta then value else beta in
      if val_geb alpha beta then Ok value
      else alphabeta_min_loop rec board depth path rest value alpha beta
  end.

Fixpoint alphabeta (fuel : nat) (board : Board) (depth : Z) (path : list Z)
  (alpha beta : val) : result val :=
  match fuel with
  | O => OutOfFuel
  | S fuel' =>
      score_win <- evaluate board ;;
      if (depth =? max_depth) || negb (score_win =? 0) then
        Ok (Fin score_win)
      else if depth mod 2 =? 0 then
        moves <- get_valid_moves board depth ;;
        alphabeta_max_loop (alphabeta fuel') board depth path moves
          NegInf alpha beta
      else
        moves <- get_valid_moves board depth ;;
        alphabeta_min_loop (alphabeta fuel') board depth path moves
          PosInf alpha beta
  end.

(** *** Collecting Minimax

    The [node_type] argument of the source is passed along and never read; it
    is left out. *)

Fixpoint collect_max_loop
  (rec : Board -> Z -> list Z -> result (list node * val))
  (board : Board) (depth : Z) (path moves : list Z)
  (nodes : list node) (children_vals : list val) (best_val : val)
  : result (list node * list val * val) :=
  match moves with
  | [] => Ok (nodes, children_vals, best_val)
  | m :: rest =>
      child <- make_move board m 1 ;;
      ' (child_nodes, v) <- rec child (depth + 1) (path ++ [m]) ;;
      collect_max_loop rec board depth path rest
        (nodes ++ child_nodes) (children_vals ++ [v])
        (if val_gtb v best_val then v else best_val)
  end.

Fixpoint collect_min_loop
  (rec : Board -> Z -> list Z -> result (list node * val))
  (board : Board) (depth : Z) (path moves : list Z)
  (nodes : list node) (children_vals : list val) (best_val : val)
  : result (list node * list val * val) :=
  match moves with
  | [] => Ok (nodes, children_vals, best_val)
  | m :: rest =>
      child <- make_move board m (-1) ;;
      ' (child_nodes, v) <- rec child (depth + 1) (path ++ [m]) ;;
      collect_min_loop rec board depth path rest
        (nodes ++ child_nodes) (children_vals ++ [v])
        (if val_ltb v best_val then v else best_val)
  end.

Definition terminal_record (depth : Z) (path : list Z) (score_win : Z) : node :=
  {| node_path := path;
     node_state := state_of depth path;
     node_value := Fin score_win;
     node_type := Terminal;
     node_depth := depth;
     node_children_values := None;
     node_moves := None;
     node_explored_moves := None;
     node_pruned := None;
     node_alpha := None;
     node_beta := None |}.

Definition internal_record (kind : node_kind) (depth : Z) (path : list Z)
  (best_val : val) (children_vals : list val) (moves : list Z) : node :=
  {| node_path := path;
     node_state := state_of depth path;
     node_value := best_val;
     node_type := kind;
     node_depth := depth;
     node_children_values := Some children_vals;
     node_moves := Some moves;
     node_explored_moves := None;
     node_pruned := None;
     node_alpha := None;
     node_beta := None |}.

Fixpoint collect_tree_nodes (fuel : nat) (board : Board) (depth : Z)
  (path : list Z) : result (list node * val) :=
  match fuel with
  | O => OutOfFuel
  | S fuel' =>
      let nodes := [] in
      score_win <- evaluate board ;;
      if (depth =? max_depth) || negb (score_win =? 0) then
        Ok (nodes ++ [terminal_record depth path score_win], Fin score_win)
      else if depth mod 2 =? 0 then
        moves <- get_valid_moves board depth ;;
        ' (nodes, children_vals, best_val) <-
          collect_max_loop (collect_tree_nodes fuel') board depth path moves
            nodes [] NegInf ;;
        Ok (nodes ++ [internal_record Max depth path best_val children_vals
                        moves], best_val)
      else
        moves <- get_valid_moves board depth ;;
        ' (nodes, children_vals, best_val) <-
          collect_min_loop (collect_tree_nodes fuel') board depth path moves
            nodes [] PosInf ;;
        Ok (nodes ++ [internal_record Min depth path best_val children_vals
                        moves], best_val)
  end.

(** *** Collecting Alpha-Beta *)

(** The locals of one node's loop. *)
Record ab_locals : Type := mk_locals {
  l_nodes : list node;
  l_children_vals : list val;
  l_explored_moves : list Z;
  l_value : val;
  l_alpha : val;
  l_beta : val;
  l_pruned : bool
}.

Fixpoint collect_ab_max_loop
  (rec : Board -> Z -> list Z -> val -> val -> result (list node * val))
  (board : Board) (depth : Z) (path moves : list Z) (st : ab_locals)
  : result ab_locals :=
  match moves with
  | [] => Ok st
  | m :: rest =>
      child <- make_move board m 1 ;;
      ' (child_nodes, v) <-
        rec child (depth + 1) (path ++ [m]) (l_alpha st) (l_beta st) ;;
      let nodes := l_nodes st ++ child_nodes in
      let children_vals := l_children_vals st ++ [v] in
      let explored_moves := l_explored_moves st ++ [m] in
      let value := if val_gtb v (l_value st) then v else l_value st in
      let alpha := if val_gtb value (l_alpha st) then value else l_alpha st in
      if val_geb alpha (l_beta st) then
        Ok (mk_locals nodes children_vals explored_moves value alpha
              (l_beta st) true)
      else
        collect_ab_max_loop rec board depth path rest
          (mk_locals nodes children_vals explored_moves value alpha
             (l_beta st) (l_pruned st))
  end.

Fixpoint collect_ab_min_loop
  (rec : Board -> Z -> list Z -> val -> val -> result (list node * val))
  (board : Board) (depth : Z) (path moves : list Z) (st : ab_locals)
  : result ab_locals :=
  match moves with
  | [] => Ok st
  | m :: rest =>
      child <- make_move board m (-1) ;;
      ' (child_nodes, v) <-
        rec child (depth + 1) (path ++ [m]) (l_alpha st) (l_beta st) ;;
      let nodes := l_nodes st ++ child_nodes in
      let children_vals := l_children_vals st ++ [v] in
      let explored_moves := l_explored_moves st ++ [m] in
      let value := if val_ltb v (l_value st) then v else l_value st in
      let beta := if val_ltb value (l_beta st) then value else l_beta st in
      if val_geb (l_alpha st) beta then
        Ok (mk_locals nodes children_vals explored_moves value (l_alpha st)
              beta true)
      else
        collect_ab_min_loop rec board depth path rest
          (mk_locals nodes children_vals explored_moves value (l_alpha st)
             beta (l_pruned st))
  end.

Definition ab_terminal_record (depth : Z) (path : list Z) (score_win : Z)
  (alpha beta : val) : node :=
  {| node_path := path;
     node_state := state_of depth path;
     node_value := Fin score_win;
     node_type := Terminal;
     node_depth := depth;
     node_children_values := None;
     node_moves := None;
     node_explored_moves := None;
     node_pruned := None;
     node_alpha := Some alpha;
     node_beta := Some beta |}.

Definition ab_internal_record (kind : node_kind) (depth : Z) (path : list Z)
  (moves : list Z) (st : ab_locals) : node :=
  {| node_path := path;
     node_state := state_of depth path;
     node_value := l_value st;
     node_type := kind;
     node_depth := depth;
     node_children_values := Some (l_children_vals st);
     node_moves := Some moves;
     node_explored_moves := Some (l_explored_moves st);
     node_pruned := Some (l_pruned st);
     node_alpha := Some (l_alpha st);
     node_beta := Some (l_beta st) |}.

Fixpoint collect_alphabeta_tree_nodes (fuel : nat) (board : Board) (depth : Z)
  (path : list Z) (alpha beta : val) : result (list node * val) :=
  match fuel with
  | O => OutOfFuel
  | S fuel' =>
      let nodes := [] in
      score_win <- evaluate board ;;
      if (depth =? max_depth) || negb (score_win =? 0) then
        Ok (nodes ++ [ab_terminal_record depth path score_win alpha beta],
            Fin score_win)
      else if depth mod 2 =? 0 then
        moves <- get_valid_moves board depth ;;
        st <- collect_ab_max_loop (collect_alphabeta_tree_nodes fuel')
                board depth path moves
                (mk_locals nodes [] [] NegInf alpha beta false) ;;
        Ok (l_nodes st ++ [ab_internal_record Max depth path moves st],
            l_value st)
      else
        moves <- get_valid_moves board depth ;;
        st <- collect_ab_min_loop (collect_alphabeta_tree_nodes fuel')
                board depth path moves
                (mk_locals nodes [] [] PosInf alpha beta false) ;;
        Ok (l_nodes st ++ [ab_internal_record Min depth path moves st],
            l_value st)
  end.

(** *** Call log of Alpha-Beta

    The same traversal as [alphabeta], which also returns the arguments of
    every call it makes, in call order (the node itself first).  The log is
    ghost state: [alphabeta_calls_value] shows that erasing it gives
    [alphabeta]. *)

Fixpoint calls_max_loop
  (rec : Board -> Z -> list Z -> val -> val -> result (val * list call))
  (board : Board) (depth : Z) (path moves : list Z) (value alpha beta : val)
  (log : list call) : result (val * list call) :=
  match moves with
  | [] => Ok (value, log)
  | m :: rest =>
      child <- make_move board m 1 ;;
      ' (v, child_log) <- rec child (depth + 1) (path ++ [m]) alpha beta ;;
      let value := if val_gtb v value then v else value in
      let alpha := if val_gtb value alpha then value else alpha in
      if val_geb alpha beta then Ok (value, log ++ child_log)
      else calls_max_loop rec board depth path rest value alpha beta
             (log ++ child_log)
  end.

Fixpoint calls_min_loop
  (rec : Board -> Z -> list Z -> val -> val -> result (val * list call))
  (board : Board) (depth : Z) (path moves : list Z) (value alpha beta : val)
  (log : list call) : result (val * list call) :=
  match moves with
  | [] => Ok (value, log)
  | m :: rest =>
      child <- make_move board m (-1) ;;
      ' (v, child_log) <- rec child (depth + 1) (path ++ [m]) alpha beta ;;
      let value := if val_ltb v value then v else value in
      let beta := if val_ltb value beta then value else beta in
      if val_geb alpha beta then Ok (value, log ++ child_log)
      else calls_min_loop rec board depth path rest value alpha beta
             (log ++ child_log)
  end.

Fixpoint alphabeta_calls (fuel : nat) (board : Board) (depth : Z)
  (path : list Z) (alpha beta : val) : result (val * list call) :=
  match fuel with
  | O => OutOfFuel
  | S fuel' =>
      let here := mk_call depth path alpha beta in
      score_win <- evaluate board ;;
      if (depth =? max_depth) || negb (score_win =? 0) then
        Ok (Fin score_win, [here])
      else if depth mod 2 =? 0 then
        moves <- get_valid_moves board depth ;;
        calls_max_loop (alphabeta_calls fuel') board depth path moves
          NegInf alpha beta [here]
      else
        moves <- get_valid_moves board depth ;;
        calls_min_loop (alphabeta_calls fuel') board depth path moves
          PosInf alpha beta [here]
  end.

(** *** Call log of Minimax

    The same traversal as [minimax], which also returns the depth and path of
    every call it makes, in call order (the node itself first).  The log is
    ghost state: [minimax_calls_value] shows that erasing it gives
    [minimax]. *)

Fixpoint minimax_calls_max_loop
  (rec : Board -> Z -> list Z -> result (val * list (Z * list Z)))
  (board : Board) (depth : Z) (path moves : list Z) (best_val : val)
  (log : list (Z * list Z)) : result (val * list (Z * list Z)) :=
  match moves with
  | [] => Ok (best_val, log)
  | m :: rest =>
      child <- make_move board m 1 ;;
      ' (v, child_log) <- rec child (depth + 1) (path ++ [m]) ;;
      minimax_calls_max_loop rec board depth path rest
        (if val_gtb v best_val then v else best_val) (log ++ child_log)
  end.

Fixpoint minimax_calls_min_loop
  (rec : Board -> Z -> list Z -> result (val * list (Z * list Z)))
  (board : Board) (depth : Z) (path moves : list Z) (best_val : val)
  (log : list (Z * list Z)) : result (val * list (Z * list Z)) :=
  match moves with
  | [] => Ok (best_val, log)
  | m :: rest =>
      child <- make_move board m (-1) ;;
      ' (v, child_log) <- rec child (depth + 1) (path ++ [m]) ;;
      minimax_calls_min_loop rec board depth path rest
        (if val_ltb v best_val then v else best_val) (log ++ child_log)
  end.

Fixpoint minimax_calls (fuel : nat) (board : Board) (depth : Z)
  (path : list Z) : result (val * list (Z * list Z)) :=
  match fuel with
  | O => OutOfFuel
  | S fuel' =>
      let here := (depth, path) in
      score_win <- evaluate board ;;
      if (depth =? max_depth) || negb (score_win =? 0) then
        Ok (Fin score_win, [here])
      else if depth mod 2 =? 0 then
        moves <- get_valid_moves board depth ;;
        minimax_calls_max_loop (minimax_calls fuel') board depth path moves
          NegInf [here]
      else
        moves <- get_valid_moves board depth ;;
        minimax_calls_min_loop (minimax_calls fuel') board depth path moves
          PosInf [here]
  end.

End Search.

(** ** Move application on an object store

    [make_move] once more, with boards as objects in a store, so that "the
    input board is left unmodified" can be stated: [copy.deepcopy] allocates
    a new object and the loop writes to that object only. *)

Definition heap : Type := list Board.

Definition deref (h : heap) (p : nat) : result Board :=
  match nth_error h p with
  | Some b => Ok b
  | None => IndexError
  end.

Definition heap_deepcopy (h : heap) (p : nat) : result (heap * nat) :=
  b <- deref h p ;;
  Ok (h ++ [b], length h).

Definition heap_cell (h : heap) (p : nat) (r c : Z) : result Z :=
  b <- deref h p ;;
  cell b r c.

Definition heap_set_cell (h : heap) (p : nat) (r c v : Z) : result heap :=
  b <- deref h p ;;
  b' <- set_cell b r c v ;;
  Ok (list_update h p b').

Fixpoint heap_drop_loop (h : heap) (new_board : nat) (rows : list Z)
  (col player : Z) : result heap :=
  match rows with
  | [] => Ok h
  | r :: rest =>
      x <- heap_cell h new_board r col ;;
      if x =? 0 then heap_set_cell h new_board r col player
      else heap_drop_loop h new_board rest col player
  end.

Definition heap_make_move (h : heap) (board : nat) (col player : Z)
  : result (heap * nat) :=
  ' (h, new_board) <- heap_deepcopy h board ;;
  h <- heap_drop_loop h new_board (rev (range ROWS)) col player ;;
  Ok (h, new_board).

(** ** Specification vocabulary *)

(** A well-formed board: [ROWS] rows of [COLUMNS] cells. *)
Definition wf_board (board : Board) : Prop :=
  Z.of_nat (length board) = ROWS /\
  Forall (fun row => Z.of_nat (length row) = COLUMNS) board.

Definition is_empty (board : Board) (r c : Z) : bool :=
  match cell board r c with
  | Ok x => x =? 0
  | _ => false
  end.

(** The cell [(r, c)] lies on the grid. *)
Definition on_grid (rc : Z * Z) : bool :=
  (0 <=? fst rc) && (fst rc <? ROWS) && (0 <=? snd rc) && (snd rc <? COLUMNS).

(** Cells that can still be played in column [c]: its empty cells when the top
    cell is empty, none otherwise. *)
Definition column_free (board : Board) (c : Z) : nat :=
  if is_empty board 0 c then
    length (filter (fun r => is_empty board r c) (range ROWS))
  else O.

(** Cells that can still be played in the allowed columns. *)
Definition playable (board : Board) : nat :=
  (column_free board 0 + column_free board 1 + column_free board 2)%nat.

(** [v] is the greatest (least) element of [l]. *)
Definition is_maximum (v : val) (l : list val) : Prop :=
  In v l /\ Forall (fun x => val_le x v) l.

Definition is_minimum (v : val) (l : list val) : Prop :=
  In v l /\ Forall (fun x => val_le v x) l.

(** The side to move at a depth: MAX ([1]) at even depths, MIN ([-1]) at odd
    ones. *)
Definition player_at (depth : Z) : Z :=
  if depth mod 2 =? 0 then 1 else -1.

(** The board reached from [board] (a node at [depth]) by the moves [ms]. *)
Fixpoint replay (board : Board) (depth : Z) (ms : list Z) : result Board :=
  match ms with
  | [] => Ok board
  | m :: rest =>
      child <- make_move board m (player_at depth) ;;
      replay child (depth + 1) rest
  end.

Definition is_terminal_record (n : node) : bool :=
  match node_type n with
  | Terminal => true
  | _ => false
  end.

(** [len([n for n in nodes if n['type'] == 'terminal'])] *)
Definition count_terminal (nodes : list node) : nat :=
  length (filter is_terminal_record nodes).

(** The window recorded in a node satisfies [alpha >= beta]. *)
Definition window_closed (n : node) : bool :=
  match node_alpha n, node_beta n with
  | Some a, Some b => val_geb a b
  | _, _ => false
  end.


(** No recorded window satisfies [alpha >= beta]. *)
Definition all_open (nodes : list node) : Prop :=
  Forall (fun n => window_closed n = false) nodes.

(** [v] aggregates the child values [cv] of a MAX (MIN) node: their maximum
    (minimum), or [-inf] ([+inf]) when the node had no legal move. *)
Definition max_of (v : val) (cv : list val) : Prop :=
  match cv with
  | [] => v = NegInf
  | _ => is_maximum v cv
  end.

Definition min_of (v : val) (cv : list val) : Prop :=
  match cv with
  | [] => v = PosInf
  | _ => is_minimum v cv
  end.

Definition aggregation_ok (n : node) : Prop :=
  match node_type n with
  | Max => exists cv, node_children_values n = Some cv /\
                      max_of (node_value n) cv
  | Min => exists cv, node_children_values n = Some cv /\
                      min_of (node_value n) cv
  | Terminal => True
  end.

(** A terminal record of a search started at [board], [depth], [path]
    carries the evaluation of the board that its path leads to. *)
Definition terminal_ok (board : Board) (depth : Z) (path : list Z) (n : node)
  : Prop :=
  node_type n = Terminal ->
  exists ms bn s,
    node_path n = path ++ ms /\
    node_depth n = depth + Z.of_nat (length ms) /\
    replay board depth ms = Ok bn /\
    evaluate bn = Ok s /\
    node_value n = Fin s.

Definition record_ok (board : Board) (depth : Z) (path : list Z) (n : node)
  : Prop :=
  aggregation_ok n /\ terminal_ok board depth path n.


(** A call received a window with [alpha < beta]. *)
Definition open_call (c : call) : Prop :=
  val_lt (call_alpha c) (call_beta c).

(** What an Alpha-Beta record says about the window: a terminal record
    holds the window it was called with, which is open; an internal record is
    marked pruned exactly when its final window satisfies [alpha >= beta],
    its explored moves are a prefix of its legal moves, the whole list when
    it is not pruned, and it holds one child value per explored move. *)
Definition window_ok (n : node) : Prop :=
  match node_type n with
  | Terminal =>
      exists a b, node_alpha n = Some a /\ node_beta n = Some b /\
                  val_lt a b
  | _ =>
      exists moves explored cv pruned a b,
        node_moves n = Some moves /\
        node_explored_moves n = Some explored /\
        node_children_values n = Some cv /\
        node_pruned n = Some pruned /\
        node_alpha n = Some a /\ node_beta n = Some b /\
        pruned = val_geb a b /\
        (exists rest, moves = explored ++ rest /\
                      (pruned = false -> rest = [])) /\
        length cv = length explored
  end.

(** ** Boards as objects

    A Python board is a list of references to row objects, and two entries of
    it may refer to one row object: [[[0] * 7] * 6] holds one row six times.
    [Obj] keeps the row objects in a store and has the board as the list of
    their addresses.  [copy.deepcopy] copies every row object once and keeps
    the sharing between the entries; [board[r][c] = v] writes to the row
    object, so the write shows in every entry that refers to it.  No function
    of the program writes to the outer list, which is a value here.

    [Obj.view] reads a board back as the grid of values it shows.  On a board
    whose rows are distinct objects, which is what [create_initial_board]
    builds and [make_move] returns, [Obj.make_move] shows what the
    value-level [make_move] computes ([make_move_view]); the searches, which
    only read boards and derive them by [make_move], are stated on the
    values. *)

Module Obj.

Definition store : Type := list (list Z).
Definition board : Type := list nat.

(** The row object at an address. *)
Definition row (s : store) (a : nat) : list Z := nth a s [].

(** The grid of values that a board shows. *)
Definition view (s : store) (b : board) : Board := map (row s) b.

(** [board[r][c]] *)
Definition cell (s : store) (b : board) (r c : Z) : result Z :=
  a <- py_getitem b r ;;
  py_getitem (row s a) c.

(** [board[r][c] = v]: the row object is updated in place. *)
Definition set_cell (s : store) (b : board) (r c v : Z) : result store :=
  a <- py_getitem b r ;;
  row' <- py_setitem (row s a) c v ;;
  Ok (list_update s a row').

(** [[[0] * COLUMNS for _ in range(ROWS)]]: one new row object per row. *)
Fixpoint alloc_rows (s : store) (n : nat) : store * board :=
  match n with
  | O => (s, [])
  | S n' =>
      let '(s', b) := alloc_rows (s ++ [repeat 0 (Z.to_nat COLUMNS)]) n' in
      (s', length s :: b)
  end.

Definition create_initial_board (s : store) : result (store * board) :=
  let '(s, board) := alloc_rows s (Z.to_nat ROWS) in
  s <- set_cell s board 5 0 (-1) ;;
  s <- set_cell s board 4 0 1 ;;
  s <- set_cell s board 3 0 1 ;;
  s <- set_cell s board 5 1 1 ;;
  s <- set_cell s board 4 1 (-1) ;;
  s <- set_cell s board 3 1 1 ;;
  s <- set_cell s board 5 2 1 ;;
  s <- set_cell s board 4 2 1 ;;
  s <- set_cell s board 3 2 1 ;;
  s <- set_cell s board 5 3 (-1) ;;
  s <- set_cell s board 5 5 (-1) ;;
  s <- set_cell s board 5 6 (-1) ;;
  s <- set_cell s board 4 6 (-1) ;;
  Ok (s, board).

Fixpoint valid_loop (s : store) (b : board) (cols valid : list Z)
  : result (list Z) :=
  match cols with
  | [] => Ok valid
  | c :: rest =>
      x <- cell s b 0 c ;;
      valid_loop s b rest (if x =? 0 then valid ++ [c] else valid)
  end.

Definition get_valid_moves (s : store) (b : board) (depth : Z)
  : result (list Z) :=
  let cols := [0; 1; 2] in
  valid_loop s b cols [].

(** [memo.get(id(row))]: the copy already made of a row object. *)
Fixpoint memo_get (memo : list (nat * nat)) (a : nat) : option nat :=
  match memo with
  | [] => None
  | (k, a') :: rest => if Nat.eqb k a then Some a' else memo_get rest a
  end.

(** The loop of [copy.deepcopy] on the outer list: an entry whose row object
    is in the memo gets the copy made before, another one a new row object
    with the same cells, which the memo records. *)
Fixpoint deepcopy_rows (s : store) (memo : list (nat * nat))
  (rows : list nat) : store * board :=
  match rows with
  | [] => (s, [])
  | a :: rest =>
      match memo_get memo a with
      | Some a' =>
          let '(s', ys) := deepcopy_rows s memo rest in (s', a' :: ys)
      | None =>
          let a' := length s in
          let '(s', ys) :=
            deepcopy_rows (s ++ [row s a]) ((a, a') :: memo) rest in
          (s', a' :: ys)
      end
  end.

(** [copy.deepcopy(board)] *)
Definition deepcopy (s : store) (b : board) : store * board :=
  deepcopy_rows s [] b.

(** The [for r in reversed(range(ROWS))] loop with its [break]. *)
Fixpoint drop_loop (s : store) (new_board : board) (rows : list Z)
  (col player : Z) : result store :=
  match rows with
  | [] => Ok s
  | r :: rest =>
      x <- cell s new_board r col ;;
      if x =? 0 then set_cell s new_board r col player
      else drop_loop s new_board rest col player
  end.

Definition make_move (s : store) (b : board) (col player : Z)
  : result (store * board) :=
  let '(s, new_board) := deepcopy s b in
  s <- drop_loop s new_board (rev (range ROWS)) col player ;;
  Ok (s, new_board).

(** A well-formed board object: its entries are addresses of the store and
    it shows [ROWS] rows of [COLUMNS] cells. *)
Definition wf (s : store) (b : board) : Prop :=
  Forall (fun a => (a < length s)%nat) b /\ wf_board (view s b).

(** The entries [r] and [r'] of the board are one row object. *)
Definition same_row (b : board) (r r' : Z) : Prop :=
  nth_error b (Z.to_nat r) = nth_error b (Z.to_nat r').

(** What the memo of a copy in progress holds: the store [s] extends the
    store [s0] the copy started from, and the memo sends row objects of [s0]
    to new row objects with the same cells, different ones to different
    ones. *)
Definition memo_ok (s0 s : store) (memo : list (nat * nat)) : Prop :=
  (exists ext, s = s0 ++ ext) /\
  (forall a a', memo_get memo a = Some a' ->
     (length s0 <= a' < length s)%nat /\ row s a' = row s0 a) /\
  (forall a b a', memo_get memo a = Some a' -> memo_get memo b = Some a' ->
     a = b).

End Obj.

(** ** Proof vocabulary *)

(** A legal move: an allowed column whose top cell is empty. *)
Definition legal (b : Board) (m : Z) : Prop :=
  (m = 0 \/ m = 1 \/ m = 2) /\ cell b 0 m = Ok 0.

(** Search values ranked in [Z], the infinities at [- M] and [M]: an order
    embedding on the values within the bound [M]. *)
Definition vrank (M : Z) (v : val) : Z :=
  match v with NegInf => - M | Fin z => z | PosInf => M end.

Definition vbound (M : Z) (v : val) : Prop :=
  match v with Fin z => - M < z < M | _ => 0 < M end.

Definition vmax (a b : val) : val := if val_gtb b a then b else a.
Definition vmin (a b : val) : val := if val_ltb b a then b else a.

(** [ab_bounds alpha beta v w]: what a fail-soft Alpha-Beta result [w] says
    about the Minimax value [v] of the same node: a result at or below the
    window bounds [v] from above, one at or above it bounds [v] from below,
    one inside the window is exact. *)
Definition ab_bounds (alpha beta v w : val) : Prop :=
  (val_le w alpha -> val_le v w) /\
  (val_le beta w -> val_le w v) /\
  (val_lt alpha w -> val_lt w beta -> w = v).

(** Loop invariant of a MAX node entered with window [(a0, beta)]. *)
Definition max_inv (a0 beta value alpha best : val) : Prop :=
  alpha = vmax a0 value /\ val_lt alpha beta /\ val_le best value /\
  (val_lt a0 value -> value = best).

(** Loop invariant of a MIN node entered with window [(alpha, b0)]. *)
Definition min_inv (alpha b0 value beta best : val) : Prop :=
  beta = vmin b0 value /\ val_lt alpha beta /\ val_le value best /\
  (val_lt value b0 -> value = best).

(** The loop locals with the three report lists emptied, and the locals [st']
    of a run started from emptied lists put back after those of [st]. *)
Definition locals_reset (st : ab_locals) : ab_locals :=
  mk_locals [] [] [] (l_value st) (l_alpha st) (l_beta st) (l_pruned st).

Definition locals_app (st st' : ab_locals) : ab_locals :=
  mk_locals (l_nodes st ++ l_nodes st')
    (l_children_vals st ++ l_children_vals st')
    (l_explored_moves st ++ l_explored_moves st')
    (l_value st') (l_alpha st') (l_beta st') (l_pruned st').

(** ** Boards used in the examples *)

Definition initial_board : Board :=
  [[0; 0; 0; 0; 0; 0; 0];
   [0; 0; 0; 0; 0; 0; 0];
   [0; 0; 0; 0; 0; 0; 0];
   [1; 1; 1; 0; 0; 0; 0];
   [1; -1; 1; 0; 0; 0; -1];
   [-1; 1; 1; -1; 0; -1; -1]].

(** Columns 0, 1 and 2 full, nobody has four aligned. *)
Definition full_board : Board :=
  [[1; 1; 1; 0; 0; 0; 0];
   [1; 1; 1; 0; 0; 0; 0];
   [-1; -1; -1; 0; 0; 0; 0];
   [-1; -1; -1; 0; 0; 0; 0];
   [1; 1; 1; 0; 0; 0; 0];
   [1; 1; 1; 0; 0; 0; 0]].

(** Column 2 full, one free cell in column 1, three in column 0. *)
Definition narrow_board : Board :=
  [[0; 0; 1; 0; 0; 0; 0];
   [0; 1; 1; 0; 0; 0; 0];
   [0; -1; -1; 0; 0; 0; 0];
   [-1; -1; -1; 0; 0; 0; 0];
   [1; 1; 1; 0; 0; 0; 0];
   [1; 1; 1; 0; 0; 0; 0]].

(** [initial_board] after MAX has played column 2: four in column 2. *)
Definition won_board : Board :=
  [[0; 0; 0; 0; 0; 0; 0];
   [0; 0; 0; 0; 0; 0; 0];
   [0; 0; 1; 0; 0; 0; 0];
   [1; 1; 1; 0; 0; 0; 0];
   [1; -1; 1; 0; 0; 0; -1];
   [-1; 1; 1; -1; 0; -1; -1]].

(** [[[0] * 7] * 6]: one row object, six times. *)
Definition shared_store : Obj.store := [[0; 0; 0; 0; 0; 0; 0]].
Definition shared_board : Obj.board := [0; 0; 0; 0; 0; 0]%nat.

(** [initial_board] as six row objects. *)
Definition initial_store : Obj.store := initial_board.
Definition initial_rows : Obj.board := [0; 1; 2; 3; 4; 5]%nat.

(** * Further vocabulary *)

(** The four cells from [(r, c)] in direction [(dr, dc)] lie on the grid and
    hold [player]. *)
Definition aligned (board : Board) (player r c dr dc : Z) : Prop :=
  forall i, 0 <= i < 4 ->
    on_grid (r + dr * i, c + dc * i) = true /\
    cell board (r + dr * i) (c + dc * i) = Ok player.

(** The four directions of [check_win]: along a row, down a column, down to
    the right, up to the right. *)
Definition direction (dr dc : Z) : Prop :=
  (dr = 0 /\ dc = 1) \/ (dr = 1 /\ dc = 0) \/
  (dr = 1 /\ dc = 1) \/ (dr = -1 /\ dc = 1).

(** [player] has four aligned cells somewhere on the grid. *)
Definition has_four (board : Board) (player : Z) : Prop :=
  exists r c dr dc, direction dr dc /\ aligned board player r c dr dc.


(** A record lies below a search started at [depth], [path]: its path extends
    [path] by moves in the allowed columns, its depth grows with it, and its
    identifier is computed from its own depth and path. *)
Definition position_ok (depth : Z) (path : list Z) (n : node) : Prop :=
  exists ms,
    node_path n = path ++ ms /\
    node_depth n = depth + Z.of_nat (length ms) /\
    Forall (fun m => m = 0 \/ m = 1 \/ m = 2) ms /\
    node_state n = state_of (node_depth n) (node_path n).

(** Two records describe the same node: same path, depth, identifier, kind
    and legal moves, and the same value when the node is terminal. *)
Definition same_node (n n' : node) : Prop :=
  node_path n = node_path n' /\
  node_depth n = node_depth n' /\
  node_state n = node_state n' /\
  node_type n = node_type n' /\
  node_moves n = node_moves n' /\
  (node_type n = Terminal -> node_value n = node_value n').

(** Every record of [na] describes a node that has a record in [nm]. *)
Definition nodes_among (na nm : list node) : Prop :=
  forall n, In n na -> exists n', In n' nm /\ same_node n n'.

(** * Reports *)

(** ['.' if x == 0 else ('X' if x == 1 else 'O')] *)
Definition symbol (x : Z) : string :=
  if x =? 0 then "."%string else if x =? 1 then "X"%string else "O"%string.

(** [print_board]: one printed line per row, then an empty line.  The result
    lists the printed lines. *)
Definition print_board (board : Board) : list string :=
  map (fun row => String.concat " "%string (map symbol row)) board
  ++ [EmptyString].

(** The cells hold tokens: 0, 1 or -1. *)
Definition tokens (board : Board) : Prop :=
  Forall (Forall (fun x => x = 0 \/ x = 1 \/ x = -1)) board.








(** [sorted(keys, reverse=True)] *)
Fixpoint insert_desc (k : val) (l : list val) : list val :=
  match l with
  | [] => [k]
  | x :: rest => if val_ltb x k then k :: l else x :: insert_desc k rest
  end.

Definition sorted_reverse (keys : list val) : list val :=
  fold_right insert_desc [] keys.






(** * Proofs *)

(** ** The result monad *)

Lemma bind_ok {A B : Type} (m : result A) (f : A -> result B) (b : B) :
  bind m f = Ok b -> exists a, m = Ok a /\ f a = Ok b.
Proof.
  destruct m as [a| |]; simpl; intros H; try discriminate.
  exists a; split; [reflexivity | exact H].
Qed.

Ltac inv_bind H :=
  let x := fresh "x" in
  let Hx := fresh "Hx" in
  apply bind_ok in H; destruct H as (x & Hx & H).

(** ** Python lists *)

Lemma list_update_length {A : Type} (l : list A) (n : nat) (x : A) :
  length (list_update l n x) = length l.
Proof.
  revert n; induction l as [|h t IH]; intros [|n]; simpl; auto.
Qed.

Lemma nth_error_list_update_eq {A : Type} (l : list A) (n : nat) (x : A) :
  (n < length l)%nat -> nth_error (list_update l n x) n = Some x.
Proof.
  revert n; induction l as [|h t IH]; intros [|n] Hn; simpl in *;
    try lia; auto.
  apply IH; lia.
Qed.

Lemma nth_error_list_update_neq {A : Type} (l : list A) (n k : nat) (x : A) :
  n <> k -> nth_error (list_update l n x) k = nth_error l k.
Proof.
  revert n k; induction l as [|h t IH]; intros [|n] [|k] Hnk; simpl;
    try reflexivity; try congruence.
  apply IH; congruence.
Qed.

Lemma Forall_list_update {A : Type} (P : A -> Prop) (l : list A) (n : nat)
  (x : A) : Forall P l -> P x -> Forall P (list_update l n x).
Proof.
  intros Hl Hx; revert n; induction Hl as [|h t Hh Ht IH]; intros [|n];
    simpl; constructor; auto.
Qed.

Lemma py_getitem_in {A : Type} (l : list A) (i : Z) :
  0 <= i < Z.of_nat (length l) ->
  exists x, nth_error l (Z.to_nat i) = Some x /\ py_getitem l i = Ok x.
Proof.
  intros Hi. unfold py_getitem, py_norm, in_bounds.
  destruct (i <? 0) eqn:E; [apply Z.ltb_lt in E; lia|].
  replace ((0 <=? i) && (i <? Z.of_nat (length l))) with true
    by (symmetry; apply andb_true_iff; split;
        [apply Z.leb_le | apply Z.ltb_lt]; lia).
  destruct (nth_error l (Z.to_nat i)) as [x|] eqn:En.
  - exists x; auto.
  - apply nth_error_None in En; lia.
Qed.

Lemma py_setitem_in {A : Type} (l : list A) (i : Z) (x : A) :
  0 <= i < Z.of_nat (length l) ->
  py_setitem l i x = Ok (list_update l (Z.to_nat i) x).
Proof.
  intros Hi. unfold py_setitem, py_norm, in_bounds.
  destruct (i <? 0) eqn:E; [apply Z.ltb_lt in E; lia|].
  replace ((0 <=? i) && (i <? Z.of_nat (length l))) with true
    by (symmetry; apply andb_true_iff; split;
        [apply Z.leb_le | apply Z.ltb_lt]; lia).
  reflexivity.
Qed.

(** ** Cells of a well-formed board *)

Lemma wf_row (b : Board) (r : Z) :
  wf_board b -> 0 <= r < ROWS ->
  exists row, nth_error b (Z.to_nat r) = Some row /\
              py_getitem b r = Ok row /\
              Z.of_nat (length row) = COLUMNS.
Proof.
  intros [Hlen Hrows] Hr.
  destruct (py_getitem_in b r) as (row & Hn & Hg); [lia|].
  exists row; repeat split; auto.
  rewrite Forall_forall in Hrows. apply Hrows.
  eapply nth_error_In; eauto.
Qed.

Lemma cell_nth (b : Board) (r c : Z) :
  wf_board b -> 0 <= r < ROWS -> 0 <= c < COLUMNS ->
  exists row x, nth_error b (Z.to_nat r) = Some row /\
                nth_error row (Z.to_nat c) = Some x /\
                cell b r c = Ok x.
Proof.
  intros Hwf Hr Hc.
  destruct (wf_row b r Hwf Hr) as (row & Hn & Hg & Hl).
  destruct (py_getitem_in row c) as (x & Hx & Hgx); [lia|].
  exists row, x; repeat split; auto.
  unfold cell; rewrite Hg; simpl; exact Hgx.
Qed.

Lemma cell_in (b : Board) (r c : Z) :
  wf_board b -> 0 <= r < ROWS -> 0 <= c < COLUMNS ->
  exists x, cell b r c = Ok x.
Proof.
  intros Hwf Hr Hc.
  destruct (cell_nth b r c Hwf Hr Hc) as (row & x & _ & _ & H); eauto.
Qed.

Lemma set_cell_spec (b : Board) (r c v : Z) :
  wf_board b -> 0 <= r < ROWS -> 0 <= c < COLUMNS ->
  exists b', set_cell b r c v = Ok b' /\ wf_board b' /\
    cell b' r c = Ok v /\
    (forall r' c', 0 <= r' < ROWS -> 0 <= c' < COLUMNS ->
       (r', c') <> (r, c) -> cell b' r' c' = cell b r' c').
Proof.
  intros Hwf Hr Hc.
  destruct (wf_row b r Hwf Hr) as (row & Hn & Hg & Hl).
  pose proof Hwf as [Hlen Hrows].
  set (row' := list_update row (Z.to_nat c) v).
  set (b' := list_update b (Z.to_nat r) row').
  assert (Hset : set_cell b r c v = Ok b').
  { unfold set_cell. rewrite Hg; simpl.
    rewrite py_setitem_in by lia; simpl.
    rewrite py_setitem_in by lia. reflexivity. }
  assert (Hwf' : wf_board b').
  { split.
    - unfold b'; rewrite list_update_length; exact Hlen.
    - apply Forall_list_update; auto.
      unfold row'; rewrite list_update_length; exact Hl. }
  exists b'; repeat split; auto; try apply Hwf'.
  - destruct (cell_nth b' r c Hwf' Hr Hc) as (rw & x & H1 & H2 & H3).
    rewrite H3. f_equal.
    unfold b' in H1. rewrite nth_error_list_update_eq in H1
      by (apply Nat2Z.inj_lt; rewrite Z2Nat.id; lia).
    injection H1 as <-.
    unfold row' in H2. rewrite nth_error_list_update_eq in H2
      by (apply Nat2Z.inj_lt; rewrite Z2Nat.id; lia).
    congruence.
  - intros r' c' Hr' Hc' Hne.
    destruct (cell_nth b' r' c' Hwf' Hr' Hc') as (rw' & x' & H1 & H2 & H3).
    destruct (cell_nth b r' c' Hwf Hr' Hc') as (rw & x & G1 & G2 & G3).
    rewrite H3, G3. f_equal.
    destruct (Z.eq_dec r' r) as [->|Hrr].
    + assert (Hcc : c' <> c) by congruence.
      unfold b' in H1. rewrite nth_error_list_update_eq in H1
        by (apply Nat2Z.inj_lt; rewrite Z2Nat.id; lia).
      injection H1 as <-.
      unfold row' in H2. rewrite nth_error_list_update_neq in H2
        by (intros E; apply Z2Nat.inj in E; lia).
      congruence.
    + unfold b' in H1. rewrite nth_error_list_update_neq in H1
        by (intros E; apply Z2Nat.inj in E; lia).
      congruence.
Qed.

(** ** Move application *)

Lemma rows_of_board : rev (range ROWS) = [5; 4; 3; 2; 1; 0].
Proof. reflexivity. Qed.

Lemma drop_loop_full (b : Board) (rows : list Z) (col player : Z) :
  wf_board b -> 0 <= col < COLUMNS ->
  (forall r, In r rows -> 0 <= r < ROWS /\ cell b r col <> Ok 0) ->
  drop_loop b rows col player = Ok b.
Proof.
  intros Hwf Hc. induction rows as [|r rest IH]; intros Hrows; simpl.
  - reflexivity.
  - destruct (Hrows r (or_introl eq_refl)) as [Hr Hnz].
    destruct (cell_in b r col Hwf Hr Hc) as (x & Hx).
    rewrite Hx; simpl.
    destruct (x =? 0) eqn:E.
    + apply Z.eqb_eq in E; subst x. contradiction.
    + apply IH. intros r' Hin; apply Hrows; right; exact Hin.
Qed.

Lemma drop_loop_first (b : Board) (pre post : list Z) (r0 col player : Z) :
  wf_board b -> 0 <= col < COLUMNS ->
  (forall r, In r pre -> 0 <= r < ROWS /\ cell b r col <> Ok 0) ->
  cell b r0 col = Ok 0 ->
  drop_loop b (pre ++ r0 :: post) col player = set_cell b r0 col player.
Proof.
  intros Hwf Hc Hpre H0. induction pre as [|r rest IH]; simpl.
  - rewrite H0; reflexivity.
  - destruct (Hpre r (or_introl eq_refl)) as [Hr Hnz].
    destruct (cell_in b r col Hwf Hr Hc) as (x & Hx).
    rewrite Hx; simpl.
    destruct (x =? 0) eqn:E.
    + apply Z.eqb_eq in E; subst x. contradiction.
    + apply IH. intros r' Hin; apply Hpre; right; exact Hin.
Qed.

(** The lowest empty cell of a column that has one. *)
Lemma lowest_empty (b : Board) (col : Z) :
  (exists r, 0 <= r < ROWS /\ cell b r col = Ok 0) ->
  exists r0, 0 <= r0 < ROWS /\ cell b r0 col = Ok 0 /\
             forall r, r0 < r < ROWS -> cell b r col <> Ok 0.
Proof.
  intros (r & Hr & H0).
  assert (Hdec : forall k, {cell b k col = Ok 0} + {cell b k col <> Ok 0}).
  { intros k. destruct (cell b k col) as [x| |];
      try (right; discriminate).
    destruct (Z.eq_dec x 0) as [->|Hx]; [left; reflexivity|].
    right; congruence. }
  unfold ROWS in *.
  destruct (Hdec 5) as [H5|H5];
    [exists 5; repeat split; auto; try lia; intros; lia|].
  destruct (Hdec 4) as [H4|H4];
    [exists 4; repeat split; auto; try lia; intros k Hk;
     assert (k = 5) as -> by lia; auto|].
  destruct (Hdec 3) as [H3|H3];
    [exists 3; repeat split; auto; try lia; intros k Hk;
     assert (k = 4 \/ k = 5) as [-> | ->] by lia; auto|].
  destruct (Hdec 2) as [H2|H2];
    [exists 2; repeat split; auto; try lia; intros k Hk;
     assert (k = 3 \/ k = 4 \/ k = 5) as [-> | [-> | ->]] by lia; auto|].
  destruct (Hdec 1) as [H1|H1];
    [exists 1; repeat split; auto; try lia; intros k Hk;
     assert (k = 2 \/ k = 3 \/ k = 4 \/ k = 5)
       as [-> | [-> | [-> | ->]]] by lia; auto|].
  destruct (Hdec 0) as [H0'|H0'];
    [exists 0; repeat split; auto; try lia; intros k Hk;
     assert (k = 1 \/ k = 2 \/ k = 3 \/ k = 4 \/ k = 5)
       as [-> | [-> | [-> | [-> | ->]]]] by lia; auto|].
  exfalso.
  assert (r = 0 \/ r = 1 \/ r = 2 \/ r = 3 \/ r = 4 \/ r = 5)
    as [-> | [-> | [-> | [-> | [-> | ->]]]]] by lia; contradiction.
Qed.

(** The scan visits the rows from the bottom up, so it stops at the lowest
    empty cell. *)
Lemma make_move_lowest (b : Board) (col player r0 : Z) :
  wf_board b -> 0 <= col < COLUMNS -> 0 <= r0 < ROWS ->
  cell b r0 col = Ok 0 ->
  (forall r, r0 < r < ROWS -> cell b r col <> Ok 0) ->
  make_move b col player = set_cell b r0 col player.
Proof.
  intros Hwf Hc Hr0 H0 Hbelow.
  unfold make_move, deepcopy. rewrite rows_of_board.
  unfold ROWS in *.
  assert (r0 = 5 \/ r0 = 4 \/ r0 = 3 \/ r0 = 2 \/ r0 = 1 \/ r0 = 0)
    as [-> | [-> | [-> | [-> | [-> | ->]]]]] by lia.
  - apply (drop_loop_first b [] [4; 3; 2; 1; 0]); auto.
    intros r [].
  - apply (drop_loop_first b [5] [3; 2; 1; 0]); auto.
    intros r Hin; simpl in Hin.
    split; [unfold ROWS; lia | apply Hbelow; lia].
  - apply (drop_loop_first b [5; 4] [2; 1; 0]); auto.
    intros r Hin; simpl in Hin.
    split; [unfold ROWS; lia | apply Hbelow; lia].
  - apply (drop_loop_first b [5; 4; 3] [1; 0]); auto.
    intros r Hin; simpl in Hin.
    split; [unfold ROWS; lia | apply Hbelow; lia].
  - apply (drop_loop_first b [5; 4; 3; 2] [0]); auto.
    intros r Hin; simpl in Hin.
    split; [unfold ROWS; lia | apply Hbelow; lia].
  - apply (drop_loop_first b [5; 4; 3; 2; 1] []); auto.
    intros r Hin; simpl in Hin.
    split; [unfold ROWS; lia | apply Hbelow; lia].
Qed.

Lemma make_move_spec (b : Board) (col player : Z) :
  wf_board b -> 0 <= col < COLUMNS ->
  (exists r, 0 <= r < ROWS /\ cell b r col = Ok 0) ->
  exists b' r0,
    make_move b col player = Ok b' /\ wf_board b' /\
    0 <= r0 < ROWS /\ cell b r0 col = Ok 0 /\
    (forall r, r0 < r < ROWS -> cell b r col <> Ok 0) /\
    cell b' r0 col = Ok player /\
    (forall r c, 0 <= r < ROWS -> 0 <= c < COLUMNS ->
       (r, c) <> (r0, col) -> cell b' r c = cell b r c).
Proof.
  intros Hwf Hc Hex.
  destruct (lowest_empty b col Hex) as (r0 & Hr0 & H0 & Hbelow).
  destruct (set_cell_spec b r0 col player Hwf Hr0 Hc)
    as (b' & Hset & Hwf' & Hnew & Hframe).
  exists b', r0.
  rewrite (make_move_lowest b col player r0) by auto.
  split; [exact Hset|]. split; [exact Hwf'|]. split; [exact Hr0|].
  split; [exact H0|]. split; [exact Hbelow|]. split; [exact Hnew|].
  exact Hframe.
Qed.

Lemma make_move_full (b : Board) (col player : Z) :
  wf_board b -> 0 <= col < COLUMNS ->
  (forall r, 0 <= r < ROWS -> cell b r col <> Ok 0) ->
  make_move b col player = Ok b.
Proof.
  intros Hwf Hc Hfull. unfold make_move, deepcopy.
  apply drop_loop_full; auto.
  intros r Hin. rewrite rows_of_board in Hin. simpl in Hin.
  assert (Hr : 0 <= r < ROWS) by (unfold ROWS; lia).
  split; auto.
Qed.

(** The store-passing [make_move] allocates one object, holding what the
    value-level [make_move] returns, and writes nowhere else. *)

Lemma deref_app_old (h : heap) (x : Board) (q : nat) :
  (q < length h)%nat -> deref (h ++ [x]) q = deref h q.
Proof.
  intros Hq. unfold deref. rewrite nth_error_app1 by exact Hq. reflexivity.
Qed.

Lemma deref_app_new (h : heap) (x : Board) :
  deref (h ++ [x]) (length h) = Ok x.
Proof.
  unfold deref. rewrite nth_error_app2 by lia.
  rewrite Nat.sub_diag. reflexivity.
Qed.

Lemma list_update_app_new {A : Type} (h : list A) (x y : A) :
  list_update (h ++ [x]) (length h) y = h ++ [y].
Proof. induction h as [|a t IH]; simpl; [reflexivity | f_equal; exact IH]. Qed.

Lemma heap_drop_loop_new (h : heap) (b : Board) (rows : list Z)
  (col player : Z) :
  heap_drop_loop (h ++ [b]) (length h) rows col player =
  b' <- drop_loop b rows col player ;; Ok (h ++ [b']).
Proof.
  induction rows as [|r rest IH]; simpl.
  - reflexivity.
  - unfold heap_cell. rewrite deref_app_new. simpl.
    destruct (cell b r col) as [x| |]; simpl; try reflexivity.
    destruct (x =? 0).
    + unfold heap_set_cell. rewrite deref_app_new. simpl.
      destruct (set_cell b r col player) as [b'| |]; simpl; try reflexivity.
      rewrite list_update_app_new. reflexivity.
    + exact IH.
Qed.

Lemma heap_make_move_value (h : heap) (p : nat) (b : Board) (col player : Z) :
  deref h p = Ok b ->
  heap_make_move h p col player =
  b' <- make_move b col player ;; Ok (h ++ [b'], length h).
Proof.
  intros Hp. unfold heap_make_move, heap_deepcopy. rewrite Hp.
  cbn [bind]. rewrite heap_drop_loop_new. unfold make_move, deepcopy.
  destruct (drop_loop b (rev (range ROWS)) col player); reflexivity.
Qed.

(** C8. When the target column of a well-formed board has no empty cell,
    [make_move] raises nothing and returns a board equal to the input board;
    on an object store the copy is a new object and the input is untouched. *)
Theorem make_move_full_column (board : Board) (col player : Z) :
  wf_board board -> 0 <= col < COLUMNS ->
  (forall r, 0 <= r < ROWS -> cell board r col <> Ok 0) ->
  make_move board col player = Ok board /\
  (forall h p, deref h p = Ok board ->
     heap_make_move h p col player = Ok (h ++ [board], length h)).
Proof.
  intros Hwf Hc Hfull.
  pose proof (make_move_full board col player Hwf Hc Hfull) as Hmv.
  split; [exact Hmv|].
  intros h p Hp.
  rewrite (heap_make_move_value h p board col player Hp), Hmv. reflexivity.
Qed.

Lemma make_move_full_column_witness :
  make_move full_board 1 (-1) = Ok full_board /\
  (forall h p, deref h p = Ok full_board ->
     heap_make_move h p 1 (-1) = Ok (h ++ [full_board], length h)).
Proof.
  apply (make_move_full_column full_board 1 (-1)).
  - split; [reflexivity | repeat constructor].
  - unfold COLUMNS; lia.
  - intros r Hr. unfold ROWS in Hr.
    assert (r = 0 \/ r = 1 \/ r = 2 \/ r = 3 \/ r = 4 \/ r = 5)
      as [-> | [-> | [-> | [-> | [-> | ->]]]]] by lia;
      vm_compute; discriminate.
Defined.

(** ** Move generator *)

Lemma valid_loop_spec (b : Board) (cols acc : list Z) :
  wf_board b -> Forall (fun c => 0 <= c < COLUMNS) cols ->
  valid_loop b cols acc = Ok (acc ++ filter (is_empty b 0) cols).
Proof.
  intros Hwf Hcols. revert acc.
  induction Hcols as [|c rest Hc Hrest IH]; intros acc; simpl.
  - rewrite app_nil_r; reflexivity.
  - destruct (cell_in b 0 c Hwf) as (x & Hx);
      [unfold ROWS; lia | exact Hc |].
    unfold is_empty at 1. rewrite Hx. simpl.
    rewrite IH. destruct (x =? 0); [rewrite <- app_assoc|]; reflexivity.
Qed.

Lemma get_valid_moves_filter (b : Board) (depth : Z) :
  wf_board b ->
  get_valid_moves b depth = Ok (filter (is_empty b 0) [0; 1; 2]).
Proof.
  intros Hwf. unfold get_valid_moves.
  rewrite valid_loop_spec; [reflexivity | exact Hwf |].
  repeat constructor; unfold COLUMNS; lia.
Qed.

Lemma is_empty_true (b : Board) (r c : Z) :
  is_empty b r c = true <-> cell b r c = Ok 0.
Proof.
  unfold is_empty. destruct (cell b r c) as [x| |]; split; intros H;
    try discriminate.
  - apply Z.eqb_eq in H; congruence.
  - injection H as ->; reflexivity.
Qed.

Lemma filter_sorted (f : Z -> bool) (l : list Z) :
  StronglySorted Z.lt l -> StronglySorted Z.lt (filter f l).
Proof.
  induction 1 as [|a l Hl IH Ha]; simpl; [constructor|].
  destruct (f a); [|exact IH].
  constructor; [exact IH|].
  rewrite Forall_forall in *. intros x Hx.
  apply filter_In in Hx. apply Ha, Hx.
Qed.

(** C9. On a well-formed board [get_valid_moves] returns, in ascending
    order, exactly the columns among 0, 1 and 2 whose top cell is empty;
    columns 3 to 6 are never returned. *)
Theorem get_valid_moves_spec (board : Board) (depth : Z) :
  wf_board board ->
  exists moves,
    get_valid_moves board depth = Ok moves /\
    (forall c, In c moves <->
               (c = 0 \/ c = 1 \/ c = 2) /\ cell board 0 c = Ok 0) /\
    StronglySorted Z.lt moves /\
    (forall c, 3 <= c <= 6 -> ~ In c moves).
Proof.
  intros Hwf. exists (filter (is_empty board 0) [0; 1; 2]).
  split; [apply get_valid_moves_filter; exact Hwf|].
  assert (Hin : forall c, In c (filter (is_empty board 0) [0; 1; 2]) <->
                  (c = 0 \/ c = 1 \/ c = 2) /\ cell board 0 c = Ok 0).
  { intros c. rewrite filter_In, is_empty_true. simpl. intuition. }
  split; [exact Hin|]. split.
  - apply filter_sorted. repeat constructor.
  - intros c Hc Habs. apply Hin in Habs. lia.
Qed.

Lemma get_valid_moves_spec_witness :
  exists moves,
    get_valid_moves initial_board 0 = Ok moves /\
    (forall c, In c moves <->
               (c = 0 \/ c = 1 \/ c = 2) /\ cell initial_board 0 c = Ok 0) /\
    StronglySorted Z.lt moves /\
    (forall c, 3 <= c <= 6 -> ~ In c moves).
Proof.
  apply (get_valid_moves_spec initial_board 0).
  split; [reflexivity | repeat constructor].
Defined.

(** C10. The result of [get_valid_moves] depends on the board alone: two
    depths give the same result, be it a list of moves or a fault. *)
Theorem get_valid_moves_depth_independent (board : Board) (d1 d2 : Z) :
  get_valid_moves board d1 = get_valid_moves board d2.
Proof. reflexivity. Qed.

(** ** Terminal evaluator *)

Lemma on_grid_cell (b : Board) (r c : Z) :
  wf_board b -> on_grid (r, c) = true -> exists x, cell b r c = Ok x.
Proof.
  intros Hwf H. unfold on_grid in H. simpl in H.
  repeat (apply andb_true_iff in H; destruct H as [H ?]).
  apply cell_in; auto; split;
    try (apply Z.leb_le; assumption); apply Z.ltb_lt; assumption.
Qed.

Lemma all_equal_ok (b : Board) (player : Z) (coords : list (Z * Z)) :
  wf_board b -> forallb on_grid coords = true ->
  exists w, all_equal b player coords = Ok w.
Proof.
  intros Hwf. induction coords as [|[r c] rest IH]; simpl; intros H.
  - eauto.
  - apply andb_true_iff in H. destruct H as [Hrc Hrest].
    destruct (on_grid_cell b r c Hwf Hrc) as (x & Hx). rewrite Hx. simpl.
    destruct (x =? player); eauto.
Qed.

Lemma scan_lines_ok (b : Board) (player dr dc : Z) (starts : list (Z * Z)) :
  wf_board b ->
  forallb (fun s => forallb on_grid (line dr dc s)) starts = true ->
  exists w, scan_lines b player dr dc starts = Ok w.
Proof.
  intros Hwf. induction starts as [|s rest IH]; intros H.
  - simpl; eauto.
  - cbn [forallb] in H. cbn [scan_lines].
    apply andb_true_iff in H. destruct H as [Hs Hrest].
    destruct (all_equal_ok b player (line dr dc s) Hwf Hs) as (w & Hw).
    rewrite Hw. cbn [bind]. destruct w; eauto.
Qed.

Lemma check_win_ok (b : Board) (player : Z) :
  wf_board b -> exists w, check_win b player = Ok w.
Proof.
  intros Hwf. unfold check_win.
  destruct (scan_lines_ok b player 0 1 horizontal_starts Hwf eq_refl)
    as (h & ->).
  destruct (scan_lines_ok b player 1 0 vertical_starts Hwf eq_refl)
    as (v & ->).
  destruct (scan_lines_ok b player 1 1 diag_down_starts Hwf eq_refl)
    as (d & ->).
  destruct (scan_lines_ok b player (-1) 1 diag_up_starts Hwf eq_refl)
    as (u & ->).
  simpl. destruct h, v, d, u; simpl; eauto.
Qed.


Lemma evaluate_ok (b : Board) :
  wf_board b -> exists s, evaluate b = Ok s.
Proof.
  intros Hwf. unfold evaluate.
  destruct (check_win_ok b 1 Hwf) as (w & ->).
  destruct (check_win_ok b (-1) Hwf) as (l & ->).
  simpl. destruct w, l; simpl; eauto.
Qed.

(** ** Playable cells: the termination measure *)

Lemma is_empty_eq (b b' : Board) (r c : Z) :
  cell b' r c = cell b r c -> is_empty b' r c = is_empty b r c.
Proof. unfold is_empty. intros ->. reflexivity. Qed.

Lemma column_free_unfold (b : Board) (c : Z) :
  column_free b c =
  if is_empty b 0 c then
    (Nat.b2n (is_empty b 0 c) + Nat.b2n (is_empty b 1 c) +
     Nat.b2n (is_empty b 2 c) + Nat.b2n (is_empty b 3 c) +
     Nat.b2n (is_empty b 4 c) + Nat.b2n (is_empty b 5 c))%nat
  else O.
Proof.
  unfold column_free. change (range ROWS) with [0; 1; 2; 3; 4; 5].
  simpl filter.
  destruct (is_empty b 0 c), (is_empty b 1 c), (is_empty b 2 c),
    (is_empty b 3 c), (is_empty b 4 c), (is_empty b 5 c); reflexivity.
Qed.

Lemma make_move_playable (b : Board) (col player : Z) :
  wf_board b -> col = 0 \/ col = 1 \/ col = 2 ->
  cell b 0 col = Ok 0 -> player <> 0 ->
  exists b', make_move b col player = Ok b' /\ wf_board b' /\
             (playable b' + 1 = playable b)%nat.
Proof.
  intros Hwf Hcol Htop Hp.
  assert (Hc : 0 <= col < COLUMNS) by (unfold COLUMNS; lia).
  destruct (make_move_spec b col player Hwf Hc)
    as (b' & r0 & Hmv & Hwf' & Hr0 & H0 & Hbelow & Hnew & Hframe).
  { exists 0. split; [unfold ROWS; lia | exact Htop]. }
  exists b'. split; [exact Hmv|]. split; [exact Hwf'|].
  assert (Hother : forall c, 0 <= c < COLUMNS -> c <> col ->
                     column_free b' c = column_free b c).
  { intros c Hcr Hne. rewrite !column_free_unfold.
    rewrite !(is_empty_eq b b' _ c);
      try (apply Hframe; [unfold ROWS; lia | exact Hcr | congruence]).
    reflexivity. }
  assert (Hnew' : is_empty b' r0 col = false).
  { unfold is_empty. rewrite Hnew. apply Z.eqb_neq. exact Hp. }
  assert (Hold : is_empty b r0 col = true) by (apply is_empty_true; exact H0).
  assert (Hbelow' : forall r, r0 < r < ROWS -> is_empty b r col = false).
  { intros r Hr. destruct (is_empty b r col) eqn:E; [|reflexivity].
    apply is_empty_true in E. destruct (Hbelow r Hr E). }
  assert (Htop' : is_empty b 0 col = true) by (apply is_empty_true; exact Htop).
  assert (Hsame : forall r, 0 <= r < ROWS -> r <> r0 ->
                    is_empty b' r col = is_empty b r col).
  { intros r Hr Hne. apply is_empty_eq. apply Hframe; auto. congruence. }
  assert (Hplayed : (column_free b' col + 1 = column_free b col)%nat).
  { rewrite !column_free_unfold. unfold ROWS in *.
    assert (r0 = 0 \/ r0 = 1 \/ r0 = 2 \/ r0 = 3 \/ r0 = 4 \/ r0 = 5)
      as [-> | [-> | [-> | [-> | [-> | ->]]]]] by lia;
      rewrite ?Hnew', ?Htop';
      repeat match goal with
        | |- context [is_empty b' ?r col] =>
            rewrite (Hsame r) by lia
        end;
      rewrite ?Htop', ?Hold;
      repeat match goal with
        | |- context [is_empty b ?r col] =>
            rewrite (Hbelow' r) by lia
        end;
      simpl;
      repeat match goal with
        | |- context [is_empty b ?r col] => destruct (is_empty b r col)
        end; simpl; lia. }
  unfold playable.
  destruct Hcol as [-> | [-> | ->]].
  - rewrite (Hother 1), (Hother 2) by (unfold COLUMNS; lia). lia.
  - rewrite (Hother 0), (Hother 2) by (unfold COLUMNS; lia). lia.
  - rewrite (Hother 0), (Hother 1) by (unfold COLUMNS; lia). lia.
Qed.


Lemma valid_moves_in (b : Board) (depth : Z) (moves : list Z) :
  wf_board b -> get_valid_moves b depth = Ok moves ->
  Forall (fun m => (m = 0 \/ m = 1 \/ m = 2) /\ cell b 0 m = Ok 0) moves.
Proof.
  intros Hwf H. rewrite get_valid_moves_filter in H by exact Hwf.
  assert (Hm : moves = filter (is_empty b 0) [0; 1; 2]) by congruence.
  rewrite Hm. clear H Hm. apply Forall_forall. intros m Hm.
  apply filter_In in Hm. destruct Hm as [Hin He].
  apply is_empty_true in He. simpl in Hin. intuition.
Qed.

(** * Further properties of the board operations *)

(** ** Win detection *)

Lemma in_range_from (a b x : Z) : In x (range_from a b) <-> a <= x < b.
Proof.
  unfold range_from. rewrite in_map_iff. split.
  - intros (k & <- & Hk). apply in_seq in Hk. lia.
  - intros Hx. exists (Z.to_nat (x - a)). split; [lia|].
    apply in_seq. lia.
Qed.

Lemma in_range (n x : Z) : In x (range n) <-> 0 <= x < n.
Proof. apply in_range_from. Qed.

Lemma in_starts (rs cs : list Z) (r c : Z) :
  In (r, c) (flat_map (fun r' => map (fun c' => (r', c')) cs) rs) <->
  In r rs /\ In c cs.
Proof.
  rewrite in_flat_map. split.
  - intros (r' & Hr & Hin). apply in_map_iff in Hin.
    destruct Hin as (c' & E & Hc). injection E as -> ->. auto.
  - intros [Hr Hc]. exists r. split; [exact Hr|].
    apply in_map_iff. exists c. auto.
Qed.

Lemma in_starts_swapped (rs cs : list Z) (r c : Z) :
  In (r, c) (flat_map (fun c' => map (fun r' => (r', c')) rs) cs) <->
  In r rs /\ In c cs.
Proof.
  rewrite in_flat_map. split.
  - intros (c' & Hc & Hin). apply in_map_iff in Hin.
    destruct Hin as (r' & E & Hr). injection E as -> ->. auto.
  - intros [Hr Hc]. exists c. split; [exact Hc|].
    apply in_map_iff. exists r. auto.
Qed.

Lemma all_equal_true (b : Board) (player : Z) (coords : list (Z * Z)) :
  wf_board b -> forallb on_grid coords = true ->
  (all_equal b player coords = Ok true <->
   forall rc, In rc coords -> cell b (fst rc) (snd rc) = Ok player).
Proof.
  intros Hwf. induction coords as [|[r c] rest IH]; simpl; intros H.
  - split; [intros _ rc [] | reflexivity].
  - apply andb_true_iff in H. destruct H as [Hrc Hrest].
    destruct (on_grid_cell b r c Hwf Hrc) as (x & Hx). rewrite Hx. simpl.
    destruct (Z.eqb_spec x player) as [->|Hne].
    + rewrite (IH Hrest). split.
      * intros Hall rc [<- | Hin]; [exact Hx | auto].
      * intros Hall rc Hin. apply Hall. right. exact Hin.
    + split; [discriminate|]. intros Hall.
      specialize (Hall (r, c) (or_introl eq_refl)). simpl in Hall. congruence.
Qed.

Lemma scan_lines_true (b : Board) (player dr dc : Z)
  (starts : list (Z * Z)) :
  wf_board b ->
  forallb (fun s => forallb on_grid (line dr dc s)) starts = true ->
  (scan_lines b player dr dc starts = Ok true <->
   exists s, In s starts /\
     forall rc, In rc (line dr dc s) ->
       cell b (fst rc) (snd rc) = Ok player).
Proof.
  intros Hwf. induction starts as [|s rest IH]; intros H.
  - simpl. split; [discriminate | intros (s & [] & _)].
  - cbn [forallb] in H. cbn [scan_lines].
    apply andb_true_iff in H. destruct H as [Hs Hrest].
    pose proof (all_equal_true b player (line dr dc s) Hwf Hs) as Hall.
    destruct (all_equal_ok b player (line dr dc s) Hwf Hs) as (w & Hw).
    rewrite Hw. cbn [bind]. destruct w.
    + split; [|reflexivity]. intros _. exists s. split; [left; reflexivity|].
      apply Hall. exact Hw.
    + rewrite (IH Hrest). split.
      * intros (s' & Hin & Hl). exists s'. split; [right; exact Hin | exact Hl].
      * intros (s' & [<- | Hin] & Hl).
        -- apply Hall in Hl. congruence.
        -- exists s'. auto.
Qed.

Lemma line_cells (dr dc r c : Z) (P : Z * Z -> Prop) :
  (forall rc, In rc (line dr dc (r, c)) -> P rc) <->
  (forall i, 0 <= i < 4 -> P (r + dr * i, c + dc * i)).
Proof.
  unfold line. simpl fst. simpl snd. split.
  - intros H i Hi. apply H. apply in_map_iff. exists i. split; [reflexivity|].
    apply in_range. exact Hi.
  - intros H rc Hin. apply in_map_iff in Hin. destruct Hin as (i & <- & Hi).
    apply H. apply in_range. exact Hi.
Qed.

Lemma starts_on_grid (dr dc : Z) (starts : list (Z * Z)) (s : Z * Z) :
  forallb (fun s => forallb on_grid (line dr dc s)) starts = true ->
  In s starts -> forall rc, In rc (line dr dc s) -> on_grid rc = true.
Proof.
  intros H Hin rc Hrc. rewrite forallb_forall in H.
  specialize (H s Hin). rewrite forallb_forall in H. auto.
Qed.

Lemma scan_lines_aligned (b : Board) (player dr dc : Z)
  (starts : list (Z * Z)) :
  wf_board b ->
  forallb (fun s => forallb on_grid (line dr dc s)) starts = true ->
  (forall r c, aligned b player r c dr dc -> In (r, c) starts) ->
  (scan_lines b player dr dc starts = Ok true <->
   exists r c, aligned b player r c dr dc).
Proof.
  intros Hwf Hgrid Hcover.
  rewrite (scan_lines_true b player dr dc starts Hwf Hgrid). split.
  - intros ([r c] & Hin & Hl). exists r, c.
    pose proof (starts_on_grid dr dc starts (r, c) Hgrid Hin) as Hg.
    rewrite line_cells in Hl. rewrite line_cells in Hg.
    intros i Hi. split; [apply Hg | apply (Hl i)]; exact Hi.
  - intros (r & c & Hal). exists (r, c). split; [apply Hcover; exact Hal|].
    apply line_cells. intros i Hi. apply Hal. exact Hi.
Qed.

Lemma on_grid_bounds (r c : Z) :
  on_grid (r, c) = true <-> 0 <= r < ROWS /\ 0 <= c < COLUMNS.
Proof.
  unfold on_grid. simpl. rewrite !andb_true_iff, !Z.leb_le, !Z.ltb_lt. tauto.
Qed.

Lemma aligned_bounds (b : Board) (player r c dr dc : Z) :
  aligned b player r c dr dc ->
  (0 <= r < ROWS /\ 0 <= c < COLUMNS) /\
  (0 <= r + dr * 3 < ROWS /\ 0 <= c + dc * 3 < COLUMNS).
Proof.
  intros H. split.
  - destruct (H 0) as [Hg _]; [lia|]. apply on_grid_bounds in Hg. lia.
  - destruct (H 3) as [Hg _]; [lia|]. apply on_grid_bounds in Hg. exact Hg.
Qed.

Lemma check_win_true (b : Board) (player : Z) :
  wf_board b -> (check_win b player = Ok true <-> has_four b player).
Proof.
  intros Hwf.
  assert (Hh := scan_lines_aligned b player 0 1 horizontal_starts Hwf eq_refl).
  assert (Hv := scan_lines_aligned b player 1 0 vertical_starts Hwf eq_refl).
  assert (Hd := scan_lines_aligned b player 1 1 diag_down_starts Hwf eq_refl).
  assert (Hu := scan_lines_aligned b player (-1) 1 diag_up_starts Hwf eq_refl).
  destruct Hh as [Hh1 Hh2].
  { intros r c Hal. apply aligned_bounds in Hal. apply in_starts.
    rewrite !in_range. unfold ROWS, COLUMNS in *. lia. }
  destruct Hv as [Hv1 Hv2].
  { intros r c Hal. apply aligned_bounds in Hal. apply in_starts_swapped.
    rewrite !in_range. unfold ROWS, COLUMNS in *. lia. }
  destruct Hd as [Hd1 Hd2].
  { intros r c Hal. apply aligned_bounds in Hal. apply in_starts.
    rewrite !in_range. unfold ROWS, COLUMNS in *. lia. }
  destruct Hu as [Hu1 Hu2].
  { intros r c Hal. apply aligned_bounds in Hal. apply in_starts.
    rewrite in_range_from, in_range. unfold ROWS, COLUMNS in *. lia. }
  unfold check_win.
  destruct (scan_lines_ok b player 0 1 horizontal_starts Hwf eq_refl)
    as (h & Eh).
  destruct (scan_lines_ok b player 1 0 vertical_starts Hwf eq_refl)
    as (v & Ev).
  destruct (scan_lines_ok b player 1 1 diag_down_starts Hwf eq_refl)
    as (d & Ed).
  destruct (scan_lines_ok b player (-1) 1 diag_up_starts Hwf eq_refl)
    as (u & Eu).
  rewrite Eh, Ev, Ed, Eu in *. cbn [bind].
  split.
  - intros H.
    destruct h; [destruct (Hh1 eq_refl) as (r & c & Hal);
                 exists r, c, 0, 1; split; [unfold direction; tauto | exact Hal]|].
    destruct v; [destruct (Hv1 eq_refl) as (r & c & Hal);
                 exists r, c, 1, 0; split; [unfold direction; tauto | exact Hal]|].
    destruct d; [destruct (Hd1 eq_refl) as (r & c & Hal);
                 exists r, c, 1, 1; split; [unfold direction; tauto | exact Hal]|].
    destruct u; [destruct (Hu1 eq_refl) as (r & c & Hal);
                 exists r, c, (-1), 1; split;
                 [unfold direction; tauto | exact Hal]|].
    discriminate.
  - intros (r & c & dr & dc & Hdir & Hal).
    destruct Hdir as [[-> ->] | [[-> ->] | [[-> ->] | [-> ->]]]].
    + assert (E : Ok h = Ok true) by (apply Hh2; eauto).
      injection E as ->. reflexivity.
    + assert (E : Ok v = Ok true) by (apply Hv2; eauto).
      injection E as ->. destruct h; reflexivity.
    + assert (E : Ok d = Ok true) by (apply Hd2; eauto).
      injection E as ->. destruct h, v; reflexivity.
    + assert (E : Ok u = Ok true) by (apply Hu2; eauto).
      injection E as ->. destruct h, v, d; reflexivity.
Qed.

(** X1. On a well-formed board [check_win] answers [True] exactly when the
    player has four aligned cells on the grid, along a row, a column or one of
    the two diagonals, and [False] exactly when there is no such line. *)
Theorem check_win_four_aligned (board : Board) (player : Z) :
  wf_board board ->
  (check_win board player = Ok true <-> has_four board player) /\
  (check_win board player = Ok false <-> ~ has_four board player).
Proof.
  intros Hwf. pose proof (check_win_true board player Hwf) as Ht.
  split; [exact Ht|].
  destruct (check_win_ok board player Hwf) as ([|] & Hw); rewrite Hw in *.
  - split; [discriminate|]. intros Hn. destruct Hn. apply Ht. reflexivity.
  - split; [|reflexivity]. intros _ Hf. apply Ht in Hf. discriminate.
Qed.

Lemma check_win_four_aligned_witness :
  wf_board won_board /\
  (check_win won_board 1 = Ok true <-> has_four won_board 1) /\
  (check_win won_board 1 = Ok false <-> ~ has_four won_board 1).
Proof.
  split; [split; [reflexivity | repeat constructor]|].
  apply (check_win_four_aligned won_board 1).
  split; [reflexivity | repeat constructor].
Defined.

(** X2. On a well-formed board [evaluate] returns 100 exactly when MAX has
    four aligned (also when MIN has four aligned too), -100 exactly when MIN
    has and MAX has not, and 0 exactly when neither has. *)
Theorem evaluate_outcome (board : Board) :
  wf_board board ->
  exists s,
    evaluate board = Ok s /\
    (s = 100 <-> has_four board 1) /\
    (s = -100 <-> ~ has_four board 1 /\ has_four board (-1)) /\
    (s = 0 <-> ~ has_four board 1 /\ ~ has_four board (-1)).
Proof.
  intros Hwf. unfold evaluate.
  pose proof (check_win_true board 1 Hwf) as H1.
  pose proof (check_win_true board (-1) Hwf) as H2.
  destruct (check_win_ok board 1 Hwf) as (w & Hw).
  destruct (check_win_ok board (-1) Hwf) as (l & Hl).
  rewrite Hw, Hl in *. cbn [bind].
  assert (Hw' : w = true <-> has_four board 1).
  { rewrite <- H1. split; [intros ->; reflexivity | congruence]. }
  assert (Hl' : l = true <-> has_four board (-1)).
  { rewrite <- H2. split; [intros ->; reflexivity | congruence]. }
  destruct w, l; eexists; (split; [reflexivity|]);
    rewrite <- Hw', <- Hl'; repeat split; intros;
    try lia; try tauto; try discriminate;
    try (intuition discriminate).
Qed.

Lemma evaluate_outcome_witness :
  wf_board won_board /\
  exists s,
    evaluate won_board = Ok s /\
    (s = 100 <-> has_four won_board 1) /\
    (s = -100 <-> ~ has_four won_board 1 /\ has_four won_board (-1)) /\
    (s = 0 <-> ~ has_four won_board 1 /\ ~ has_four won_board (-1)).
Proof.
  split; [split; [reflexivity | repeat constructor]|].
  apply (evaluate_outcome won_board).
  split; [reflexivity | repeat constructor].
Defined.

(** ** Gravity *)




(** ** Moves and the move generator *)

(** On the grid of values: a legal move by a player other than 0 fills one
    playable cell; every other allowed column is legal exactly when it was,
    and the played column stays legal exactly when it had an empty cell below
    its top cell. *)
Lemma legal_move_grid (board : Board) (m player depth : Z)
  (moves : list Z) :
  wf_board board -> player <> 0 ->
  get_valid_moves board depth = Ok moves -> In m moves ->
  exists child moves',
    make_move board m player = Ok child /\
    (playable child + 1 = playable board)%nat /\
    get_valid_moves child (depth + 1) = Ok moves' /\
    (forall c, In c moves' <->
       In c moves /\
       (c = m -> exists r, 1 <= r < ROWS /\ cell board r m = Ok 0)).
Proof.
  intros Hwf Hp Hmoves Hin.
  pose proof (valid_moves_in board depth moves Hwf Hmoves) as Hlegal.
  rewrite Forall_forall in Hlegal. destruct (Hlegal m Hin) as [Hm Htop].
  assert (Hc : 0 <= m < COLUMNS) by (unfold COLUMNS; lia).
  destruct (make_move_spec board m player Hwf Hc)
    as (b' & r0 & Hmv & Hwf' & Hr0 & H0 & Hbelow & Hnew & Hframe).
  { exists 0. split; [unfold ROWS; lia | exact Htop]. }
  destruct (make_move_playable board m player Hwf Hm Htop Hp)
    as (b2 & Hmv2 & _ & Hpl).
  assert (b2 = b') by congruence. subst b2.
  exists b', (filter (is_empty b' 0) [0; 1; 2]).
  split; [exact Hmv|]. split; [exact Hpl|].
  split; [apply get_valid_moves_filter; exact Hwf'|].
  rewrite get_valid_moves_filter in Hmoves by exact Hwf.
  assert (E : moves = filter (is_empty board 0) [0; 1; 2]) by congruence.
  subst moves. clear Hmoves.
  intros c. rewrite !filter_In, !is_empty_true. split.
  - intros [Hc3 Hc0].
    assert (Hcr : 0 <= c < COLUMNS) by (simpl in Hc3; unfold COLUMNS; lia).
    destruct (Z.eq_dec c m) as [-> | Hne].
    + assert (Hr : r0 <> 0) by (intros ->; congruence).
      rewrite Hframe in Hc0;
        [| unfold ROWS; lia | exact Hcr | intros E; injection E; lia].
      split; [split; assumption|]. intros _. exists r0.
      split; [lia | exact H0].
    + rewrite Hframe in Hc0; [| unfold ROWS; lia | exact Hcr | congruence].
      split; [split; assumption | intros; contradiction].
  - intros [[Hc3 Hc0] Hbel]. split; [exact Hc3|].
    assert (Hcr : 0 <= c < COLUMNS) by (simpl in Hc3; unfold COLUMNS; lia).
    destruct (Z.eq_dec c m) as [-> | Hne].
    + destruct (Hbel eq_refl) as (r & Hr & Hre).
      assert (Hr0' : r0 <> 0).
      { intros ->. apply (Hbelow r); [lia | exact Hre]. }
      rewrite Hframe;
        [exact Hc0 | unfold ROWS; lia | exact Hcr
         | intros E; injection E; lia].
    + rewrite Hframe; [exact Hc0 | unfold ROWS; lia | exact Hcr | congruence].
Qed.

(** ** Subscripts out of the grid *)

Lemma py_getitem_wrap {A : Type} (l : list A) (i : Z) :
  - Z.of_nat (length l) <= i < 0 ->
  py_getitem l i = py_getitem l (i + Z.of_nat (length l)).
Proof.
  intros Hi. unfold py_getitem, py_norm.
  destruct (Z.ltb_spec i 0); [|lia].
  destruct (Z.ltb_spec (i + Z.of_nat (length l)) 0); [lia|]. reflexivity.
Qed.

Lemma py_setitem_wrap {A : Type} (l : list A) (i : Z) (x : A) :
  - Z.of_nat (length l) <= i < 0 ->
  py_setitem l i x = py_setitem l (i + Z.of_nat (length l)) x.
Proof.
  intros Hi. unfold py_setitem, py_norm.
  destruct (Z.ltb_spec i 0); [|lia].
  destruct (Z.ltb_spec (i + Z.of_nat (length l)) 0); [lia|]. reflexivity.
Qed.

Lemma py_getitem_out {A : Type} (l : list A) (i : Z) :
  i < - Z.of_nat (length l) \/ Z.of_nat (length l) <= i ->
  py_getitem l i = IndexError.
Proof.
  intros Hi. unfold py_getitem, py_norm, in_bounds.
  destruct (Z.ltb_spec i 0).
  - destruct (Z.leb_spec 0 (i + Z.of_nat (length l))); [lia|]. reflexivity.
  - destruct (Z.ltb_spec i (Z.of_nat (length l))); [lia|].
    rewrite andb_false_r. reflexivity.
Qed.

Lemma cell_wrap_col (b : Board) (r col : Z) :
  wf_board b -> 0 <= r < ROWS -> - COLUMNS <= col < 0 ->
  cell b r col = cell b r (col + COLUMNS).
Proof.
  intros Hwf Hr Hc. destruct (wf_row b r Hwf Hr) as (row & _ & Hg & Hl).
  unfold cell. rewrite Hg. cbn [bind]. rewrite <- Hl.
  apply py_getitem_wrap. lia.
Qed.

Lemma set_cell_wrap_col (b : Board) (r col v : Z) :
  wf_board b -> 0 <= r < ROWS -> - COLUMNS <= col < 0 ->
  set_cell b r col v = set_cell b r (col + COLUMNS) v.
Proof.
  intros Hwf Hr Hc. destruct (wf_row b r Hwf Hr) as (row & _ & Hg & Hl).
  unfold set_cell. rewrite Hg. cbn [bind]. rewrite <- Hl.
  rewrite py_setitem_wrap by lia. reflexivity.
Qed.

Lemma drop_loop_wrap_col (b : Board) (rows : list Z) (col player : Z) :
  wf_board b -> Forall (fun r => 0 <= r < ROWS) rows ->
  - COLUMNS <= col < 0 ->
  drop_loop b rows col player = drop_loop b rows (col + COLUMNS) player.
Proof.
  intros Hwf Hrows Hc. induction Hrows as [|r rest Hr Hrest IH]; simpl.
  - reflexivity.
  - rewrite (cell_wrap_col b r col Hwf Hr Hc).
    rewrite (set_cell_wrap_col b r col player Hwf Hr Hc). rewrite IH.
    reflexivity.
Qed.

(** X5. Column subscripts follow Python: on a well-formed board a column
    index from -7 to -1 plays the column counted from the right, and an index
    below -7 or above 6 raises [IndexError]. *)
Theorem make_move_column_subscript (board : Board) (col player : Z) :
  wf_board board ->
  (- COLUMNS <= col < 0 ->
   make_move board col player = make_move board (col + COLUMNS) player) /\
  (col < - COLUMNS \/ COLUMNS <= col ->
   make_move board col player = IndexError).
Proof.
  intros Hwf. split.
  - intros Hc. unfold make_move, deepcopy.
    apply drop_loop_wrap_col; [exact Hwf | | exact Hc].
    rewrite rows_of_board. repeat constructor; unfold ROWS; lia.
  - intros Hc. unfold make_move, deepcopy. rewrite rows_of_board.
    cbn [drop_loop].
    destruct (wf_row board 5 Hwf) as (row & _ & Hg & Hl);
      [unfold ROWS; lia|].
    unfold cell. rewrite Hg. cbn [bind].
    rewrite py_getitem_out by lia. reflexivity.
Qed.

Lemma make_move_column_subscript_witness :
  wf_board initial_board /\
  (- COLUMNS <= -1 < 0 ->
   make_move initial_board (-1) 1 = make_move initial_board (-1 + COLUMNS) 1)
  /\
  (-1 < - COLUMNS \/ COLUMNS <= -1 ->
   make_move initial_board (-1) 1 = IndexError).
Proof.
  split; [split; [reflexivity | repeat constructor]|].
  apply (make_move_column_subscript initial_board (-1) 1).
  split; [reflexivity | repeat constructor].
Defined.

(** X6. [get_valid_moves] reads the first three cells of the top row and
    nothing else: it raises [IndexError] exactly when the board has no row or
    its top row has fewer than three cells, and otherwise returns the columns
    among 0, 1, 2 whose top cell is 0, whatever the rest of the board holds. *)
Theorem get_valid_moves_top_row (board : Board) (depth : Z) :
  get_valid_moves board depth =
  match board with
  | [] => IndexError
  | top :: _ =>
      if (length top <? 3)%nat then IndexError
      else Ok (filter (fun c => nth (Z.to_nat c) top 1 =? 0) [0; 1; 2])
  end.
Proof.
  unfold get_valid_moves. destruct board as [|top rest]; [reflexivity|].
  assert (Hcell : forall c, cell (top :: rest) 0 c = py_getitem top c)
    by reflexivity.
  destruct top as [|x0 [|x1 [|x2 t]]].
  - reflexivity.
  - cbn [valid_loop]. rewrite !Hcell.
    change (py_getitem [x0] 0) with (Ok x0). cbn [bind].
    change (py_getitem [x0] 1) with (@IndexError Z). reflexivity.
  - cbn [valid_loop]. rewrite !Hcell.
    change (py_getitem [x0; x1] 0) with (Ok x0). cbn [bind].
    change (py_getitem [x0; x1] 1) with (Ok x1). cbn [bind].
    change (py_getitem [x0; x1] 2) with (@IndexError Z). reflexivity.
  - cbn [valid_loop]. rewrite !Hcell.
    destruct (py_getitem_in (x0 :: x1 :: x2 :: t) 0) as (y0 & E0 & ->);
      [simpl length; lia|].
    destruct (py_getitem_in (x0 :: x1 :: x2 :: t) 1) as (y1 & E1 & ->);
      [simpl length; lia|].
    destruct (py_getitem_in (x0 :: x1 :: x2 :: t) 2) as (y2 & E2 & ->);
      [simpl length; lia|].
    simpl in E0, E1, E2. injection E0 as <-. injection E1 as <-.
    injection E2 as <-. cbn [bind].
    replace (length (x0 :: x1 :: x2 :: t) <? 3)%nat with false
      by (symmetry; apply Nat.ltb_ge; simpl; lia).
    simpl. destruct (x0 =? 0), (x1 =? 0), (x2 =? 0); reflexivity.
Qed.

(** * Properties of the reports *)

(** ** The printed board *)

Lemma symbol_char (x : Z) :
  exists ch, symbol x = String ch EmptyString /\
             ch <> Ascii.ascii_of_nat 32.
Proof.
  unfold symbol. destruct (x =? 0); [|destruct (x =? 1)];
    eexists; (split; [reflexivity | discriminate]).
Qed.

Lemma symbol_inj (x y : Z) :
  (x = 0 \/ x = 1 \/ x = -1) -> (y = 0 \/ y = 1 \/ y = -1) ->
  symbol x = symbol y -> x = y.
Proof.
  intros [-> | [-> | ->]] [-> | [-> | ->]]; vm_compute; intros H;
    try reflexivity; discriminate.
Qed.

Lemma row_line_cons (x : Z) (y : Z) (row : list Z) :
  String.concat " "%string (map symbol (x :: y :: row)) =
  (symbol x ++ " " ++ String.concat " " (map symbol (y :: row)))%string.
Proof. reflexivity. Qed.

Lemma row_line_inj (r1 : list Z) :
  forall r2,
    Forall (fun x => x = 0 \/ x = 1 \/ x = -1) r1 ->
    Forall (fun x => x = 0 \/ x = 1 \/ x = -1) r2 ->
    String.concat " "%string (map symbol r1) =
    String.concat " "%string (map symbol r2) ->
    r1 = r2.
Proof.
  induction r1 as [|x [|x' r1] IH]; intros [|y [|y' r2]] H1 H2 H;
    try reflexivity.
  - simpl in H. destruct (symbol_char y) as (c & E & _). rewrite E in H.
    discriminate.
  - rewrite row_line_cons in H. destruct (symbol_char y) as (c & E & _).
    rewrite E in H. discriminate.
  - simpl in H. destruct (symbol_char x) as (c & E & _). rewrite E in H.
    discriminate.
  - simpl in H. f_equal.
    inversion H1; inversion H2; subst. apply symbol_inj; auto.
  - rewrite row_line_cons in H. simpl in H.
    destruct (symbol_char x) as (c & E & _).
    destruct (symbol_char y) as (c' & E' & _).
    rewrite E, E' in H. discriminate.
  - rewrite row_line_cons in H. destruct (symbol_char x) as (c & E & _).
    rewrite E in H. discriminate.
  - rewrite row_line_cons in H. simpl in H.
    destruct (symbol_char x) as (c & E & _).
    destruct (symbol_char y) as (c' & E' & _).
    rewrite E, E' in H. discriminate.
  - rewrite !row_line_cons in H.
    inversion H1 as [|? ? Hx H1']; inversion H2 as [|? ? Hy H2']; subst.
    destruct (symbol_char x) as (c & E & _).
    destruct (symbol_char y) as (c' & E' & _).
    assert (Hxy : symbol x = symbol y).
    { rewrite E, E' in H |- *. simpl in H. injection H as -> _. reflexivity. }
    rewrite E, E' in H. simpl in H. injection H as _ H.
    f_equal; [apply symbol_inj; auto|].
    apply IH; auto.
Qed.

(** X13. [print_board] prints one line per row and an empty line, and the
    print tells boards of tokens apart: two boards whose cells are 0, 1 or
    -1 and that print the same lines are equal. *)
Theorem print_board_faithful (b1 b2 : Board) :
  tokens b1 -> tokens b2 ->
  print_board b1 = print_board b2 ->
  b1 = b2 /\ length (print_board b1) = S (length b1).
Proof.
  intros H1 H2 H. split.
  - unfold print_board in H. apply app_inv_tail in H.
    revert b2 H2 H. induction H1 as [|r1 b1 Hr1 Hb1 IH];
      intros [|r2 b2] H2 H; try discriminate; [reflexivity|].
    inversion H2 as [|? ? Hr2 Hb2]; subst. simpl in H.
    injection H as Hrow Hrest. f_equal.
    + apply row_line_inj; assumption.
    + apply IH; assumption.
  - unfold print_board. rewrite length_app, length_map. simpl. lia.
Qed.

Lemma print_board_faithful_witness :
  tokens initial_board /\ tokens initial_board /\
  print_board initial_board = print_board initial_board /\
  initial_board = initial_board /\
  length (print_board initial_board) = S (length initial_board).
Proof.
  assert (Ht : tokens initial_board).
  { unfold tokens, initial_board.
    repeat (apply Forall_cons || apply Forall_nil); lia. }
  split; [exact Ht|]. split; [exact Ht|]. split; [reflexivity|].
  apply (print_board_faithful initial_board initial_board Ht Ht).
  reflexivity.
Defined.

(** ** The summary of the terminal states *)














Lemma insert_desc_length (k : val) (l : list val) :
  length (insert_desc k l) = S (length l).
Proof.
  induction l as [|y l IH]; simpl; [reflexivity|].
  destruct (val_ltb y k); simpl; [reflexivity|]. now rewrite IH.
Qed.



Lemma sorted_reverse_length (keys : list val) :
  length (sorted_reverse keys) = length keys.
Proof.
  induction keys as [|k keys IH]; simpl; [reflexivity|].
  now rewrite insert_desc_length, IH.
Qed.










(** * Boards as objects *)

(** ** Reading a board object *)

Lemma py_getitem_map {A B : Type} (f : A -> B) (l : list A) (i : Z) :
  py_getitem (map f l) i = fmap f (py_getitem l i).
Proof.
  unfold py_getitem. rewrite length_map.
  destruct (in_bounds _ _); [|reflexivity].
  rewrite nth_error_map. destruct (nth_error l _); reflexivity.
Qed.

Lemma obj_cell_view (s : Obj.store) (b : Obj.board) (r c : Z) :
  Obj.cell s b r c = cell (Obj.view s b) r c.
Proof.
  unfold Obj.cell, cell, Obj.view. rewrite py_getitem_map.
  destruct (py_getitem b r); reflexivity.
Qed.

Lemma obj_valid_loop_view (s : Obj.store) (b : Obj.board) (cols : list Z) :
  forall valid,
    Obj.valid_loop s b cols valid = valid_loop (Obj.view s b) cols valid.
Proof.
  induction cols as [|c rest IH]; intros valid; simpl; [reflexivity|].
  rewrite obj_cell_view.
  destruct (cell (Obj.view s b) 0 c); simpl; try reflexivity. apply IH.
Qed.

(** [get_valid_moves] only reads: it sees the grid that the board shows. *)
Lemma obj_get_valid_moves_view (s : Obj.store) (b : Obj.board) (d : Z) :
  Obj.get_valid_moves s b d = get_valid_moves (Obj.view s b) d.
Proof. apply obj_valid_loop_view. Qed.

Lemma cell_map_row (g : nat -> list Z) (b : Obj.board) (r c : Z) (a : nat) :
  0 <= r -> nth_error b (Z.to_nat r) = Some a ->
  cell (map g b) r c = py_getitem (g a) c.
Proof.
  intros Hr Hn. unfold cell. rewrite py_getitem_map.
  destruct (py_getitem_in b r) as (x & Hx & Hg).
  { split; [exact Hr|].
    assert (Z.to_nat r < length b)%nat
      by (apply nth_error_Some; congruence).
    lia. }
  rewrite Hg. simpl. congruence.
Qed.

Lemma py_getitem_update {A : Type} (l : list A) (i j : Z) (x : A) :
  0 <= i < Z.of_nat (length l) -> 0 <= j < Z.of_nat (length l) ->
  py_getitem (list_update l (Z.to_nat i) x) j =
  if j =? i then Ok x else py_getitem l j.
Proof.
  intros Hi Hj.
  destruct (py_getitem_in (list_update l (Z.to_nat i) x) j)
    as (y & Hy & ->); [rewrite list_update_length; exact Hj|].
  destruct (py_getitem_in l j Hj) as (z & Hz & ->).
  destruct (j =? i) eqn:E.
  - apply Z.eqb_eq in E. subst j.
    rewrite nth_error_list_update_eq in Hy by lia. congruence.
  - apply Z.eqb_neq in E.
    rewrite nth_error_list_update_neq in Hy
      by (intros E'; apply Z2Nat.inj in E'; lia).
    congruence.
Qed.

(** ** Row objects of a store *)

Lemma row_app_old (s ext : Obj.store) (a : nat) :
  (a < length s)%nat -> Obj.row (s ++ ext) a = Obj.row s a.
Proof. intros Ha. unfold Obj.row. apply app_nth1. exact Ha. Qed.

Lemma row_app_new (s : Obj.store) (x : list Z) :
  Obj.row (s ++ [x]) (length s) = x.
Proof.
  unfold Obj.row. rewrite app_nth2 by lia. rewrite Nat.sub_diag. reflexivity.
Qed.

Lemma row_update (s : Obj.store) (a a' : nat) (x : list Z) :
  (a < length s)%nat ->
  Obj.row (list_update s a x) a' = if Nat.eqb a' a then x else Obj.row s a'.
Proof.
  unfold Obj.row. revert a a'.
  induction s as [|h t IH]; intros [|a] [|a'] Ha; simpl in *;
    try lia; try reflexivity.
  apply IH. lia.
Qed.

(** ** [copy.deepcopy] keeps the cells and the sharing *)

Lemma memo_ok_start (s : Obj.store) : Obj.memo_ok s s [].
Proof.
  split; [exists []; now rewrite app_nil_r|].
  split; intros; discriminate.
Qed.

Lemma deepcopy_rows_spec (s0 : Obj.store) (rows : list nat) :
  forall s memo s' ys,
    Obj.memo_ok s0 s memo ->
    Forall (fun a => (a < length s0)%nat) rows ->
    Obj.deepcopy_rows s memo rows = (s', ys) ->
    exists memo',
      Obj.memo_ok s0 s' memo' /\
      (forall a a', Obj.memo_get memo a = Some a' ->
                    Obj.memo_get memo' a = Some a') /\
      Forall2 (fun a a' => Obj.memo_get memo' a = Some a') rows ys.
Proof.
  induction rows as [|a rest IH]; intros s memo s' ys Hok Hin H.
  - simpl in H. injection H as <- <-. exists memo. auto.
  - inversion Hin as [|? ? Ha Hrest]; subst. cbn [Obj.deepcopy_rows] in H.
    destruct (Obj.memo_get memo a) as [a'|] eqn:Em.
    + destruct (Obj.deepcopy_rows s memo rest) as [s1 ys1] eqn:E.
      injection H as <- <-.
      destruct (IH _ _ _ _ Hok Hrest E) as (memo' & Hok' & Hext & Hall).
      exists memo'. split; [exact Hok'|]. split; [exact Hext|].
      constructor; [apply Hext; exact Em | exact Hall].
    + destruct (Obj.deepcopy_rows (s ++ [Obj.row s a])
                  ((a, length s) :: memo) rest) as [s1 ys1] eqn:E.
      injection H as <- <-.
      destruct Hok as ((ext & Hs) & Hcopy & Hinj).
      assert (Hrow : Obj.row s a = Obj.row s0 a).
      { rewrite Hs. apply row_app_old. exact Ha. }
      assert (Hlen : (length s0 <= length s)%nat)
        by (rewrite Hs, length_app; lia).
      assert (Hok1 : Obj.memo_ok s0 (s ++ [Obj.row s a])
                       ((a, length s) :: memo)).
      { split; [exists (ext ++ [Obj.row s a]); rewrite Hs;
                now rewrite app_assoc|].
        split.
        - intros k k' Hk. simpl in Hk. rewrite length_app. simpl.
          destruct (Nat.eqb a k) eqn:Eak.
          + apply Nat.eqb_eq in Eak. subst k. injection Hk as <-.
            split; [lia|]. rewrite row_app_new. exact Hrow.
          + destruct (Hcopy k k' Hk) as [Hr Hc].
            split; [lia|]. rewrite row_app_old by lia. exact Hc.
        - intros k1 k2 k' H1 H2. simpl in H1, H2.
          destruct (Nat.eqb a k1) eqn:E1, (Nat.eqb a k2) eqn:E2.
          + apply Nat.eqb_eq in E1, E2. congruence.
          + injection H1 as <-. destruct (Hcopy _ _ H2). lia.
          + injection H2 as <-. destruct (Hcopy _ _ H1). lia.
          + eapply Hinj; eauto. }
      destruct (IH _ _ _ _ Hok1 Hrest E) as (memo' & Hok' & Hext & Hall).
      exists memo'. split; [exact Hok'|]. split.
      * intros k k' Hk. apply Hext. simpl.
        destruct (Nat.eqb a k) eqn:Eak; [|exact Hk].
        apply Nat.eqb_eq in Eak. congruence.
      * constructor; [|exact Hall].
        apply Hext. simpl. now rewrite Nat.eqb_refl.
Qed.

(** The copy is the image of the board under a renaming of its row objects
    to new ones with the same cells, different objects to different ones. *)
Lemma deepcopy_spec (s : Obj.store) (b : Obj.board) :
  Forall (fun a => (a < length s)%nat) b ->
  exists f ext,
    Obj.deepcopy s b = (s ++ ext, map f b) /\
    (forall a, In a b ->
       (length s <= f a < length (s ++ ext))%nat /\
       Obj.row (s ++ ext) (f a) = Obj.row s a) /\
    (forall a a', In a b -> In a' b -> f a = f a' -> a = a').
Proof.
  intros Hin. unfold Obj.deepcopy.
  destruct (Obj.deepcopy_rows s [] b) as [s' ys] eqn:E.
  destruct (deepcopy_rows_spec s b s [] s' ys (memo_ok_start s) Hin E)
    as (memo & ((ext & ->) & Hcopy & Hinj) & _ & Hall).
  set (f := fun a => match Obj.memo_get memo a with
                     | Some a' => a'
                     | None => O
                     end).
  assert (Hf : forall a, In a b -> Obj.memo_get memo a = Some (f a)).
  { clear E. induction Hall as [|a a' r ys' Ha Hr IH]; intros k [];
      [subst k; unfold f; now rewrite Ha|].
    apply IH; [now inversion Hin | assumption]. }
  exists f, ext. split; [|split].
  - f_equal. clear E Hf. induction Hall as [|a a' r ys' Ha Hr IH];
      [reflexivity|].
    simpl. unfold f at 1. rewrite Ha. f_equal.
    apply IH. now inversion Hin.
  - intros a Ha. apply Hcopy, Hf, Ha.
  - intros a a' Ha Ha' E'. apply (Hinj a a' (f a)); [apply Hf, Ha|].
    rewrite E'. apply Hf, Ha'.
Qed.

(** ** [make_move] on a board object *)

Lemma obj_wf_row (s : Obj.store) (b : Obj.board) (r : Z) :
  Obj.wf s b -> 0 <= r < ROWS ->
  exists a, nth_error b (Z.to_nat r) = Some a /\ In a b /\
            (a < length s)%nat /\
            Z.of_nat (length (Obj.row s a)) = COLUMNS.
Proof.
  intros [Hin [Hlen Hrows]] Hr. unfold Obj.view in Hlen, Hrows.
  rewrite length_map in Hlen.
  destruct (py_getitem_in b r) as (a & Ha & _); [lia|].
  assert (Hab : In a b) by (eapply nth_error_In; eauto).
  exists a. split; [exact Ha|]. split; [exact Hab|].
  rewrite Forall_forall in Hin, Hrows. split; [apply Hin, Hab|].
  apply Hrows. apply in_map. exact Hab.
Qed.

Lemma obj_drop_loop_first (s : Obj.store) (b : Obj.board)
  (pre post : list Z) (r0 col player : Z) :
  wf_board (Obj.view s b) -> 0 <= col < COLUMNS ->
  (forall r, In r pre ->
     0 <= r < ROWS /\ cell (Obj.view s b) r col <> Ok 0) ->
  cell (Obj.view s b) r0 col = Ok 0 ->
  Obj.drop_loop s b (pre ++ r0 :: post) col player =
  Obj.set_cell s b r0 col player.
Proof.
  intros Hwf Hc Hpre H0. induction pre as [|r rest IH]; simpl.
  - rewrite obj_cell_view, H0; reflexivity.
  - destruct (Hpre r (or_introl eq_refl)) as [Hr Hnz].
    destruct (cell_in _ r col Hwf Hr Hc) as (x & Hx).
    rewrite obj_cell_view, Hx; simpl.
    destruct (x =? 0) eqn:E.
    + apply Z.eqb_eq in E; subst x. contradiction.
    + apply IH. intros r' Hin; apply Hpre; right; exact Hin.
Qed.

(** The scan of the copy stops at the lowest empty cell of the column. *)
Lemma obj_drop_loop_lowest (s : Obj.store) (b : Obj.board)
  (col player r0 : Z) :
  wf_board (Obj.view s b) -> 0 <= col < COLUMNS -> 0 <= r0 < ROWS ->
  cell (Obj.view s b) r0 col = Ok 0 ->
  (forall r, r0 < r < ROWS -> cell (Obj.view s b) r col <> Ok 0) ->
  Obj.drop_loop s b (rev (range ROWS)) col player =
  Obj.set_cell s b r0 col player.
Proof.
  intros Hwf Hc Hr0 H0 Hbelow. rewrite rows_of_board. unfold ROWS in *.
  assert (r0 = 5 \/ r0 = 4 \/ r0 = 3 \/ r0 = 2 \/ r0 = 1 \/ r0 = 0)
    as [-> | [-> | [-> | [-> | [-> | ->]]]]] by lia.
  - apply (obj_drop_loop_first s b [] [4; 3; 2; 1; 0]); auto.
    intros r [].
  - apply (obj_drop_loop_first s b [5] [3; 2; 1; 0]); auto.
    intros r Hin; simpl in Hin.
    split; [unfold ROWS; lia | apply Hbelow; lia].
  - apply (obj_drop_loop_first s b [5; 4] [2; 1; 0]); auto.
    intros r Hin; simpl in Hin.
    split; [unfold ROWS; lia | apply Hbelow; lia].
  - apply (obj_drop_loop_first s b [5; 4; 3] [1; 0]); auto.
    intros r Hin; simpl in Hin.
    split; [unfold ROWS; lia | apply Hbelow; lia].
  - apply (obj_drop_loop_first s b [5; 4; 3; 2] [0]); auto.
    intros r Hin; simpl in Hin.
    split; [unfold ROWS; lia | apply Hbelow; lia].
  - apply (obj_drop_loop_first s b [5; 4; 3; 2; 1] []); auto.
    intros r Hin; simpl in Hin.
    split; [unfold ROWS; lia | apply Hbelow; lia].
Qed.

Lemma obj_set_cell_in (s : Obj.store) (b : Obj.board) (r c v : Z)
  (a : nat) :
  Obj.wf s b -> 0 <= r < ROWS -> 0 <= c < COLUMNS ->
  nth_error b (Z.to_nat r) = Some a ->
  Obj.set_cell s b r c v =
  Ok (list_update s a (list_update (Obj.row s a) (Z.to_nat c) v)).
Proof.
  intros Hwf Hr Hc Ha.
  destruct (obj_wf_row s b r Hwf Hr) as (a' & Ha' & _ & _ & Hlen).
  assert (a' = a) by congruence. subst a'.
  destruct Hwf as [_ [Hb _]]. unfold Obj.view in Hb.
  rewrite length_map in Hb.
  destruct (py_getitem_in b r) as (x & Hx & Hg); [lia|].
  unfold Obj.set_cell. rewrite Hg. simpl.
  assert (x = a) by congruence. subst x.
  rewrite py_setitem_in by lia. reflexivity.
Qed.

Lemma view_copy (s ext : Obj.store) (b : Obj.board) (f : nat -> nat) :
  (forall a, In a b -> Obj.row (s ++ ext) (f a) = Obj.row s a) ->
  Obj.view (s ++ ext) (map f b) = Obj.view s b.
Proof.
  intros H. unfold Obj.view. rewrite map_map. apply map_ext_in. exact H.
Qed.

(** One run of [make_move] on a column with an empty cell: the board is
    copied to new row objects, by a renaming [f] of its row objects, and the
    copy of the row object [a0] that holds the lowest empty cell of the
    column gets the token. *)
Lemma obj_make_move_run (s : Obj.store) (b : Obj.board) (col player : Z) :
  Obj.wf s b -> 0 <= col < COLUMNS ->
  (exists r, 0 <= r < ROWS /\ cell (Obj.view s b) r col = Ok 0) ->
  exists f ext r0 a0,
    Obj.make_move s b col player =
      Ok (list_update (s ++ ext) (f a0)
            (list_update (Obj.row s a0) (Z.to_nat col) player),
          map f b) /\
    nth_error b (Z.to_nat r0) = Some a0 /\
    (forall a, In a b ->
       (length s <= f a < length (s ++ ext))%nat /\
       Obj.row (s ++ ext) (f a) = Obj.row s a) /\
    (forall a a', In a b -> In a' b -> f a = f a' -> a = a') /\
    0 <= r0 < ROWS /\
    cell (Obj.view s b) r0 col = Ok 0 /\
    (forall r, r0 < r < ROWS -> cell (Obj.view s b) r col <> Ok 0).
Proof.
  intros Hwf Hc Hex.
  destruct (lowest_empty _ col Hex) as (r0 & Hr0 & H0 & Hbelow).
  destruct (obj_wf_row s b r0 Hwf Hr0) as (a0 & Ha0 & Hin0 & _ & _).
  destruct (deepcopy_spec s b (proj1 Hwf)) as (f & ext & Hcp & Hf & Hinj).
  assert (Hview : Obj.view (s ++ ext) (map f b) = Obj.view s b).
  { apply view_copy. intros a Ha. apply Hf, Ha. }
  assert (Hwf1 : Obj.wf (s ++ ext) (map f b)).
  { split; [|rewrite Hview; apply Hwf].
    apply Forall_forall. intros a' Ha'. apply in_map_iff in Ha'.
    destruct Ha' as (a & <- & Ha). apply Hf, Ha. }
  exists f, ext, r0, a0.
  split; [|split; [exact Ha0|]; split; [exact Hf|]; split; [exact Hinj|];
          split; [exact Hr0|]; split; [exact H0 | exact Hbelow]].
  unfold Obj.make_move. rewrite Hcp.
  rewrite (obj_drop_loop_lowest _ _ col player r0)
    by (rewrite ?Hview; auto; apply Hwf).
  rewrite (obj_set_cell_in _ _ r0 col player (f a0) Hwf1 Hr0 Hc)
    by (rewrite nth_error_map, Ha0; reflexivity).
  simpl. destruct (Hf a0 Hin0) as [_ ->]. reflexivity.
Qed.

(** The grid that the result shows: the rows that are the row object [a0]
    show the token, the others are as they were. *)
Lemma obj_make_move_shows (s ext : Obj.store) (b : Obj.board)
  (f : nat -> nat) (a0 : nat) (x : list Z) :
  In a0 b ->
  (forall a, In a b ->
     (length s <= f a < length (s ++ ext))%nat /\
     Obj.row (s ++ ext) (f a) = Obj.row s a) ->
  (forall a a', In a b -> In a' b -> f a = f a' -> a = a') ->
  Obj.view (list_update (s ++ ext) (f a0) x) (map f b) =
  map (fun a => if Nat.eqb a a0 then x else Obj.row s a) b.
Proof.
  intros Hin0 Hf Hinj. unfold Obj.view. rewrite map_map.
  apply map_ext_in. intros a Ha.
  rewrite row_update by (apply Hf, Hin0).
  destruct (Nat.eqb a a0) eqn:E.
  - apply Nat.eqb_eq in E. subst a. now rewrite Nat.eqb_refl.
  - destruct (Nat.eqb (f a) (f a0)) eqn:E'; [|apply Hf, Ha].
    apply Nat.eqb_eq in E'. apply Nat.eqb_neq in E.
    destruct E. apply Hinj; assumption.
Qed.

Lemma map_update_nodup {A : Type} (g : nat -> A) (l : list nat) (n a : nat)
  (x : A) :
  NoDup l -> nth_error l n = Some a ->
  map (fun k => if Nat.eqb k a then x else g k) l =
  list_update (map g l) n x.
Proof.
  intros Hnd. revert n. induction Hnd as [|h t Hh Ht IH]; intros [|n] Hn;
    simpl in *; try discriminate.
  - injection Hn as ->. rewrite Nat.eqb_refl. f_equal.
    apply map_ext_in. intros k Hk.
    destruct (Nat.eqb k a) eqn:E; [|reflexivity].
    apply Nat.eqb_eq in E. subst k. contradiction.
  - destruct (Nat.eqb h a) eqn:E.
    + apply Nat.eqb_eq in E. subst h. destruct Hh.
      eapply nth_error_In; eauto.
    + f_equal. apply IH. exact Hn.
Qed.

Lemma map_inj_nodup {A B : Type} (f : A -> B) (l : list A) :
  (forall x y, In x l -> In y l -> f x = f y -> x = y) ->
  NoDup l -> NoDup (map f l).
Proof.
  intros Hinj Hnd. induction Hnd as [|h t Hh Ht IH]; simpl; constructor.
  - intros Hin. apply in_map_iff in Hin. destruct Hin as (y & E & Hy).
    assert (y = h) by (apply Hinj; [now right | now left | exact E]).
    subst y. contradiction.
  - apply IH. intros x y Hx Hy. apply Hinj; now right.
Qed.

Lemma obj_result_wf (s ext : Obj.store) (b : Obj.board)
  (f : nat -> nat) (a0 : nat) (x : list Z) :
  Obj.wf s b -> In a0 b ->
  (forall a, In a b ->
     (length s <= f a < length (s ++ ext))%nat /\
     Obj.row (s ++ ext) (f a) = Obj.row s a) ->
  (forall a a', In a b -> In a' b -> f a = f a' -> a = a') ->
  Z.of_nat (length x) = COLUMNS ->
  Obj.wf (list_update (s ++ ext) (f a0) x) (map f b).
Proof.
  intros [_ [Hb Hrows]] Hin0 Hf Hinj Hx. split.
  - rewrite list_update_length. apply Forall_forall. intros a' Ha'.
    apply in_map_iff in Ha'. destruct Ha' as (a & <- & Ha).
    apply Hf, Ha.
  - rewrite (obj_make_move_shows s ext b f a0 x Hin0 Hf Hinj).
    unfold Obj.view in Hb, Hrows. rewrite length_map in Hb.
    split; [rewrite length_map; exact Hb|].
    apply Forall_forall. intros rw Hrw. apply in_map_iff in Hrw.
    destruct Hrw as (a & <- & Ha).
    destruct (Nat.eqb a a0); [exact Hx|].
    rewrite Forall_forall in Hrows. apply Hrows.
    apply in_map. exact Ha.
Qed.

(** On a board whose rows are distinct objects [Obj.make_move] shows what
    the value-level [make_move] computes, and the rows of the result are
    distinct objects again. *)
Lemma make_move_view (s : Obj.store) (b : Obj.board) (col player : Z) :
  Obj.wf s b -> NoDup b -> 0 <= col < COLUMNS ->
  (exists r, 0 <= r < ROWS /\ cell (Obj.view s b) r col = Ok 0) ->
  exists s' b',
    Obj.make_move s b col player = Ok (s', b') /\
    make_move (Obj.view s b) col player = Ok (Obj.view s' b') /\
    Obj.wf s' b' /\ NoDup b'.
Proof.
  intros Hwf Hnd Hc Hex.
  destruct (obj_make_move_run s b col player Hwf Hc Hex)
    as (f & ext & r0 & a0 & Hmv & Ha0 & Hf & Hinj & Hr0 & H0 & Hbelow).
  assert (Hin0 : In a0 b) by (eapply nth_error_In; eauto).
  destruct (obj_wf_row s b r0 Hwf Hr0) as (a & Ha & _ & _ & Hlen).
  assert (a = a0) by congruence. subst a.
  do 2 eexists. split; [exact Hmv|].
  split; [|split].
  - rewrite (obj_make_move_shows s ext b f a0 _ Hin0 Hf Hinj).
    rewrite (make_move_lowest _ col player r0) by (auto; apply Hwf).
    rewrite (map_update_nodup _ b (Z.to_nat r0) a0 _ Hnd Ha0).
    unfold set_cell.
    destruct (wf_row _ r0 (proj2 Hwf) Hr0) as (rw & Hn & Hg & Hl).
    rewrite Hg. simpl.
    assert (rw = Obj.row s a0).
    { unfold Obj.view in Hn. rewrite nth_error_map, Ha0 in Hn.
      simpl in Hn. congruence. }
    subst rw. rewrite py_setitem_in by lia. simpl.
    destruct Hwf as [_ [Hb _]].
    rewrite py_setitem_in by lia. reflexivity.
  - apply obj_result_wf; auto.
    rewrite list_update_length. exact Hlen.
  - apply map_inj_nodup; assumption.
Qed.

(** [create_initial_board] allocates six row objects, distinct ones, which
    show [initial_board]. *)
Example initial_board_distinct :
  Obj.create_initial_board [] = Ok (initial_store, initial_rows) /\
  NoDup initial_rows /\
  Obj.view initial_store initial_rows = initial_board.
Proof.
  split; [reflexivity|]. split; [|reflexivity].
  unfold initial_rows.
  repeat (apply NoDup_cons; [simpl; lia|]). apply NoDup_nil.
Qed.

Lemma same_row_copy (b : Obj.board) (f : nat -> nat) (r r' : Z) :
  (forall a a', In a b -> In a' b -> f a = f a' -> a = a') ->
  Obj.same_row (map f b) r r' <-> Obj.same_row b r r'.
Proof.
  intros Hinj. unfold Obj.same_row. rewrite !nth_error_map.
  destruct (nth_error b (Z.to_nat r)) as [a|] eqn:E;
    destruct (nth_error b (Z.to_nat r')) as [a'|] eqn:E'; simpl;
    split; intros H; try discriminate; try reflexivity.
  - injection H as H. f_equal. apply Hinj; auto; eapply nth_error_In; eauto.
  - injection H as ->. reflexivity.
Qed.

Lemma same_row_distinct (b : Obj.board) (r r' : Z) :
  NoDup b -> 0 <= r < Z.of_nat (length b) -> 0 <= r' ->
  Obj.same_row b r r' -> r = r'.
Proof.
  intros Hnd Hr Hr' H. unfold Obj.same_row in H.
  apply (proj1 (NoDup_nth_error b) Hnd) in H; [|lia].
  apply Z2Nat.inj in H; lia.
Qed.

(** C7. [make_move] on a board object whose target column shows an empty
    cell.  The input is left as it was: the result is made of new row
    objects, with the sharing of the input, and no existing row object
    changes.  The result shows the token in the lowest empty cell of the
    column and in the same column of every row that is one object with that
    row; it shows every other cell as the input does, so no other column
    changes.  On a board whose rows are distinct objects that is the single
    cell, the result is what the value-level [make_move] computes and its
    rows are distinct objects again. *)
Theorem make_move_frame (s : Obj.store) (board : Obj.board)
  (col player : Z) :
  Obj.wf s board -> 0 <= col < COLUMNS ->
  (exists r, 0 <= r < ROWS /\ Obj.cell s board r col = Ok 0) ->
  exists s' new_board r0,
    Obj.make_move s board col player = Ok (s', new_board) /\
    Obj.wf s' new_board /\
    (forall a, (a < length s)%nat -> Obj.row s' a = Obj.row s a) /\
    Obj.view s' board = Obj.view s board /\
    Forall (fun a => (length s <= a)%nat) new_board /\
    (forall r r', Obj.same_row new_board r r' <-> Obj.same_row board r r') /\
    0 <= r0 < ROWS /\
    Obj.cell s board r0 col = Ok 0 /\
    (forall r, r0 < r < ROWS -> Obj.cell s board r col <> Ok 0) /\
    (forall r, 0 <= r < ROWS -> Obj.same_row board r r0 ->
       Obj.cell s' new_board r col = Ok player) /\
    (forall r c, 0 <= r < ROWS -> 0 <= c < COLUMNS ->
       c <> col \/ ~ Obj.same_row board r r0 ->
       Obj.cell s' new_board r c = Obj.cell s board r c) /\
    (NoDup board ->
       NoDup new_board /\
       make_move (Obj.view s board) col player
         = Ok (Obj.view s' new_board) /\
       forall r c, 0 <= r < ROWS -> 0 <= c < COLUMNS ->
         (r, c) <> (r0, col) ->
         Obj.cell s' new_board r c = Obj.cell s board r c).
Proof.
  intros Hwf Hc Hex.
  assert (Hex' : exists r, 0 <= r < ROWS /\
                           cell (Obj.view s board) r col = Ok 0).
  { destruct Hex as (r & Hr & H). exists r. now rewrite <- obj_cell_view. }
  destruct (obj_make_move_run s board col player Hwf Hc Hex')
    as (f & ext & r0 & a0 & Hmv & Ha0 & Hf & Hinj & Hr0 & H0 & Hbelow).
  assert (Hin0 : In a0 board) by (eapply nth_error_In; eauto).
  destruct (obj_wf_row s board r0 Hwf Hr0) as (a & Ha & _ & _ & Hlen).
  assert (a = a0) by congruence. subst a. clear Ha.
  set (x := list_update (Obj.row s a0) (Z.to_nat col) player) in *.
  assert (Hx : Z.of_nat (length x) = COLUMNS)
    by (unfold x; rewrite list_update_length; exact Hlen).
  set (s' := list_update (s ++ ext) (f a0) x) in *.
  assert (Hold : forall a, (a < length s)%nat -> Obj.row s' a = Obj.row s a).
  { intros a Hlt. unfold s'. rewrite row_update by (apply Hf, Hin0).
    destruct (Nat.eqb a (f a0)) eqn:E; [|apply row_app_old, Hlt].
    apply Nat.eqb_eq in E. destruct (Hf a0 Hin0) as [Hge _]. lia. }
  assert (Hshow : Obj.view s' (map f board) =
                  map (fun a => if Nat.eqb a a0 then x else Obj.row s a)
                      board)
    by (apply obj_make_move_shows; assumption).
  assert (Hcells : forall r c, 0 <= r < ROWS -> 0 <= c < COLUMNS ->
            exists a, nth_error board (Z.to_nat r) = Some a /\
              Obj.cell s board r c = py_getitem (Obj.row s a) c /\
              Obj.cell s' (map f board) r c =
                if Nat.eqb a a0
                then (if c =? col then Ok player
                      else py_getitem (Obj.row s a0) c)
                else py_getitem (Obj.row s a) c).
  { intros r c Hr Hcc.
    destruct (obj_wf_row s board r Hwf Hr) as (a & Ha & _ & _ & _).
    exists a. split; [exact Ha|]. rewrite !obj_cell_view, Hshow.
    unfold Obj.view at 1.
    rewrite !(cell_map_row _ board r c a) by (try exact Ha; lia).
    split; [reflexivity|].
    destruct (Nat.eqb a a0); [|reflexivity].
    unfold x. apply py_getitem_update; lia. }
  exists s', (map f board), r0.
  split; [exact Hmv|].
  split; [apply obj_result_wf; assumption|].
  split; [exact Hold|].
  split.
  { unfold Obj.view. apply map_ext_in. intros a Ha. apply Hold.
    destruct Hwf as [Hin _]. rewrite Forall_forall in Hin. apply Hin, Ha. }
  split.
  { apply Forall_forall. intros a' Ha'. apply in_map_iff in Ha'.
    destruct Ha' as (a & <- & Ha). apply Hf, Ha. }
  split; [intros r r'; apply same_row_copy, Hinj|].
  split; [exact Hr0|].
  split; [rewrite obj_cell_view; exact H0|].
  split; [intros r Hr; rewrite obj_cell_view; apply Hbelow, Hr|].
  split.
  { intros r Hr Hsame.
    destruct (Hcells r col Hr Hc) as (a & Ha & _ & ->).
    unfold Obj.same_row in Hsame. rewrite Ha, Ha0 in Hsame.
    injection Hsame as ->. now rewrite Nat.eqb_refl, Z.eqb_refl. }
  assert (Hother : forall r c, 0 <= r < ROWS -> 0 <= c < COLUMNS ->
            c <> col \/ ~ Obj.same_row board r r0 ->
            Obj.cell s' (map f board) r c = Obj.cell s board r c).
  { intros r c Hr Hcc Hne.
    destruct (Hcells r c Hr Hcc) as (a & Ha & -> & ->).
    destruct (Nat.eqb a a0) eqn:E; [|reflexivity].
    apply Nat.eqb_eq in E. subst a.
    destruct Hne as [Hne | Hne].
    - apply Z.eqb_neq in Hne. now rewrite Hne.
    - destruct Hne. unfold Obj.same_row. congruence. }
  split; [exact Hother|].
  intros Hnd.
  split; [apply map_inj_nodup; assumption|].
  split.
  { destruct (make_move_view s board col player Hwf Hnd Hc Hex')
      as (s2 & b2 & Hmv2 & Hval & _).
    rewrite Hmv in Hmv2. injection Hmv2 as <- <-. exact Hval. }
  intros r c Hr Hcc Hne. apply Hother; auto.
  destruct (Z.eq_dec c col) as [-> | Hcne]; [right | left; exact Hcne].
  intros Hsame. apply Hne. f_equal.
  apply (same_row_distinct board r r0 Hnd); [|lia|exact Hsame].
  destruct Hwf as [_ [Hb _]]. unfold Obj.view in Hb.
  rewrite length_map in Hb. lia.
Qed.

Lemma make_move_frame_witness :
  exists s' new_board r0,
    Obj.make_move initial_store initial_rows 2 1 = Ok (s', new_board) /\
    Obj.wf s' new_board /\
    (forall a, (a < length initial_store)%nat ->
       Obj.row s' a = Obj.row initial_store a) /\
    Obj.view s' initial_rows = Obj.view initial_store initial_rows /\
    Forall (fun a => (length initial_store <= a)%nat) new_board /\
    (forall r r', Obj.same_row new_board r r' <->
                  Obj.same_row initial_rows r r') /\
    0 <= r0 < ROWS /\
    Obj.cell initial_store initial_rows r0 2 = Ok 0 /\
    (forall r, r0 < r < ROWS ->
       Obj.cell initial_store initial_rows r 2 <> Ok 0) /\
    (forall r, 0 <= r < ROWS -> Obj.same_row initial_rows r r0 ->
       Obj.cell s' new_board r 2 = Ok 1) /\
    (forall r c, 0 <= r < ROWS -> 0 <= c < COLUMNS ->
       c <> 2 \/ ~ Obj.same_row initial_rows r r0 ->
       Obj.cell s' new_board r c = Obj.cell initial_store initial_rows r c) /\
    (NoDup initial_rows ->
       NoDup new_board /\
       make_move (Obj.view initial_store initial_rows) 2 1
         = Ok (Obj.view s' new_board) /\
       forall r c, 0 <= r < ROWS -> 0 <= c < COLUMNS ->
         (r, c) <> (r0, 2) ->
         Obj.cell s' new_board r c =
         Obj.cell initial_store initial_rows r c).
Proof.
  apply (make_move_frame initial_store initial_rows 2 1).
  - split; [|split; [reflexivity | repeat constructor]].
    unfold initial_rows, initial_store, initial_board.
    repeat (apply Forall_cons; [simpl; lia|]). apply Forall_nil.
  - unfold COLUMNS; lia.
  - exists 2. split; [unfold ROWS; lia | reflexivity].
Defined.

(** C7 as stated fails on [[[0] * 7] * 6], whose six rows are one object:
    the column has an empty cell, the lowest one in row 5, and the board
    that [make_move] returns shows the token in all six rows of the column,
    so it differs from the input in cell (0, 0) too. *)
Lemma make_move_frame_counterexample :
  Obj.wf shared_store shared_board /\
  Obj.cell shared_store shared_board 5 0 = Ok 0 /\
  exists s' new_board,
    Obj.make_move shared_store shared_board 0 1 = Ok (s', new_board) /\
    Obj.view s' new_board =
      [[1; 0; 0; 0; 0; 0; 0]; [1; 0; 0; 0; 0; 0; 0]; [1; 0; 0; 0; 0; 0; 0];
       [1; 0; 0; 0; 0; 0; 0]; [1; 0; 0; 0; 0; 0; 0]; [1; 0; 0; 0; 0; 0; 0]] /\
    Obj.view s' shared_board = Obj.view shared_store shared_board /\
    ~ (forall r c, 0 <= r < ROWS -> 0 <= c < COLUMNS -> (r, c) <> (5, 0) ->
         Obj.cell s' new_board r c = Obj.cell shared_store shared_board r c).
Proof.
  split.
  { split; [|split; [reflexivity | repeat constructor]].
    unfold shared_board, shared_store.
    repeat (apply Forall_cons; [simpl; lia|]). apply Forall_nil. }
  split; [reflexivity|].
  do 2 eexists. split; [vm_compute; reflexivity|].
  split; [reflexivity|]. split; [reflexivity|].
  intros H. specialize (H 0 0).
  assert (E : Obj.cell [[0; 0; 0; 0; 0; 0; 0]; [1; 0; 0; 0; 0; 0; 0]]
                [1; 1; 1; 1; 1; 1]%nat 0 0 =
              Obj.cell shared_store shared_board 0 0).
  { apply H; [unfold ROWS; lia | unfold COLUMNS; lia | congruence]. }
  vm_compute in E. discriminate.
Qed.

(** X4. On a board whose rows are distinct objects, a move that
    [get_valid_moves] lists, played by a player other than 0, uses up
    exactly one playable cell; in the new board, whose rows are distinct
    objects again, every other allowed column is listed exactly when it was,
    and the played column stays listed exactly when it had an empty cell
    below its top cell. *)
Theorem legal_move_effect (s : Obj.store) (board : Obj.board)
  (m player depth : Z) (moves : list Z) :
  Obj.wf s board -> NoDup board -> player <> 0 ->
  Obj.get_valid_moves s board depth = Ok moves -> In m moves ->
  exists s' child moves',
    Obj.make_move s board m player = Ok (s', child) /\
    Obj.wf s' child /\ NoDup child /\
    Obj.view s' board = Obj.view s board /\
    (playable (Obj.view s' child) + 1 = playable (Obj.view s board))%nat /\
    Obj.get_valid_moves s' child (depth + 1) = Ok moves' /\
    (forall c, In c moves' <->
       In c moves /\
       (c = m -> exists r, 1 <= r < ROWS /\ Obj.cell s board r m = Ok 0)).
Proof.
  intros Hwf Hnd Hp Hmoves Hin.
  rewrite obj_get_valid_moves_view in Hmoves.
  destruct (legal_move_grid (Obj.view s board) m player depth moves
              (proj2 Hwf) Hp Hmoves Hin)
    as (child & moves' & Hmv & Hpl & Hmoves' & Hiff).
  pose proof (valid_moves_in _ depth moves (proj2 Hwf) Hmoves) as Hlegal.
  rewrite Forall_forall in Hlegal. destruct (Hlegal m Hin) as [Hm Htop].
  assert (Hc : 0 <= m < COLUMNS) by (unfold COLUMNS; lia).
  assert (Hex : exists r, 0 <= r < ROWS /\
                          cell (Obj.view s board) r m = Ok 0)
    by (exists 0; split; [unfold ROWS; lia | exact Htop]).
  destruct (make_move_view s board m player Hwf Hnd Hc Hex)
    as (s' & b' & Hmv' & Hval & Hwf' & Hnd').
  rewrite Hmv in Hval. injection Hval as ->.
  exists s', b', moves'.
  split; [exact Hmv'|]. split; [exact Hwf'|]. split; [exact Hnd'|].
  split.
  { destruct (obj_make_move_run s board m player Hwf Hc Hex)
      as (f & ext & r0 & a0 & Hrun & Ha0 & Hf & _).
    rewrite Hmv' in Hrun. injection Hrun as -> _.
    unfold Obj.view. apply map_ext_in. intros a Ha.
    assert (Hin0 : In a0 board) by (eapply nth_error_In; eauto).
    rewrite row_update by (apply Hf, Hin0).
    assert (Hlt : (a < length s)%nat).
    { destruct Hwf as [Hall _]. rewrite Forall_forall in Hall.
      apply Hall, Ha. }
    destruct (Nat.eqb a (f a0)) eqn:E; [|apply row_app_old, Hlt].
    apply Nat.eqb_eq in E. destruct (Hf a0 Hin0) as [Hge _]. lia. }
  split; [exact Hpl|].
  split; [rewrite obj_get_valid_moves_view; exact Hmoves'|].
  intros c. rewrite Hiff. split; intros [H1 H2]; (split; [exact H1|]);
    intros E; destruct (H2 E) as (r & Hr & Hcell); exists r;
    (split; [exact Hr|]); [rewrite obj_cell_view | rewrite <- obj_cell_view];
    exact Hcell.
Qed.

Lemma legal_move_effect_witness :
  Obj.wf initial_store initial_rows /\ NoDup initial_rows /\ 1 <> 0 /\
  Obj.get_valid_moves initial_store initial_rows 0 = Ok [0; 1; 2] /\
  In 2 [0; 1; 2] /\
  exists s' child moves',
    Obj.make_move initial_store initial_rows 2 1 = Ok (s', child) /\
    Obj.wf s' child /\ NoDup child /\
    Obj.view s' initial_rows = Obj.view initial_store initial_rows /\
    (playable (Obj.view s' child) + 1 =
     playable (Obj.view initial_store initial_rows))%nat /\
    Obj.get_valid_moves s' child (0 + 1) = Ok moves' /\
    (forall c, In c moves' <->
       In c [0; 1; 2] /\
       (c = 2 -> exists r, 1 <= r < ROWS /\
                           Obj.cell initial_store initial_rows r 2 = Ok 0)).
Proof.
  assert (Hwf : Obj.wf initial_store initial_rows).
  { split; [|split; [reflexivity | repeat constructor]].
    unfold initial_rows, initial_store, initial_board.
    repeat (apply Forall_cons; [simpl; lia|]). apply Forall_nil. }
  assert (Hnd : NoDup initial_rows).
  { unfold initial_rows.
    repeat (apply NoDup_cons; [simpl; lia|]). apply NoDup_nil. }
  split; [exact Hwf|]. split; [exact Hnd|].
  split; [lia|]. split; [reflexivity|]. split; [simpl; tauto|].
  apply (legal_move_effect initial_store initial_rows 2 1 0 [0; 1; 2]
           Hwf Hnd).
  - lia.
  - reflexivity.
  - simpl; tauto.
Defined.

(** ** Order on search values *)

Lemma vbound_mono (M M' : Z) (v : val) : M <= M' -> vbound M v -> vbound M' v.
Proof. destruct v; simpl; lia. Qed.

Lemma exists_bound_pos (l : list val) :
  exists M, 0 < M /\ Forall (vbound M) l.
Proof.
  induction l as [|v l (M & HM0 & HM)].
  - exists 1; split; [lia | constructor].
  - exists (M + 1 + match v with Fin z => Z.abs z | _ => 0 end).
    split; [destruct v; lia|]. constructor.
    + destruct v; simpl; lia.
    + eapply Forall_impl; [|exact HM].
      intros u Hu. eapply vbound_mono; [|exact Hu]. destruct v; lia.
Qed.

Lemma exists_bound (l : list val) : exists M, Forall (vbound M) l.
Proof. destruct (exists_bound_pos l) as (M & _ & HM). eauto. Qed.

Lemma vrank_ltb (M : Z) (a b : val) :
  vbound M a -> vbound M b -> val_ltb a b = (vrank M a <? vrank M b).
Proof.
  destruct a, b; simpl; intros Ha Hb; try reflexivity; symmetry;
    try (apply Z.ltb_lt; lia); apply Z.ltb_ge; lia.
Qed.

Lemma vrank_leb (M : Z) (a b : val) :
  vbound M a -> vbound M b -> val_leb a b = (vrank M a <=? vrank M b).
Proof.
  destruct a, b; simpl; intros Ha Hb; try reflexivity; symmetry;
    try (apply Z.leb_le; lia); apply Z.leb_gt; lia.
Qed.

Lemma vrank_inj (M : Z) (a b : val) :
  vbound M a -> vbound M b -> (a = b <-> vrank M a = vrank M b).
Proof.
  intros Ha Hb. split; [intros ->; reflexivity|].
  destruct a, b; simpl in *; intros H; try reflexivity; try lia.
  f_equal; exact H.
Qed.

Ltac vsplit :=
  repeat match goal with
    | H : context [if val_ltb ?a ?b then _ else _] |- _ =>
        let E := fresh "E" in destruct (val_ltb a b) eqn:E
    | |- context [if val_ltb ?a ?b then _ else _] =>
        let E := fresh "E" in destruct (val_ltb a b) eqn:E
    end.

Lemma vrank_range (M : Z) (v : val) :
  vbound M v -> - M <= vrank M v <= M /\ 0 < M.
Proof. destruct v; simpl; lia. Qed.

Ltac vbounds M :=
  repeat match goal with
    | H : Forall (vbound M) (_ :: _) |- _ =>
        let H1 := fresh "Hb" in
        let H2 := fresh "Hbs" in
        pose proof (Forall_inv H) as H1;
        pose proof (Forall_inv_tail H) as H2;
        clear H;
        pose proof (vrank_range M _ H1)
    | H : Forall (vbound M) [] |- _ => clear H
    end.

Ltac vrewrite M :=
  repeat match goal with
    | H : context [val_ltb ?x ?y] |- _ =>
        rewrite (vrank_ltb M x y) in H by assumption
    | |- context [val_ltb ?x ?y] =>
        rewrite (vrank_ltb M x y) by assumption
    | H : context [val_leb ?x ?y] |- _ =>
        rewrite (vrank_leb M x y) in H by assumption
    | |- context [val_leb ?x ?y] =>
        rewrite (vrank_leb M x y) by assumption
    | H : context [@eq val ?x ?y] |- _ =>
        rewrite (vrank_inj M x y) in H by assumption
    | |- context [@eq val ?x ?y] =>
        rewrite (vrank_inj M x y) by assumption
    end.

Ltac vclear M :=
  repeat match goal with
    | H : vbound M _ |- _ => clear H
    end.

(** Decide a statement about the order of the values in [l]. *)
Ltac vorder l :=
  intros; unfold val_lt, val_le, val_gtb, val_geb in *;
  let M := fresh "M" in
  let HM := fresh "HM" in
  destruct (exists_bound l) as (M & HM);
  vbounds M;
  vsplit;
  vrewrite M;
  vclear M; simpl vrank in *; lia.

Lemma val_geb_false (a b : val) : val_geb a b = false -> val_lt a b.
Proof. vorder [a; b]. Qed.

Lemma val_le_refl (a : val) : val_le a a.
Proof. vorder [a]. Qed.

Lemma val_le_trans (a b c : val) : val_le a b -> val_le b c -> val_le a c.
Proof. vorder [a; b; c]. Qed.

(** ** Unfolding the searches *)

Section SearchProofs.

Variable max_depth : Z.

Lemma minimax_unfold (fuel : nat) (b : Board) (d : Z) (p : list Z) :
  minimax max_depth (S fuel) b d p =
  score_win <- evaluate b ;;
  if (d =? max_depth) || negb (score_win =? 0) then Ok (Fin score_win)
  else if d mod 2 =? 0 then
    moves <- get_valid_moves b d ;;
    minimax_max_loop (minimax max_depth fuel) b d p moves NegInf
  else
    moves <- get_valid_moves b d ;;
    minimax_min_loop (minimax max_depth fuel) b d p moves PosInf.
Proof. reflexivity. Qed.

Lemma alphabeta_unfold (fuel : nat) (b : Board) (d : Z) (p : list Z)
  (alpha beta : val) :
  alphabeta max_depth (S fuel) b d p alpha beta =
  score_win <- evaluate b ;;
  if (d =? max_depth) || negb (score_win =? 0) then Ok (Fin score_win)
  else if d mod 2 =? 0 then
    moves <- get_valid_moves b d ;;
    alphabeta_max_loop (alphabeta max_depth fuel) b d p moves
      NegInf alpha beta
  else
    moves <- get_valid_moves b d ;;
    alphabeta_min_loop (alphabeta max_depth fuel) b d p moves
      PosInf alpha beta.
Proof. reflexivity. Qed.

(** ** Minimax returns on every well-formed board *)

Lemma minimax_max_loop_ok (rec : Board -> Z -> list Z -> result val)
  (b : Board) (d : Z) (p : list Z) (n : nat) :
  wf_board b -> (playable b <= n)%nat ->
  (forall child d' p', wf_board child -> (playable child < n)%nat ->
     exists v, rec child d' p' = Ok v) ->
  forall moves best, Forall (legal b) moves ->
    exists v, minimax_max_loop rec b d p moves best = Ok v.
Proof.
  intros Hwf Hn Hrec moves. induction moves as [|m rest IH];
    intros best Hlegal; simpl.
  - eauto.
  - inversion Hlegal as [|? ? [Hm Htop] Hrest]; subst.
    destruct (make_move_playable b m 1 Hwf Hm Htop) as (c & Hc & Hwc & Hpc);
      [lia|].
    rewrite Hc. simpl.
    destruct (Hrec c (d + 1) (p ++ [m]) Hwc) as (v & Hv); [lia|].
    rewrite Hv. simpl. apply IH. exact Hrest.
Qed.

Lemma minimax_min_loop_ok (rec : Board -> Z -> list Z -> result val)
  (b : Board) (d : Z) (p : list Z) (n : nat) :
  wf_board b -> (playable b <= n)%nat ->
  (forall child d' p', wf_board child -> (playable child < n)%nat ->
     exists v, rec child d' p' = Ok v) ->
  forall moves best, Forall (legal b) moves ->
    exists v, minimax_min_loop rec b d p moves best = Ok v.
Proof.
  intros Hwf Hn Hrec moves. induction moves as [|m rest IH];
    intros best Hlegal; simpl.
  - eauto.
  - inversion Hlegal as [|? ? [Hm Htop] Hrest]; subst.
    destruct (make_move_playable b m (-1) Hwf Hm Htop)
      as (c & Hc & Hwc & Hpc); [lia|].
    rewrite Hc. simpl.
    destruct (Hrec c (d + 1) (p ++ [m]) Hwc) as (v & Hv); [lia|].
    rewrite Hv. simpl. apply IH. exact Hrest.
Qed.

Lemma minimax_total (fuel : nat) :
  forall (b : Board) (d : Z) (p : list Z),
    wf_board b -> (playable b < fuel)%nat ->
    exists v, minimax max_depth fuel b d p = Ok v.
Proof.
  induction fuel as [|f IH]; intros b d p Hwf Hfuel; [lia|].
  rewrite minimax_unfold.
  destruct (evaluate_ok b Hwf) as (s & ->). cbn [bind].
  destruct ((d =? max_depth) || negb (s =? 0)); [eauto|].
  rewrite (get_valid_moves_filter b d Hwf). cbn [bind].
  pose proof (valid_moves_in b d _ Hwf (get_valid_moves_filter b d Hwf))
    as Hlegal.
  destruct (d mod 2 =? 0).
  - apply (minimax_max_loop_ok _ b d p f); auto. lia.
  - apply (minimax_min_loop_ok _ b d p f); auto. lia.
Qed.

(** ** Alpha-Beta against Minimax *)

Lemma max_inv_init (a0 beta : val) :
  val_lt a0 beta -> max_inv a0 beta NegInf a0 NegInf.
Proof. unfold max_inv, vmax. vorder [a0; beta; NegInf]. Qed.

Lemma min_inv_init (alpha b0 : val) :
  val_lt alpha b0 -> min_inv alpha b0 PosInf b0 PosInf.
Proof. unfold min_inv, vmin. vorder [alpha; b0; PosInf]. Qed.

Lemma max_inv_final (a0 beta value alpha best : val) :
  max_inv a0 beta value alpha best -> ab_bounds a0 beta best value.
Proof.
  unfold max_inv, ab_bounds, vmax. vorder [a0; beta; value; alpha; best].
Qed.

Lemma max_inv_step (a0 beta value alpha best v w : val) :
  max_inv a0 beta value alpha best -> ab_bounds alpha beta v w ->
  let value' := if val_gtb w value then w else value in
  let alpha' := if val_gtb value' alpha then value' else alpha in
  let best' := if val_gtb v best then v else best in
  (val_geb alpha' beta = false -> max_inv a0 beta value' alpha' best') /\
  (val_geb alpha' beta = true ->
     forall u, val_le best' u -> ab_bounds a0 beta u value').
Proof.
  unfold max_inv, ab_bounds, vmax. cbv zeta.
  intros H1 H2. split; [intros Hc | intros Hc u Hu].
  - revert H1 H2 Hc. vorder [a0; beta; value; alpha; best; v; w].
  - revert H1 H2 Hc Hu. vorder [a0; beta; value; alpha; best; v; w; u].
Qed.

Lemma min_inv_final (alpha b0 value beta best : val) :
  min_inv alpha b0 value beta best -> ab_bounds alpha b0 best value.
Proof.
  unfold min_inv, ab_bounds, vmin. vorder [alpha; b0; value; beta; best].
Qed.

Lemma min_inv_step (alpha b0 value beta best v w : val) :
  min_inv alpha b0 value beta best -> ab_bounds alpha beta v w ->
  let value' := if val_ltb w value then w else value in
  let beta' := if val_ltb value' beta then value' else beta in
  let best' := if val_ltb v best then v else best in
  (val_geb alpha beta' = false -> min_inv alpha b0 value' beta' best') /\
  (val_geb alpha beta' = true ->
     forall u, val_le u best' -> ab_bounds alpha b0 u value').
Proof.
  unfold min_inv, ab_bounds, vmin. cbv zeta.
  intros H1 H2. split; [intros Hc | intros Hc u Hu].
  - revert H1 H2 Hc. vorder [alpha; b0; value; beta; best; v; w].
  - revert H1 H2 Hc Hu. vorder [alpha; b0; value; beta; best; v; w; u].
Qed.

Lemma ab_bounds_refl (alpha beta v : val) : ab_bounds alpha beta v v.
Proof. unfold ab_bounds. vorder [alpha; beta; v]. Qed.

Lemma ab_bounds_full (v w : val) : ab_bounds NegInf PosInf v w -> w = v.
Proof. unfold ab_bounds. vorder [v; w; NegInf; PosInf]. Qed.

Lemma minimax_max_loop_ge (rec : Board -> Z -> list Z -> result val)
  (b : Board) (d : Z) (p : list Z) :
  forall moves best v,
    minimax_max_loop rec b d p moves best = Ok v -> val_le best v.
Proof.
  induction moves as [|m rest IH]; intros best v H; simpl in H.
  - injection H as <-. apply val_le_refl.
  - inv_bind H. inv_bind H. apply IH in H.
    eapply val_le_trans; [|exact H]. clear. vorder [x0; best].
Qed.

Lemma minimax_min_loop_le (rec : Board -> Z -> list Z -> result val)
  (b : Board) (d : Z) (p : list Z) :
  forall moves best v,
    minimax_min_loop rec b d p moves best = Ok v -> val_le v best.
Proof.
  induction moves as [|m rest IH]; intros best v H; simpl in H.
  - injection H as <-. apply val_le_refl.
  - inv_bind H. inv_bind H. apply IH in H.
    eapply val_le_trans; [exact H|]. clear. vorder [x0; best].
Qed.

Lemma alphabeta_max_loop_sound
  (rec_mm : Board -> Z -> list Z -> result val)
  (rec_ab : Board -> Z -> list Z -> val -> val -> result val)
  (b : Board) (d : Z) (p p' : list Z) (a0 beta : val) :
  (forall child d' q v, rec_mm child d' q = Ok v ->
     forall q' alpha beta', val_lt alpha beta' ->
       exists w, rec_ab child d' q' alpha beta' = Ok w /\
                 ab_bounds alpha beta' v w) ->
  forall moves best value alpha v,
    max_inv a0 beta value alpha best ->
    minimax_max_loop rec_mm b d p moves best = Ok v ->
    exists w, alphabeta_max_loop rec_ab b d p' moves value alpha beta = Ok w /\
              ab_bounds a0 beta v w.
Proof.
  intros Hrec. induction moves as [|m rest IH];
    intros best value alpha v Hinv H; simpl in H.
  - injection H as <-. exists value. split; [reflexivity|].
    eapply max_inv_final; exact Hinv.
  - inv_bind H. inv_bind H. rename x into child, x0 into v'.
    assert (Hab : val_lt alpha beta) by apply Hinv.
    destruct (Hrec child (d + 1) (p ++ [m]) v' Hx0 (p' ++ [m]) alpha beta Hab)
      as (w' & Hw' & Hb).
    cbn [alphabeta_max_loop]. rewrite Hx. cbn [bind]. rewrite Hw'. cbn [bind].
    destruct (max_inv_step a0 beta value alpha best v' w' Hinv Hb)
      as [Hgo Hstop]. cbv zeta in Hgo, Hstop.
    destruct (val_geb _ beta) eqn:Hc.
    + eexists. split; [reflexivity|].
      apply Hstop; [reflexivity|].
      eapply minimax_max_loop_ge; exact H.
    + eapply IH; [|exact H]. apply Hgo. reflexivity.
Qed.

Lemma alphabeta_min_loop_sound
  (rec_mm : Board -> Z -> list Z -> result val)
  (rec_ab : Board -> Z -> list Z -> val -> val -> result val)
  (b : Board) (d : Z) (p p' : list Z) (alpha b0 : val) :
  (forall child d' q v, rec_mm child d' q = Ok v ->
     forall q' alpha' beta, val_lt alpha' beta ->
       exists w, rec_ab child d' q' alpha' beta = Ok w /\
                 ab_bounds alpha' beta v w) ->
  forall moves best value beta v,
    min_inv alpha b0 value beta best ->
    minimax_min_loop rec_mm b d p moves best = Ok v ->
    exists w, alphabeta_min_loop rec_ab b d p' moves value alpha beta = Ok w /\
              ab_bounds alpha b0 v w.
Proof.
  intros Hrec. induction moves as [|m rest IH];
    intros best value beta v Hinv H; simpl in H.
  - injection H as <-. exists value. split; [reflexivity|].
    eapply min_inv_final; exact Hinv.
  - inv_bind H. inv_bind H. rename x into child, x0 into v'.
    assert (Hab : val_lt alpha beta) by apply Hinv.
    destruct (Hrec child (d + 1) (p ++ [m]) v' Hx0 (p' ++ [m]) alpha beta Hab)
      as (w' & Hw' & Hb).
    cbn [alphabeta_min_loop]. rewrite Hx. cbn [bind]. rewrite Hw'. cbn [bind].
    destruct (min_inv_step alpha b0 value beta best v' w' Hinv Hb)
      as [Hgo Hstop]. cbv zeta in Hgo, Hstop.
    destruct (val_geb alpha _) eqn:Hc.
    + eexists. split; [reflexivity|].
      apply Hstop; [reflexivity|].
      eapply minimax_min_loop_le; exact H.
    + eapply IH; [|exact H]. apply Hgo. reflexivity.
Qed.

Lemma alphabeta_sound (fuel : nat) :
  forall (b : Board) (d : Z) (p : list Z) (v : val),
    minimax max_depth fuel b d p = Ok v ->
    forall p' alpha beta, val_lt alpha beta ->
      exists w, alphabeta max_depth fuel b d p' alpha beta = Ok w /\
                ab_bounds alpha beta v w.
Proof.
  induction fuel as [|f IH]; intros b d p v H p' alpha beta Hab;
    [discriminate|].
  rewrite minimax_unfold in H. rewrite alphabeta_unfold.
  inv_bind H. rename x into s. rewrite Hx. cbn [bind].
  destruct ((d =? max_depth) || negb (s =? 0)).
  - injection H as <-. eexists; split; [reflexivity | apply ab_bounds_refl].
  - destruct (d mod 2 =? 0); inv_bind H; rewrite Hx0; cbn [bind].
    + eapply alphabeta_max_loop_sound; [exact IH | | exact H].
      apply max_inv_init; exact Hab.
    + eapply alphabeta_min_loop_sound; [exact IH | | exact H].
      apply min_inv_init; exact Hab.
Qed.



Lemma collect_tree_nodes_unfold (fuel : nat) (b : Board) (d : Z)
  (p : list Z) :
  collect_tree_nodes max_depth (S fuel) b d p =
  score_win <- evaluate b ;;
  if (d =? max_depth) || negb (score_win =? 0) then
    Ok ([terminal_record d p score_win], Fin score_win)
  else if d mod 2 =? 0 then
    moves <- get_valid_moves b d ;;
    ' (nodes, children_vals, best_val) <-
      collect_max_loop (collect_tree_nodes max_depth fuel) b d p moves
        [] [] NegInf ;;
    Ok (nodes ++ [internal_record Max d p best_val children_vals moves],
        best_val)
  else
    moves <- get_valid_moves b d ;;
    ' (nodes, children_vals, best_val) <-
      collect_min_loop (collect_tree_nodes max_depth fuel) b d p moves
        [] [] PosInf ;;
    Ok (nodes ++ [internal_record Min d p best_val children_vals moves],
        best_val).
Proof. reflexivity. Qed.

Lemma collect_alphabeta_tree_nodes_unfold (fuel : nat) (b : Board) (d : Z)
  (p : list Z) (alpha beta : val) :
  collect_alphabeta_tree_nodes max_depth (S fuel) b d p alpha beta =
  score_win <- evaluate b ;;
  if (d =? max_depth) || negb (score_win =? 0) then
    Ok ([ab_terminal_record d p score_win alpha beta], Fin score_win)
  else if d mod 2 =? 0 then
    moves <- get_valid_moves b d ;;
    st <- collect_ab_max_loop (collect_alphabeta_tree_nodes max_depth fuel)
            b d p moves (mk_locals [] [] [] NegInf alpha beta false) ;;
    Ok (l_nodes st ++ [ab_internal_record Max d p moves st], l_value st)
  else
    moves <- get_valid_moves b d ;;
    st <- collect_ab_min_loop (collect_alphabeta_tree_nodes max_depth fuel)
            b d p moves (mk_locals [] [] [] PosInf alpha beta false) ;;
    Ok (l_nodes st ++ [ab_internal_record Min d p moves st], l_value st).
Proof. reflexivity. Qed.

Lemma alphabeta_calls_unfold (fuel : nat) (b : Board) (d : Z)
  (p : list Z) (alpha beta : val) :
  alphabeta_calls max_depth (S fuel) b d p alpha beta =
  score_win <- evaluate b ;;
  if (d =? max_depth) || negb (score_win =? 0) then
    Ok (Fin score_win, [mk_call d p alpha beta])
  else if d mod 2 =? 0 then
    moves <- get_valid_moves b d ;;
    calls_max_loop (alphabeta_calls max_depth fuel) b d p moves
      NegInf alpha beta [mk_call d p alpha beta]
  else
    moves <- get_valid_moves b d ;;
    calls_min_loop (alphabeta_calls max_depth fuel) b d p moves
      PosInf alpha beta [mk_call d p alpha beta].
Proof. reflexivity. Qed.

(** ** The collecting searches compute the values of the plain ones *)

Lemma collect_max_loop_value
  (rec_m : Board -> Z -> list Z -> result val)
  (rec_c : Board -> Z -> list Z -> result (list node * val))
  (b : Board) (d : Z) (p : list Z) :
  (forall child d' q, rec_m child d' q = fmap snd (rec_c child d' q)) ->
  forall moves nodes cv best,
    minimax_max_loop rec_m b d p moves best =
    fmap snd (collect_max_loop rec_c b d p moves nodes cv best).
Proof.
  intros Hrec. induction moves as [|m rest IH]; intros nodes cv best; simpl.
  - reflexivity.
  - destruct (make_move b m 1) as [child| |]; simpl; try reflexivity.
    rewrite Hrec.
    destruct (rec_c child (d + 1) (p ++ [m])) as [[cn v]| |]; simpl;
      try reflexivity.
    apply IH.
Qed.

Lemma collect_min_loop_value
  (rec_m : Board -> Z -> list Z -> result val)
  (rec_c : Board -> Z -> list Z -> result (list node * val))
  (b : Board) (d : Z) (p : list Z) :
  (forall child d' q, rec_m child d' q = fmap snd (rec_c child d' q)) ->
  forall moves nodes cv best,
    minimax_min_loop rec_m b d p moves best =
    fmap snd (collect_min_loop rec_c b d p moves nodes cv best).
Proof.
  intros Hrec. induction moves as [|m rest IH]; intros nodes cv best; simpl.
  - reflexivity.
  - destruct (make_move b m (-1)) as [child| |]; simpl; try reflexivity.
    rewrite Hrec.
    destruct (rec_c child (d + 1) (p ++ [m])) as [[cn v]| |]; simpl;
      try reflexivity.
    apply IH.
Qed.

Lemma collect_tree_nodes_value (fuel : nat) :
  forall (b : Board) (d : Z) (p : list Z),
    minimax max_depth fuel b d p =
    fmap snd (collect_tree_nodes max_depth fuel b d p).
Proof.
  induction fuel as [|f IH]; intros b d p; [reflexivity|].
  rewrite minimax_unfold, collect_tree_nodes_unfold.
  destruct (evaluate b) as [s| |]; cbn [bind fmap]; try reflexivity.
  destruct ((d =? max_depth) || negb (s =? 0)); [reflexivity|].
  destruct (d mod 2 =? 0);
    (destruct (get_valid_moves b d) as [moves| |]; cbn [bind];
     try reflexivity).
  - rewrite (collect_max_loop_value _ _ b d p IH moves [] [] NegInf).
    destruct (collect_max_loop _ b d p moves [] [] NegInf)
      as [[[n cv] v]| |]; reflexivity.
  - rewrite (collect_min_loop_value _ _ b d p IH moves [] [] PosInf).
    destruct (collect_min_loop _ b d p moves [] [] PosInf)
      as [[[n cv] v]| |]; reflexivity.
Qed.

Lemma collect_ab_max_loop_value
  (rec_a : Board -> Z -> list Z -> val -> val -> result val)
  (rec_c : Board -> Z -> list Z -> val -> val -> result (list node * val))
  (b : Board) (d : Z) (p : list Z) :
  (forall child d' q alpha beta,
     rec_a child d' q alpha beta = fmap snd (rec_c child d' q alpha beta)) ->
  forall moves st,
    alphabeta_max_loop rec_a b d p moves (l_value st) (l_alpha st) (l_beta st)
    = fmap l_value (collect_ab_max_loop rec_c b d p moves st).
Proof.
  intros Hrec. induction moves as [|m rest IH]; intros st; simpl.
  - reflexivity.
  - destruct (make_move b m 1) as [child| |]; simpl; try reflexivity.
    rewrite Hrec.
    destruct (rec_c child (d + 1) (p ++ [m]) (l_alpha st) (l_beta st))
      as [[cn v]| |]; simpl; try reflexivity.
    destruct (val_geb _ (l_beta st)); [reflexivity|].
    apply (IH (mk_locals _ _ _ _ _ _ _)).
Qed.

Lemma collect_ab_min_loop_value
  (rec_a : Board -> Z -> list Z -> val -> val -> result val)
  (rec_c : Board -> Z -> list Z -> val -> val -> result (list node * val))
  (b : Board) (d : Z) (p : list Z) :
  (forall child d' q alpha beta,
     rec_a child d' q alpha beta = fmap snd (rec_c child d' q alpha beta)) ->
  forall moves st,
    alphabeta_min_loop rec_a b d p moves (l_value st) (l_alpha st) (l_beta st)
    = fmap l_value (collect_ab_min_loop rec_c b d p moves st).
Proof.
  intros Hrec. induction moves as [|m rest IH]; intros st; simpl.
  - reflexivity.
  - destruct (make_move b m (-1)) as [child| |]; simpl; try reflexivity.
    rewrite Hrec.
    destruct (rec_c child (d + 1) (p ++ [m]) (l_alpha st) (l_beta st))
      as [[cn v]| |]; simpl; try reflexivity.
    destruct (val_geb (l_alpha st) _); [reflexivity|].
    apply (IH (mk_locals _ _ _ _ _ _ _)).
Qed.

Lemma collect_alphabeta_tree_nodes_value (fuel : nat) :
  forall (b : Board) (d : Z) (p : list Z) (alpha beta : val),
    alphabeta max_depth fuel b d p alpha beta =
    fmap snd (collect_alphabeta_tree_nodes max_depth fuel b d p alpha beta).
Proof.
  induction fuel as [|f IH]; intros b d p alpha beta; [reflexivity|].
  rewrite alphabeta_unfold, collect_alphabeta_tree_nodes_unfold.
  destruct (evaluate b) as [s| |]; cbn [bind fmap]; try reflexivity.
  destruct ((d =? max_depth) || negb (s =? 0)); [reflexivity|].
  destruct (d mod 2 =? 0);
    (destruct (get_valid_moves b d) as [moves| |]; cbn [bind];
     try reflexivity).
  - pose proof (collect_ab_max_loop_value _ _ b d p IH moves
                  (mk_locals [] [] [] NegInf alpha beta false)) as E.
    cbn [l_value l_alpha l_beta] in E. rewrite E.
    destruct (collect_ab_max_loop _ b d p moves _) as [st| |]; reflexivity.
  - pose proof (collect_ab_min_loop_value _ _ b d p IH moves
                  (mk_locals [] [] [] PosInf alpha beta false)) as E.
    cbn [l_value l_alpha l_beta] in E. rewrite E.
    destruct (collect_ab_min_loop _ b d p moves _) as [st| |]; reflexivity.
Qed.

Lemma calls_max_loop_value
  (rec_a : Board -> Z -> list Z -> val -> val -> result val)
  (rec_c : Board -> Z -> list Z -> val -> val -> result (val * list call))
  (b : Board) (d : Z) (p : list Z) :
  (forall child d' q alpha beta,
     rec_a child d' q alpha beta = fmap fst (rec_c child d' q alpha beta)) ->
  forall moves value alpha beta log,
    alphabeta_max_loop rec_a b d p moves value alpha beta
    = fmap fst (calls_max_loop rec_c b d p moves value alpha beta log).
Proof.
  intros Hrec. induction moves as [|m rest IH]; intros value alpha beta log;
    simpl.
  - reflexivity.
  - destruct (make_move b m 1) as [child| |]; simpl; try reflexivity.
    rewrite Hrec.
    destruct (rec_c child (d + 1) (p ++ [m]) alpha beta)
      as [[v cl]| |]; simpl; try reflexivity.
    destruct (val_geb _ beta); [reflexivity|].
    apply IH.
Qed.

Lemma calls_min_loop_value
  (rec_a : Board -> Z -> list Z -> val -> val -> result val)
  (rec_c : Board -> Z -> list Z -> val -> val -> result (val * list call))
  (b : Board) (d : Z) (p : list Z) :
  (forall child d' q alpha beta,
     rec_a child d' q alpha beta = fmap fst (rec_c child d' q alpha beta)) ->
  forall moves value alpha beta log,
    alphabeta_min_loop rec_a b d p moves value alpha beta
    = fmap fst (calls_min_loop rec_c b d p moves value alpha beta log).
Proof.
  intros Hrec. induction moves as [|m rest IH]; intros value alpha beta log;
    simpl.
  - reflexivity.
  - destruct (make_move b m (-1)) as [child| |]; simpl; try reflexivity.
    rewrite Hrec.
    destruct (rec_c child (d + 1) (p ++ [m]) alpha beta)
      as [[v cl]| |]; simpl; try reflexivity.
    destruct (val_geb alpha _); [reflexivity|].
    apply IH.
Qed.

(** Erasing the call log gives [alphabeta]. *)
Lemma alphabeta_calls_value (fuel : nat) :
  forall (b : Board) (d : Z) (p : list Z) (alpha beta : val),
    alphabeta max_depth fuel b d p alpha beta =
    fmap fst (alphabeta_calls max_depth fuel b d p alpha beta).
Proof.
  induction fuel as [|f IH]; intros b d p alpha beta; [reflexivity|].
  rewrite alphabeta_unfold, alphabeta_calls_unfold.
  destruct (evaluate b) as [s| |]; cbn [bind fmap]; try reflexivity.
  destruct ((d =? max_depth) || negb (s =? 0)); [reflexivity|].
  destruct (d mod 2 =? 0);
    (destruct (get_valid_moves b d) as [moves| |]; cbn [bind];
     try reflexivity).
  - apply (calls_max_loop_value _ _ b d p IH).
  - apply (calls_min_loop_value _ _ b d p IH).
Qed.

Lemma fmap_ok {A B : Type} (f : A -> B) (m : result A) (y : B) :
  fmap f m = Ok y -> exists x, m = Ok x /\ f x = y.
Proof.
  destruct m as [x| |]; simpl; intros H; try discriminate.
  injection H as <-. eauto.
Qed.


(** ** The report lists of the loops only grow *)

Lemma collect_max_loop_shift
  (rec : Board -> Z -> list Z -> result (list node * val))
  (b : Board) (d : Z) (p : list Z) :
  forall moves nodes cv best,
    collect_max_loop rec b d p moves nodes cv best =
    ' (n', cv', best') <- collect_max_loop rec b d p moves [] [] best ;;
    Ok (nodes ++ n', cv ++ cv', best').
Proof.
  induction moves as [|m rest IH]; intros nodes cv best; simpl.
  - rewrite !app_nil_r. reflexivity.
  - destruct (make_move b m 1) as [child| |]; simpl; try reflexivity.
    destruct (rec child (d + 1) (p ++ [m])) as [[cn v]| |]; simpl;
      try reflexivity.
    rewrite (IH (nodes ++ cn)), (IH cn).
    destruct (collect_max_loop rec b d p rest [] [] _)
      as [[[n' cv'] best']| |]; simpl; try reflexivity.
    rewrite <- !app_assoc. reflexivity.
Qed.

Lemma collect_min_loop_shift
  (rec : Board -> Z -> list Z -> result (list node * val))
  (b : Board) (d : Z) (p : list Z) :
  forall moves nodes cv best,
    collect_min_loop rec b d p moves nodes cv best =
    ' (n', cv', best') <- collect_min_loop rec b d p moves [] [] best ;;
    Ok (nodes ++ n', cv ++ cv', best').
Proof.
  induction moves as [|m rest IH]; intros nodes cv best; simpl.
  - rewrite !app_nil_r. reflexivity.
  - destruct (make_move b m (-1)) as [child| |]; simpl; try reflexivity.
    destruct (rec child (d + 1) (p ++ [m])) as [[cn v]| |]; simpl;
      try reflexivity.
    rewrite (IH (nodes ++ cn)), (IH cn).
    destruct (collect_min_loop rec b d p rest [] [] _)
      as [[[n' cv'] best']| |]; simpl; try reflexivity.
    rewrite <- !app_assoc. reflexivity.
Qed.

Lemma locals_app_reset (st : ab_locals) :
  locals_app st (locals_reset st) = st.
Proof.
  destruct st; unfold locals_app, locals_reset; simpl.
  rewrite !app_nil_r. reflexivity.
Qed.

Lemma collect_ab_max_loop_shift
  (rec : Board -> Z -> list Z -> val -> val -> result (list node * val))
  (b : Board) (d : Z) (p : list Z) :
  forall moves st,
    collect_ab_max_loop rec b d p moves st =
    fmap (locals_app st) (collect_ab_max_loop rec b d p moves (locals_reset st)).
Proof.
  induction moves as [|m rest IH]; intros st.
  - simpl. rewrite locals_app_reset. reflexivity.
  - cbn [collect_ab_max_loop].
    destruct (make_move b m 1) as [child| |]; cbn [bind fmap];
      try reflexivity.
    change (l_alpha (locals_reset st)) with (l_alpha st).
    change (l_beta (locals_reset st)) with (l_beta st).
    change (l_value (locals_reset st)) with (l_value st).
    change (l_pruned (locals_reset st)) with (l_pruned st).
    destruct (rec child (d + 1) (p ++ [m]) (l_alpha st) (l_beta st))
      as [[cn v]| |]; cbn [bind fmap]; try reflexivity.
    destruct (val_geb _ (l_beta st)).
    + reflexivity.
    + rewrite IH. symmetry. rewrite IH. symmetry.
      unfold locals_reset; cbn [l_value l_alpha l_beta l_pruned].
      destruct (collect_ab_max_loop rec b d p rest _) as [st'| |];
        cbn [bind fmap]; try reflexivity.
      unfold locals_app; cbn [l_nodes l_children_vals l_explored_moves].
      cbn [app]. rewrite <- !app_assoc. reflexivity.
Qed.

Lemma collect_ab_min_loop_shift
  (rec : Board -> Z -> list Z -> val -> val -> result (list node * val))
  (b : Board) (d : Z) (p : list Z) :
  forall moves st,
    collect_ab_min_loop rec b d p moves st =
    fmap (locals_app st) (collect_ab_min_loop rec b d p moves (locals_reset st)).
Proof.
  induction moves as [|m rest IH]; intros st.
  - simpl. rewrite locals_app_reset. reflexivity.
  - cbn [collect_ab_min_loop].
    destruct (make_move b m (-1)) as [child| |]; cbn [bind fmap];
      try reflexivity.
    change (l_alpha (locals_reset st)) with (l_alpha st).
    change (l_beta (locals_reset st)) with (l_beta st).
    change (l_value (locals_reset st)) with (l_value st).
    change (l_pruned (locals_reset st)) with (l_pruned st).
    destruct (rec child (d + 1) (p ++ [m]) (l_alpha st) (l_beta st))
      as [[cn v]| |]; cbn [bind fmap]; try reflexivity.
    destruct (val_geb (l_alpha st) _).
    + reflexivity.
    + rewrite IH. symmetry. rewrite IH. symmetry.
      unfold locals_reset; cbn [l_value l_alpha l_beta l_pruned].
      destruct (collect_ab_min_loop rec b d p rest _) as [st'| |];
        cbn [bind fmap]; try reflexivity.
      unfold locals_app; cbn [l_nodes l_children_vals l_explored_moves].
      cbn [app]. rewrite <- !app_assoc. reflexivity.
Qed.


(** ** Terminal nodes visited: Alpha-Beta against Minimax *)

Lemma count_terminal_app (a b : list node) :
  count_terminal (a ++ b) = (count_terminal a + count_terminal b)%nat.
Proof. unfold count_terminal. rewrite filter_app, length_app. reflexivity. Qed.

Lemma all_open_app (a b : list node) :
  all_open (a ++ b) <-> all_open a /\ all_open b.
Proof. unfold all_open. apply Forall_app. Qed.

Lemma count_max_loop
  (rec_m : Board -> Z -> list Z -> result (list node * val))
  (rec_a : Board -> Z -> list Z -> val -> val -> result (list node * val))
  (b : Board) (d : Z) (p : list Z) :
  (forall child d' q nm v, rec_m child d' q = Ok (nm, v) ->
     forall alpha beta, exists na w,
       rec_a child d' q alpha beta = Ok (na, w) /\
       (count_terminal na <= count_terminal nm)%nat /\
       (all_open na -> count_terminal na = count_terminal nm)) ->
  forall moves best nm cv v st,
    l_nodes st = [] ->
    collect_max_loop rec_m b d p moves [] [] best = Ok (nm, cv, v) ->
    exists st',
      collect_ab_max_loop rec_a b d p moves st = Ok st' /\
      (count_terminal (l_nodes st') <= count_terminal nm)%nat /\
      (all_open (l_nodes st') ->
       val_geb (l_alpha st') (l_beta st') = false ->
       count_terminal (l_nodes st') = count_terminal nm).
Proof.
  intros Hrec. induction moves as [|m rest IH];
    intros best nm cv v st Hst H.
  - simpl in H. injection H as <- <- <-. exists st. rewrite Hst.
    split; [reflexivity|]. split; [simpl; lia | reflexivity].
  - cbn [collect_max_loop] in H. inv_bind H. rename x into child.
    inv_bind H. destruct x as [cn v']. rewrite collect_max_loop_shift in H.
    inv_bind H. destruct x as [[n' cv'] best'].
    cbn [app] in H. injection H as <- <- <-.
    destruct (Hrec child _ _ cn v' Hx0 (l_alpha st) (l_beta st))
      as (cna & w & Hw & Hle & Heq).
    cbn [collect_ab_max_loop]. rewrite Hx. cbn [bind]. rewrite Hw.
    cbn [bind]. rewrite Hst. cbn [app].
    destruct (val_geb _ (l_beta st)) eqn:Hc.
    + eexists. split; [reflexivity|]. cbn [l_nodes l_alpha l_beta].
      rewrite count_terminal_app. split; [lia|].
      intros _ Hopen. congruence.
    + rewrite collect_ab_max_loop_shift.
      match goal with
      | |- context [collect_ab_max_loop _ _ _ _ rest ?s] =>
          destruct (IH _ n' cv' best' s eq_refl Hx1)
            as (st2 & Hst2 & Hle2 & Heq2)
      end.
      rewrite Hst2. cbn [fmap bind]. eexists. split; [reflexivity|].
      unfold locals_app. cbn [l_nodes l_alpha l_beta].
      rewrite !count_terminal_app. split; [lia|].
      intros Hopen Hw2. apply all_open_app in Hopen.
      destruct Hopen as [Ho1 Ho2].
      rewrite (Heq Ho1), (Heq2 Ho2 Hw2). reflexivity.
Qed.

Lemma count_min_loop
  (rec_m : Board -> Z -> list Z -> result (list node * val))
  (rec_a : Board -> Z -> list Z -> val -> val -> result (list node * val))
  (b : Board) (d : Z) (p : list Z) :
  (forall child d' q nm v, rec_m child d' q = Ok (nm, v) ->
     forall alpha beta, exists na w,
       rec_a child d' q alpha beta = Ok (na, w) /\
       (count_terminal na <= count_terminal nm)%nat /\
       (all_open na -> count_terminal na = count_terminal nm)) ->
  forall moves best nm cv v st,
    l_nodes st = [] ->
    collect_min_loop rec_m b d p moves [] [] best = Ok (nm, cv, v) ->
    exists st',
      collect_ab_min_loop rec_a b d p moves st = Ok st' /\
      (count_terminal (l_nodes st') <= count_terminal nm)%nat /\
      (all_open (l_nodes st') ->
       val_geb (l_alpha st') (l_beta st') = false ->
       count_terminal (l_nodes st') = count_terminal nm).
Proof.
  intros Hrec. induction moves as [|m rest IH];
    intros best nm cv v st Hst H.
  - simpl in H. injection H as <- <- <-. exists st. rewrite Hst.
    split; [reflexivity|]. split; [simpl; lia | reflexivity].
  - cbn [collect_min_loop] in H. inv_bind H. rename x into child.
    inv_bind H. destruct x as [cn v']. rewrite collect_min_loop_shift in H.
    inv_bind H. destruct x as [[n' cv'] best'].
    cbn [app] in H. injection H as <- <- <-.
    destruct (Hrec child _ _ cn v' Hx0 (l_alpha st) (l_beta st))
      as (cna & w & Hw & Hle & Heq).
    cbn [collect_ab_min_loop]. rewrite Hx. cbn [bind]. rewrite Hw.
    cbn [bind]. rewrite Hst. cbn [app].
    destruct (val_geb (l_alpha st) _) eqn:Hc.
    + eexists. split; [reflexivity|]. cbn [l_nodes l_alpha l_beta].
      rewrite count_terminal_app. split; [lia|].
      intros _ Hopen. congruence.
    + rewrite collect_ab_min_loop_shift.
      match goal with
      | |- context [collect_ab_min_loop _ _ _ _ rest ?s] =>
          destruct (IH _ n' cv' best' s eq_refl Hx1)
            as (st2 & Hst2 & Hle2 & Heq2)
      end.
      rewrite Hst2. cbn [fmap bind]. eexists. split; [reflexivity|].
      unfold locals_app. cbn [l_nodes l_alpha l_beta].
      rewrite !count_terminal_app. split; [lia|].
      intros Hopen Hw2. apply all_open_app in Hopen.
      destruct Hopen as [Ho1 Ho2].
      rewrite (Heq Ho1), (Heq2 Ho2 Hw2). reflexivity.
Qed.

Lemma collect_counts (fuel : nat) :
  forall (b : Board) (d : Z) (p : list Z) (nm : list node) (v : val),
    collect_tree_nodes max_depth fuel b d p = Ok (nm, v) ->
    forall alpha beta, exists na w,
      collect_alphabeta_tree_nodes max_depth fuel b d p alpha beta
        = Ok (na, w) /\
      (count_terminal na <= count_terminal nm)%nat /\
      (all_open na -> count_terminal na = count_terminal nm).
Proof.
  induction fuel as [|f IH]; intros b d p nm v H alpha beta;
    [discriminate|].
  rewrite collect_tree_nodes_unfold in H.
  rewrite collect_alphabeta_tree_nodes_unfold.
  inv_bind H. rename x into s. rewrite Hx. cbn [bind].
  destruct ((d =? max_depth) || negb (s =? 0)).
  - injection H as <- <-. do 2 eexists. split; [reflexivity|].
    split; [unfold count_terminal; simpl; lia | reflexivity].
  - destruct (d mod 2 =? 0); inv_bind H; rewrite Hx0; cbn [bind];
      inv_bind H; destruct x0 as [[n' cv] best]; injection H as <- <-.
    + destruct (count_max_loop _ _ b d p IH x NegInf n' cv best
                  (mk_locals [] [] [] NegInf alpha beta false) eq_refl Hx1)
        as (st' & Hst' & Hle & Heq).
      rewrite Hst'. cbn [bind]. do 2 eexists. split; [reflexivity|].
      rewrite !count_terminal_app.
      unfold count_terminal at 2 4. cbn [filter is_terminal_record node_type
        internal_record ab_internal_record length].
      split; [lia|].
      intros Hopen. apply all_open_app in Hopen. destruct Hopen as [Ho1 Ho2].
      inversion Ho2 as [|? ? Hw _]; subst.
      unfold window_closed in Hw; simpl in Hw.
      rewrite (Heq Ho1 Hw). reflexivity.
    + destruct (count_min_loop _ _ b d p IH x PosInf n' cv best
                  (mk_locals [] [] [] PosInf alpha beta false) eq_refl Hx1)
        as (st' & Hst' & Hle & Heq).
      rewrite Hst'. cbn [bind]. do 2 eexists. split; [reflexivity|].
      rewrite !count_terminal_app.
      unfold count_terminal at 2 4. cbn [filter is_terminal_record node_type
        internal_record ab_internal_record length].
      split; [lia|].
      intros Hopen. apply all_open_app in Hopen. destruct Hopen as [Ho1 Ho2].
      inversion Ho2 as [|? ? Hw _]; subst.
      unfold window_closed in Hw; simpl in Hw.
      rewrite (Heq Ho1 Hw). reflexivity.
Qed.

Lemma collect_tree_nodes_total (fuel : nat) (b : Board) (d : Z)
  (p : list Z) :
  wf_board b -> (playable b < fuel)%nat ->
  exists nodes v,
    collect_tree_nodes max_depth fuel b d p = Ok (nodes, v) /\
    minimax max_depth fuel b d p = Ok v.
Proof.
  intros Hwf Hfuel.
  destruct (minimax_total fuel b d p Hwf Hfuel) as (v & Hv).
  pose proof Hv as Hv'. rewrite collect_tree_nodes_value in Hv'.
  apply fmap_ok in Hv'. destruct Hv' as ([nodes v'] & Hc & Hs).
  simpl in Hs. subst v'. eauto.
Qed.

(** C2 (as amended). On a well-formed board both collecting searches return;
    the Alpha-Beta one, run with the full window, records at most as many
    terminal nodes as the Minimax one, and as many when no recorded window
    satisfies [alpha >= beta]. *)
Theorem alphabeta_terminals_le (fuel : nat) (board : Board) (depth : Z)
  (path : list Z) :
  wf_board board -> (playable board < fuel)%nat ->
  exists nm vm na va,
    collect_tree_nodes max_depth fuel board depth path = Ok (nm, vm) /\
    collect_alphabeta_tree_nodes max_depth fuel board depth path
      NegInf PosInf = Ok (na, va) /\
    (count_terminal na <= count_terminal nm)%nat /\
    (all_open na -> count_terminal na = count_terminal nm).
Proof.
  intros Hwf Hfuel.
  destruct (collect_tree_nodes_total fuel board depth path Hwf Hfuel)
    as (nm & vm & Hm & _).
  destruct (collect_counts fuel board depth path nm vm Hm NegInf PosInf)
    as (na & va & Ha & Hle & Heq).
  exists nm, vm, na, va. auto.
Qed.


(** ** What the loops of the collecting searches compute *)

Lemma collect_max_loop_inv
  (rec : Board -> Z -> list Z -> result (list node * val))
  (b : Board) (d : Z) (p : list Z) (P : node -> Prop) (R : val -> Prop) :
  forall moves,
    (forall m child nodes v, In m moves -> make_move b m 1 = Ok child ->
       rec child (d + 1) (p ++ [m]) = Ok (nodes, v) ->
       Forall P nodes /\ R v) ->
    forall best n' cv' best',
      collect_max_loop rec b d p moves [] [] best = Ok (n', cv', best') ->
      Forall P n' /\ Forall R cv' /\
      best' = fold_left vmax cv' best /\ length cv' = length moves.
Proof.
  induction moves as [|m rest IH]; intros Hrec best n' cv' best' H.
  - simpl in H. injection H as <- <- <-. simpl. auto.
  - cbn [collect_max_loop] in H. inv_bind H. rename x into child.
    inv_bind H. destruct x as [cn v]. rewrite collect_max_loop_shift in H.
    inv_bind H. destruct x as [[n2 cv2] b2]. cbn [app] in H.
    injection H as <- <- <-.
    destruct (Hrec m child cn v (or_introl eq_refl) Hx Hx0) as [HP HR].
    destruct (IH (fun m' c' n0 v0 Hin => Hrec m' c' n0 v0 (or_intror Hin))
                _ _ _ _ Hx1) as (HP2 & HR2 & Hb2 & Hl2).
    split; [apply Forall_app; auto|]. split; [constructor; auto|].
    split; [exact Hb2 | simpl; congruence].
Qed.

Lemma collect_min_loop_inv
  (rec : Board -> Z -> list Z -> result (list node * val))
  (b : Board) (d : Z) (p : list Z) (P : node -> Prop) (R : val -> Prop) :
  forall moves,
    (forall m child nodes v, In m moves -> make_move b m (-1) = Ok child ->
       rec child (d + 1) (p ++ [m]) = Ok (nodes, v) ->
       Forall P nodes /\ R v) ->
    forall best n' cv' best',
      collect_min_loop rec b d p moves [] [] best = Ok (n', cv', best') ->
      Forall P n' /\ Forall R cv' /\
      best' = fold_left vmin cv' best /\ length cv' = length moves.
Proof.
  induction moves as [|m rest IH]; intros Hrec best n' cv' best' H.
  - simpl in H. injection H as <- <- <-. simpl. auto.
  - cbn [collect_min_loop] in H. inv_bind H. rename x into child.
    inv_bind H. destruct x as [cn v]. rewrite collect_min_loop_shift in H.
    inv_bind H. destruct x as [[n2 cv2] b2]. cbn [app] in H.
    injection H as <- <- <-.
    destruct (Hrec m child cn v (or_introl eq_refl) Hx Hx0) as [HP HR].
    destruct (IH (fun m' c' n0 v0 Hin => Hrec m' c' n0 v0 (or_intror Hin))
                _ _ _ _ Hx1) as (HP2 & HR2 & Hb2 & Hl2).
    split; [apply Forall_app; auto|]. split; [constructor; auto|].
    split; [exact Hb2 | simpl; congruence].
Qed.

Lemma collect_ab_max_loop_inv
  (rec : Board -> Z -> list Z -> val -> val -> result (list node * val))
  (b : Board) (d : Z) (p : list Z) (P : node -> Prop) (R : val -> Prop) :
  forall moves,
    (forall m child alpha beta nodes v, In m moves ->
       make_move b m 1 = Ok child ->
       rec child (d + 1) (p ++ [m]) alpha beta = Ok (nodes, v) ->
       Forall P nodes /\ R v) ->
    forall st st',
      l_nodes st = [] -> l_children_vals st = [] ->
      collect_ab_max_loop rec b d p moves st = Ok st' ->
      Forall P (l_nodes st') /\ Forall R (l_children_vals st') /\
      l_value st' = fold_left vmax (l_children_vals st') (l_value st) /\
      (moves <> [] -> l_children_vals st' <> []).
Proof.
  induction moves as [|m rest IH]; intros Hrec st st' Hn Hcv H.
  - simpl in H. injection H as <-. rewrite Hn, Hcv. simpl.
    repeat split; auto.
  - cbn [collect_ab_max_loop] in H. inv_bind H. rename x into child.
    inv_bind H. destruct x as [cn v]. rewrite Hn, Hcv in H. cbn [app] in H.
    destruct (Hrec m child _ _ cn v (or_introl eq_refl) Hx Hx0) as [HP HR].
    destruct (val_geb _ (l_beta st)).
    + injection H as <-. cbn [l_nodes l_children_vals l_value].
      repeat split; auto; discriminate.
    + rewrite collect_ab_max_loop_shift in H. apply fmap_ok in H.
      destruct H as (st2 & H2 & <-).
      destruct (IH (fun m' c' a0 b0 n0 v0 Hin =>
                      Hrec m' c' a0 b0 n0 v0 (or_intror Hin))
                  (locals_reset _) st2 eq_refl eq_refl H2)
        as (HP2 & HR2 & Hv2 & _).
      unfold locals_app. cbn [l_nodes l_children_vals l_value].
      split; [apply Forall_app; auto|]. split; [constructor; auto|].
      split; [exact Hv2 | discriminate].
Qed.

Lemma collect_ab_min_loop_inv
  (rec : Board -> Z -> list Z -> val -> val -> result (list node * val))
  (b : Board) (d : Z) (p : list Z) (P : node -> Prop) (R : val -> Prop) :
  forall moves,
    (forall m child alpha beta nodes v, In m moves ->
       make_move b m (-1) = Ok child ->
       rec child (d + 1) (p ++ [m]) alpha beta = Ok (nodes, v) ->
       Forall P nodes /\ R v) ->
    forall st st',
      l_nodes st = [] -> l_children_vals st = [] ->
      collect_ab_min_loop rec b d p moves st = Ok st' ->
      Forall P (l_nodes st') /\ Forall R (l_children_vals st') /\
      l_value st' = fold_left vmin (l_children_vals st') (l_value st) /\
      (moves <> [] -> l_children_vals st' <> []).
Proof.
  induction moves as [|m rest IH]; intros Hrec st st' Hn Hcv H.
  - simpl in H. injection H as <-. rewrite Hn, Hcv. simpl.
    repeat split; auto.
  - cbn [collect_ab_min_loop] in H. inv_bind H. rename x into child.
    inv_bind H. destruct x as [cn v]. rewrite Hn, Hcv in H. cbn [app] in H.
    destruct (Hrec m child _ _ cn v (or_introl eq_refl) Hx Hx0) as [HP HR].
    destruct (val_geb (l_alpha st) _).
    + injection H as <-. cbn [l_nodes l_children_vals l_value].
      repeat split; auto; discriminate.
    + rewrite collect_ab_min_loop_shift in H. apply fmap_ok in H.
      destruct H as (st2 & H2 & <-).
      destruct (IH (fun m' c' a0 b0 n0 v0 Hin =>
                      Hrec m' c' a0 b0 n0 v0 (or_intror Hin))
                  (locals_reset _) st2 eq_refl eq_refl H2)
        as (HP2 & HR2 & Hv2 & _).
      unfold locals_app. cbn [l_nodes l_children_vals l_value].
      split; [apply Forall_app; auto|]. split; [constructor; auto|].
      split; [exact Hv2 | discriminate].
Qed.

(** ** Running maximum and minimum *)

Lemma fold_vmax_spec (cv : list val) :
  forall best,
    val_le best (fold_left vmax cv best) /\
    Forall (fun x => val_le x (fold_left vmax cv best)) cv /\
    (fold_left vmax cv best = best \/ In (fold_left vmax cv best) cv).
Proof.
  induction cv as [|x cv IH]; intros best; simpl.
  - split; [apply val_le_refl|]. split; [constructor | left; reflexivity].
  - destruct (IH (vmax best x)) as (H1 & H2 & H3).
    assert (Hb : val_le best (vmax best x))
      by (unfold vmax; clear; vorder [best; x]).
    assert (Hx : val_le x (vmax best x))
      by (unfold vmax; clear; vorder [best; x]).
    split; [eapply val_le_trans; eauto|].
    split; [constructor; [eapply val_le_trans; eauto | exact H2]|].
    destruct H3 as [H3|H3]; [|right; right; exact H3].
    rewrite H3. unfold vmax. destruct (val_gtb x best); auto.
Qed.

Lemma fold_vmin_spec (cv : list val) :
  forall best,
    val_le (fold_left vmin cv best) best /\
    Forall (fun x => val_le (fold_left vmin cv best) x) cv /\
    (fold_left vmin cv best = best \/ In (fold_left vmin cv best) cv).
Proof.
  induction cv as [|x cv IH]; intros best; simpl.
  - split; [apply val_le_refl|]. split; [constructor | left; reflexivity].
  - destruct (IH (vmin best x)) as (H1 & H2 & H3).
    assert (Hb : val_le (vmin best x) best)
      by (unfold vmin; clear; vorder [best; x]).
    assert (Hx : val_le (vmin best x) x)
      by (unfold vmin; clear; vorder [best; x]).
    split; [eapply val_le_trans; eauto|].
    split; [constructor; [eapply val_le_trans; eauto | exact H2]|].
    destruct H3 as [H3|H3]; [|right; right; exact H3].
    rewrite H3. unfold vmin. destruct (val_ltb x best); auto.
Qed.

Lemma val_le_neginf (x : val) : val_le x NegInf -> x = NegInf.
Proof. destruct x; simpl; intros H; try reflexivity; discriminate. Qed.

Lemma val_le_posinf (x : val) : val_le PosInf x -> x = PosInf.
Proof. destruct x; simpl; intros H; try reflexivity; discriminate. Qed.

Lemma fold_vmax_max_of (cv : list val) :
  max_of (fold_left vmax cv NegInf) cv.
Proof.
  destruct (fold_vmax_spec cv NegInf) as (_ & H2 & H3).
  destruct cv as [|x cv]; [reflexivity|].
  unfold max_of, is_maximum. split; [|exact H2].
  destruct H3 as [H3|H3]; [|exact H3].
  rewrite H3 in *. inversion H2 as [|? ? Hx _]; subst.
  apply val_le_neginf in Hx. subst x. left; reflexivity.
Qed.

Lemma fold_vmin_min_of (cv : list val) :
  min_of (fold_left vmin cv PosInf) cv.
Proof.
  destruct (fold_vmin_spec cv PosInf) as (_ & H2 & H3).
  destruct cv as [|x cv]; [reflexivity|].
  unfold min_of, is_minimum. split; [|exact H2].
  destruct H3 as [H3|H3]; [|exact H3].
  rewrite H3 in *. inversion H2 as [|? ? Hx _]; subst.
  apply val_le_posinf in Hx. subst x. left; reflexivity.
Qed.


(** ** Node records: aggregation and terminal values *)

Lemma player_at_even (d : Z) : (d mod 2 =? 0) = true -> player_at d = 1.
Proof. unfold player_at. intros ->. reflexivity. Qed.

Lemma player_at_odd (d : Z) : (d mod 2 =? 0) = false -> player_at d = -1.
Proof. unfold player_at. intros ->. reflexivity. Qed.

Lemma record_ok_lift (b child : Board) (d m : Z) (p : list Z) (n : node) :
  make_move b m (player_at d) = Ok child ->
  record_ok child (d + 1) (p ++ [m]) n -> record_ok b d p n.
Proof.
  intros Hmv [Hagg Hterm]. split; [exact Hagg|].
  intros Ht. destruct (Hterm Ht) as (ms & bn & s & Hp & Hd & Hr & He & Hv).
  exists (m :: ms), bn, s.
  split; [rewrite Hp, <- app_assoc; reflexivity|].
  split; [rewrite Hd; simpl length; lia|].
  split; [simpl; rewrite Hmv; exact Hr|]. auto.
Qed.

Lemma record_ok_terminal (b : Board) (d : Z) (p : list Z) (s : Z) (n : node) :
  evaluate b = Ok s ->
  node_type n = Terminal -> node_path n = p -> node_depth n = d ->
  node_value n = Fin s -> record_ok b d p n.
Proof.
  intros He Ht Hp Hd Hv. split.
  - unfold aggregation_ok. rewrite Ht. exact I.
  - intros _. exists [], b, s. rewrite app_nil_r. simpl.
    repeat split; auto. lia.
Qed.

Lemma collect_tree_nodes_records (fuel : nat) :
  forall (b : Board) (d : Z) (p : list Z) (nodes : list node) (v : val),
    collect_tree_nodes max_depth fuel b d p = Ok (nodes, v) ->
    Forall (record_ok b d p) nodes.
Proof.
  induction fuel as [|f IH]; intros b d p nodes v H; [discriminate|].
  rewrite collect_tree_nodes_unfold in H.
  inv_bind H. rename x into s.
  destruct ((d =? max_depth) || negb (s =? 0)).
  - injection H as <- <-. constructor; [|constructor].
    apply (record_ok_terminal b d p s); auto.
  - destruct (d mod 2 =? 0) eqn:Hpar; inv_bind H; inv_bind H;
      destruct x0 as [[n' cv] best]; injection H as <- <-.
    + edestruct (collect_max_loop_inv (collect_tree_nodes max_depth f)
                   b d p (record_ok b d p) (fun _ => True) x)
        as (HP & _ & Hbest & _); [|exact Hx1|].
      { intros m child nodes v0 _ Hmv Hrec. split; [|exact I].
        eapply Forall_impl; [|eapply IH; exact Hrec].
        intros n. apply record_ok_lift.
        rewrite (player_at_even d Hpar). exact Hmv. }
      apply Forall_app. split; [exact HP|]. constructor; [|constructor].
      split; [|intros Ht; discriminate].
      unfold aggregation_ok. simpl. exists cv. split; [reflexivity|].
      rewrite Hbest. apply fold_vmax_max_of.
    + edestruct (collect_min_loop_inv (collect_tree_nodes max_depth f)
                   b d p (record_ok b d p) (fun _ => True) x)
        as (HP & _ & Hbest & _); [|exact Hx1|].
      { intros m child nodes v0 _ Hmv Hrec. split; [|exact I].
        eapply Forall_impl; [|eapply IH; exact Hrec].
        intros n. apply record_ok_lift.
        rewrite (player_at_odd d Hpar). exact Hmv. }
      apply Forall_app. split; [exact HP|]. constructor; [|constructor].
      split; [|intros Ht; discriminate].
      unfold aggregation_ok. simpl. exists cv. split; [reflexivity|].
      rewrite Hbest. apply fold_vmin_min_of.
Qed.

Lemma collect_alphabeta_tree_nodes_records (fuel : nat) :
  forall (b : Board) (d : Z) (p : list Z) (alpha beta : val)
         (nodes : list node) (v : val),
    collect_alphabeta_tree_nodes max_depth fuel b d p alpha beta
      = Ok (nodes, v) ->
    Forall (record_ok b d p) nodes.
Proof.
  induction fuel as [|f IH]; intros b d p alpha beta nodes v H;
    [discriminate|].
  rewrite collect_alphabeta_tree_nodes_unfold in H.
  inv_bind H. rename x into s.
  destruct ((d =? max_depth) || negb (s =? 0)).
  - injection H as <- <-. constructor; [|constructor].
    apply (record_ok_terminal b d p s); auto.
  - destruct (d mod 2 =? 0) eqn:Hpar; inv_bind H; inv_bind H;
      rename x0 into st; injection H as <- <-.
    + edestruct (collect_ab_max_loop_inv
                   (collect_alphabeta_tree_nodes max_depth f)
                   b d p (record_ok b d p) (fun _ => True) x)
        as (HP & _ & Hbest & _); [| | |exact Hx1|]; try reflexivity.
      { intros m child a0 b0 nodes v0 _ Hmv Hrec. split; [|exact I].
        eapply Forall_impl; [|eapply IH; exact Hrec].
        intros n. apply record_ok_lift.
        rewrite (player_at_even d Hpar). exact Hmv. }
      apply Forall_app. split; [exact HP|]. constructor; [|constructor].
      split; [|intros Ht; discriminate].
      unfold aggregation_ok. simpl. exists (l_children_vals st).
      split; [reflexivity|].
      rewrite Hbest. apply fold_vmax_max_of.
    + edestruct (collect_ab_min_loop_inv
                   (collect_alphabeta_tree_nodes max_depth f)
                   b d p (record_ok b d p) (fun _ => True) x)
        as (HP & _ & Hbest & _); [| | |exact Hx1|]; try reflexivity.
      { intros m child a0 b0 nodes v0 _ Hmv Hrec. split; [|exact I].
        eapply Forall_impl; [|eapply IH; exact Hrec].
        intros n. apply record_ok_lift.
        rewrite (player_at_odd d Hpar). exact Hmv. }
      apply Forall_app. split; [exact HP|]. constructor; [|constructor].
      split; [|intros Ht; discriminate].
      unfold aggregation_ok. simpl. exists (l_children_vals st).
      split; [reflexivity|].
      rewrite Hbest. apply fold_vmin_min_of.
Qed.

Lemma collect_alphabeta_tree_nodes_total (fuel : nat) (b : Board) (d : Z)
  (p : list Z) (alpha beta : val) :
  wf_board b -> (playable b < fuel)%nat ->
  exists nodes v,
    collect_alphabeta_tree_nodes max_depth fuel b d p alpha beta
      = Ok (nodes, v) /\
    alphabeta max_depth fuel b d p alpha beta = Ok v.
Proof.
  intros Hwf Hfuel.
  destruct (collect_tree_nodes_total fuel b d p Hwf Hfuel)
    as (nm & vm & Hm & _).
  destruct (collect_counts fuel b d p nm vm Hm alpha beta)
    as (na & va & Ha & _).
  exists na, va. split; [exact Ha|].
  rewrite collect_alphabeta_tree_nodes_value, Ha. reflexivity.
Qed.

(** C4 (as amended). In every record of the two collecting searches: a 'max'
    record with a non-empty [children_values] carries its maximum and one with
    an empty list carries [-inf]; a 'min' record carries the minimum, or
    [+inf] for an empty list; a 'terminal' record carries [evaluate] of the
    board that its path leads to.  Both searches return on a well-formed
    board. *)
Theorem node_records_aggregate (fuel : nat) (board : Board) (depth : Z)
  (path : list Z) :
  wf_board board -> (playable board < fuel)%nat ->
  exists nm vm na va,
    collect_tree_nodes max_depth fuel board depth path = Ok (nm, vm) /\
    collect_alphabeta_tree_nodes max_depth fuel board depth path
      NegInf PosInf = Ok (na, va) /\
    Forall (record_ok board depth path) nm /\
    Forall (record_ok board depth path) na.
Proof.
  intros Hwf Hfuel.
  destruct (collect_tree_nodes_total fuel board depth path Hwf Hfuel)
    as (nm & vm & Hm & _).
  destruct (collect_alphabeta_tree_nodes_total fuel board depth path
              NegInf PosInf Hwf Hfuel) as (na & va & Ha & _).
  exists nm, vm, na, va.
  split; [exact Hm|]. split; [exact Ha|]. split.
  - eapply collect_tree_nodes_records; exact Hm.
  - eapply collect_alphabeta_tree_nodes_records; exact Ha.
Qed.


(** ** Range of the search values *)











Lemma not_terminal_below (d s : Z) :
  (d =? max_depth) || negb (s =? 0) = false ->
  d <= max_depth -> d < max_depth.
Proof.
  intros H Hd. apply orb_false_iff in H. destruct H as [H _].
  apply Z.eqb_neq in H. lia.
Qed.





(** ** Window validity *)

Lemma calls_max_loop_open
  (rec : Board -> Z -> list Z -> val -> val -> result (val * list call))
  (b : Board) (d : Z) (p : list Z) :
  (forall child d' q alpha beta w log, val_lt alpha beta ->
     rec child d' q alpha beta = Ok (w, log) -> Forall open_call log) ->
  forall moves value alpha beta log0 w log,
    val_lt alpha beta -> Forall open_call log0 ->
    calls_max_loop rec b d p moves value alpha beta log0 = Ok (w, log) ->
    Forall open_call log.
Proof.
  intros Hrec. induction moves as [|m rest IH];
    intros value alpha beta log0 w log Hab H0 H.
  - simpl in H. injection H as <- <-. exact H0.
  - cbn [calls_max_loop] in H. inv_bind H. rename x into child.
    inv_bind H. destruct x as [v cl].
    pose proof (Hrec _ _ _ _ _ _ _ Hab Hx0) as Hcl.
    assert (H1 : Forall open_call (log0 ++ cl))
      by (apply Forall_app; auto).
    destruct (val_geb _ beta) eqn:Hc.
    + injection H as <- <-. exact H1.
    + eapply IH; [|exact H1|exact H]. apply val_geb_false. exact Hc.
Qed.

Lemma calls_min_loop_open
  (rec : Board -> Z -> list Z -> val -> val -> result (val * list call))
  (b : Board) (d : Z) (p : list Z) :
  (forall child d' q alpha beta w log, val_lt alpha beta ->
     rec child d' q alpha beta = Ok (w, log) -> Forall open_call log) ->
  forall moves value alpha beta log0 w log,
    val_lt alpha beta -> Forall open_call log0 ->
    calls_min_loop rec b d p moves value alpha beta log0 = Ok (w, log) ->
    Forall open_call log.
Proof.
  intros Hrec. induction moves as [|m rest IH];
    intros value alpha beta log0 w log Hab H0 H.
  - simpl in H. injection H as <- <-. exact H0.
  - cbn [calls_min_loop] in H. inv_bind H. rename x into child.
    inv_bind H. destruct x as [v cl].
    pose proof (Hrec _ _ _ _ _ _ _ Hab Hx0) as Hcl.
    assert (H1 : Forall open_call (log0 ++ cl))
      by (apply Forall_app; auto).
    destruct (val_geb alpha _) eqn:Hc.
    + injection H as <- <-. exact H1.
    + eapply IH; [|exact H1|exact H]. apply val_geb_false. exact Hc.
Qed.

Lemma calls_max_loop_prefix
  (rec : Board -> Z -> list Z -> val -> val -> result (val * list call))
  (b : Board) (d : Z) (p : list Z) :
  forall moves value alpha beta log0 w log,
    calls_max_loop rec b d p moves value alpha beta log0 = Ok (w, log) ->
    exists more, log = log0 ++ more.
Proof.
  induction moves as [|m rest IH]; intros value alpha beta log0 w log H.
  - simpl in H. injection H as <- <-. exists []. rewrite app_nil_r.
    reflexivity.
  - cbn [calls_max_loop] in H. inv_bind H. inv_bind H.
    destruct x0 as [v cl]. destruct (val_geb _ beta).
    + injection H as <- <-. eauto.
    + apply IH in H. destruct H as (more & ->).
      exists (cl ++ more). rewrite app_assoc. reflexivity.
Qed.

Lemma calls_min_loop_prefix
  (rec : Board -> Z -> list Z -> val -> val -> result (val * list call))
  (b : Board) (d : Z) (p : list Z) :
  forall moves value alpha beta log0 w log,
    calls_min_loop rec b d p moves value alpha beta log0 = Ok (w, log) ->
    exists more, log = log0 ++ more.
Proof.
  induction moves as [|m rest IH]; intros value alpha beta log0 w log H.
  - simpl in H. injection H as <- <-. exists []. rewrite app_nil_r.
    reflexivity.
  - cbn [calls_min_loop] in H. inv_bind H. inv_bind H.
    destruct x0 as [v cl]. destruct (val_geb alpha _).
    + injection H as <- <-. eauto.
    + apply IH in H. destruct H as (more & ->).
      exists (cl ++ more). rewrite app_assoc. reflexivity.
Qed.

Lemma alphabeta_calls_open (fuel : nat) :
  forall (b : Board) (d : Z) (p : list Z) (alpha beta w : val)
         (log : list call),
    val_lt alpha beta ->
    alphabeta_calls max_depth fuel b d p alpha beta = Ok (w, log) ->
    Forall open_call log /\
    exists rest, log = mk_call d p alpha beta :: rest.
Proof.
  induction fuel as [|f IH]; intros b d p alpha beta w log Hab H;
    [discriminate|].
  rewrite alphabeta_calls_unfold in H. inv_bind H. rename x into s.
  assert (Hhere : Forall open_call [mk_call d p alpha beta])
    by (constructor; [exact Hab | constructor]).
  destruct ((d =? max_depth) || negb (s =? 0)).
  - injection H as <- <-. split; [exact Hhere | eauto].
  - destruct (d mod 2 =? 0); inv_bind H.
    + split.
      * eapply calls_max_loop_open; [|exact Hab|exact Hhere|exact H].
        intros. eapply IH; eauto.
      * apply calls_max_loop_prefix in H. destruct H as (more & ->).
        exists more. reflexivity.
    + split.
      * eapply calls_min_loop_open; [|exact Hab|exact Hhere|exact H].
        intros. eapply IH; eauto.
      * apply calls_min_loop_prefix in H. destruct H as (more & ->).
        exists more. reflexivity.
Qed.

Lemma collect_ab_max_loop_window
  (rec : Board -> Z -> list Z -> val -> val -> result (list node * val))
  (b : Board) (d : Z) (p : list Z) :
  (forall child d' q alpha beta nodes v, val_lt alpha beta ->
     rec child d' q alpha beta = Ok (nodes, v) -> Forall window_ok nodes) ->
  forall moves st st',
    l_nodes st = [] -> l_children_vals st = [] -> l_explored_moves st = [] ->
    l_pruned st = false -> val_lt (l_alpha st) (l_beta st) ->
    collect_ab_max_loop rec b d p moves st = Ok st' ->
    Forall window_ok (l_nodes st') /\
    l_pruned st' = val_geb (l_alpha st') (l_beta st') /\
    (exists rest, moves = l_explored_moves st' ++ rest /\
                  (l_pruned st' = false -> rest = [])) /\
    length (l_children_vals st') = length (l_explored_moves st').
Proof.
  intros Hrec. induction moves as [|m rest IH];
    intros st st' Hn Hcv Hem Hpr Hab H.
  - simpl in H. injection H as <-. rewrite Hn, Hcv, Hem, Hpr.
    split; [constructor|]. split.
    + symmetry. revert Hab. clear. generalize (l_alpha st) (l_beta st).
      intros a c. vorder [a; c].
    + split; [exists []; auto | reflexivity].
  - cbn [collect_ab_max_loop] in H. inv_bind H. rename x into child.
    inv_bind H. destruct x as [cn v]. rewrite Hn, Hcv, Hem in H.
    cbn [app] in H.
    pose proof (Hrec _ _ _ _ _ _ _ Hab Hx0) as Hcn.
    destruct (val_geb _ (l_beta st)) eqn:Hc.
    + injection H as <-.
      cbn [l_nodes l_children_vals l_explored_moves l_pruned l_alpha l_beta].
      split; [exact Hcn|]. split; [symmetry; exact Hc|].
      split; [exists rest; split; [reflexivity | discriminate] | reflexivity].
    + rewrite collect_ab_max_loop_shift in H. apply fmap_ok in H.
      destruct H as (st2 & H2 & <-).
      apply IH in H2;
        [| reflexivity | reflexivity | reflexivity | exact Hpr
         | apply val_geb_false; exact Hc].
      destruct H2 as (Hn2 & Hp2 & (rest2 & Hr2 & Hr2') & Hl2).
      unfold locals_app.
      cbn [l_nodes l_children_vals l_explored_moves l_pruned l_alpha l_beta].
      split; [apply Forall_app; auto|]. split; [exact Hp2|].
      split; [exists rest2; split; [simpl; congruence | exact Hr2']|].
      simpl. congruence.
Qed.

Lemma collect_ab_min_loop_window
  (rec : Board -> Z -> list Z -> val -> val -> result (list node * val))
  (b : Board) (d : Z) (p : list Z) :
  (forall child d' q alpha beta nodes v, val_lt alpha beta ->
     rec child d' q alpha beta = Ok (nodes, v) -> Forall window_ok nodes) ->
  forall moves st st',
    l_nodes st = [] -> l_children_vals st = [] -> l_explored_moves st = [] ->
    l_pruned st = false -> val_lt (l_alpha st) (l_beta st) ->
    collect_ab_min_loop rec b d p moves st = Ok st' ->
    Forall window_ok (l_nodes st') /\
    l_pruned st' = val_geb (l_alpha st') (l_beta st') /\
    (exists rest, moves = l_explored_moves st' ++ rest /\
                  (l_pruned st' = false -> rest = [])) /\
    length (l_children_vals st') = length (l_explored_moves st').
Proof.
  intros Hrec. induction moves as [|m rest IH];
    intros st st' Hn Hcv Hem Hpr Hab H.
  - simpl in H. injection H as <-. rewrite Hn, Hcv, Hem, Hpr.
    split; [constructor|]. split.
    + symmetry. revert Hab. clear. generalize (l_alpha st) (l_beta st).
      intros a c. vorder [a; c].
    + split; [exists []; auto | reflexivity].
  - cbn [collect_ab_min_loop] in H. inv_bind H. rename x into child.
    inv_bind H. destruct x as [cn v]. rewrite Hn, Hcv, Hem in H.
    cbn [app] in H.
    pose proof (Hrec _ _ _ _ _ _ _ Hab Hx0) as Hcn.
    destruct (val_geb (l_alpha st) _) eqn:Hc.
    + injection H as <-.
      cbn [l_nodes l_children_vals l_explored_moves l_pruned l_alpha l_beta].
      split; [exact Hcn|]. split; [symmetry; exact Hc|].
      split; [exists rest; split; [reflexivity | discriminate] | reflexivity].
    + rewrite collect_ab_min_loop_shift in H. apply fmap_ok in H.
      destruct H as (st2 & H2 & <-).
      apply IH in H2;
        [| reflexivity | reflexivity | reflexivity | exact Hpr
         | apply val_geb_false; exact Hc].
      destruct H2 as (Hn2 & Hp2 & (rest2 & Hr2 & Hr2') & Hl2).
      unfold locals_app.
      cbn [l_nodes l_children_vals l_explored_moves l_pruned l_alpha l_beta].
      split; [apply Forall_app; auto|]. split; [exact Hp2|].
      split; [exists rest2; split; [simpl; congruence | exact Hr2']|].
      simpl. congruence.
Qed.

Lemma collect_alphabeta_tree_nodes_window (fuel : nat) :
  forall (b : Board) (d : Z) (p : list Z) (alpha beta : val)
         (nodes : list node) (v : val),
    val_lt alpha beta ->
    collect_alphabeta_tree_nodes max_depth fuel b d p alpha beta
      = Ok (nodes, v) ->
    Forall window_ok nodes.
Proof.
  induction fuel as [|f IH]; intros b d p alpha beta nodes v Hab H;
    [discriminate|].
  rewrite collect_alphabeta_tree_nodes_unfold in H.
  inv_bind H. rename x into s.
  destruct ((d =? max_depth) || negb (s =? 0)).
  - injection H as <- <-. constructor; [|constructor].
    unfold window_ok. simpl. eauto.
  - destruct (d mod 2 =? 0) eqn:Hpar; inv_bind H; inv_bind H;
      rename x0 into st; injection H as <- <-.
    + destruct (collect_ab_max_loop_window
                  (collect_alphabeta_tree_nodes max_depth f) b d p IH x
                  (mk_locals [] [] [] NegInf alpha beta false) st
                  eq_refl eq_refl eq_refl eq_refl Hab Hx1)
        as (Hn & Hp & Hr & Hl).
      apply Forall_app. split; [exact Hn|]. constructor; [|constructor].
      unfold window_ok. simpl.
      exists x, (l_explored_moves st), (l_children_vals st), (l_pruned st),
        (l_alpha st), (l_beta st). repeat split; auto.
    + destruct (collect_ab_min_loop_window
                  (collect_alphabeta_tree_nodes max_depth f) b d p IH x
                  (mk_locals [] [] [] PosInf alpha beta false) st
                  eq_refl eq_refl eq_refl eq_refl Hab Hx1)
        as (Hn & Hp & Hr & Hl).
      apply Forall_app. split; [exact Hn|]. constructor; [|constructor].
      unfold window_ok. simpl.
      exists x, (l_explored_moves st), (l_children_vals st), (l_pruned st),
        (l_alpha st), (l_beta st). repeat split; auto.
Qed.

(** A loop that detects [alpha >= beta] after a child returns at once: the
    remaining moves [rest] are not explored and add nothing to the log. *)
Lemma calls_loops_stop
  (rec : Board -> Z -> list Z -> val -> val -> result (val * list call))
  (b child : Board) (d m : Z) (p rest : list Z) (value alpha beta v : val)
  (log0 cl : list call) :
  rec child (d + 1) (p ++ [m]) alpha beta = Ok (v, cl) ->
  (make_move b m 1 = Ok child ->
   val_geb (vmax alpha (vmax value v)) beta = true ->
   calls_max_loop rec b d p (m :: rest) value alpha beta log0
     = Ok (vmax value v, log0 ++ cl)) /\
  (make_move b m (-1) = Ok child ->
   val_geb alpha (vmin beta (vmin value v)) = true ->
   calls_min_loop rec b d p (m :: rest) value alpha beta log0
     = Ok (vmin value v, log0 ++ cl)).
Proof.
  intros Hrec. split; intros Hmv Hc.
  - cbn [calls_max_loop]. rewrite Hmv. cbn [bind]. rewrite Hrec. cbn [bind].
    unfold vmax in Hc. rewrite Hc. reflexivity.
  - cbn [calls_min_loop]. rewrite Hmv. cbn [bind]. rewrite Hrec. cbn [bind].
    unfold vmin in Hc. rewrite Hc. reflexivity.
Qed.

(** C5. From a root call with the window (-inf, +inf) on a well-formed
    board, every call of [alphabeta] (the root, which heads the log, and each
    recursive call) receives a window with [alpha < beta].  In the records of
    the same traversal a node is marked pruned exactly when its final window
    satisfies [alpha >= beta], and it explored a prefix of its legal moves,
    all of them when it is not pruned.  And a node's loop that finds
    [alpha >= beta] after a child returns at once: no further recursive call
    is made from it. *)
Theorem alphabeta_window_valid (fuel : nat) (board : Board) (depth : Z)
  (path : list Z) :
  wf_board board -> (playable board < fuel)%nat ->
  (exists v log nodes,
    alphabeta max_depth fuel board depth path NegInf PosInf = Ok v /\
    alphabeta_calls max_depth fuel board depth path NegInf PosInf
      = Ok (v, mk_call depth path NegInf PosInf :: log) /\
    collect_alphabeta_tree_nodes max_depth fuel board depth path
      NegInf PosInf = Ok (nodes, v) /\
    Forall open_call (mk_call depth path NegInf PosInf :: log) /\
    Forall window_ok nodes) /\
  (forall f b child d m p rest value alpha beta v log0 cl,
     alphabeta_calls max_depth f child (d + 1) (p ++ [m]) alpha beta
       = Ok (v, cl) ->
     (make_move b m 1 = Ok child ->
      val_geb (vmax alpha (vmax value v)) beta = true ->
      calls_max_loop (alphabeta_calls max_depth f) b d p (m :: rest)
        value alpha beta log0 = Ok (vmax value v, log0 ++ cl)) /\
     (make_move b m (-1) = Ok child ->
      val_geb alpha (vmin beta (vmin value v)) = true ->
      calls_min_loop (alphabeta_calls max_depth f) b d p (m :: rest)
        value alpha beta log0 = Ok (vmin value v, log0 ++ cl))).
Proof.
  intros Hwf Hfuel. split.
  - destruct (collect_alphabeta_tree_nodes_total fuel board depth path
                NegInf PosInf Hwf Hfuel) as (nodes & v & Hn & Hv).
    pose proof Hv as Hc. rewrite alphabeta_calls_value in Hc.
    apply fmap_ok in Hc. destruct Hc as ([v' log] & Hc & Hv').
    simpl in Hv'. subst v'.
    destruct (alphabeta_calls_open fuel board depth path NegInf PosInf v log
                eq_refl Hc) as (Hopen & rest & ->).
    exists v, rest, nodes.
    split; [exact Hv|]. split; [exact Hc|]. split; [exact Hn|].
    split; [exact Hopen|].
    eapply collect_alphabeta_tree_nodes_window; [|exact Hn]. reflexivity.
  - intros. apply calls_loops_stop. assumption.
Qed.

(** ** More fuel does not change a result *)

Lemma minimax_max_loop_mono
  (rec1 rec2 : Board -> Z -> list Z -> result val)
  (b : Board) (d : Z) (p : list Z) :
  (forall child d' q v, rec1 child d' q = Ok v -> rec2 child d' q = Ok v) ->
  forall moves best v,
    minimax_max_loop rec1 b d p moves best = Ok v ->
    minimax_max_loop rec2 b d p moves best = Ok v.
Proof.
  intros Hrec. induction moves as [|m rest IH]; intros best v H; simpl in *.
  - exact H.
  - inv_bind H. inv_bind H. rewrite Hx. simpl.
    rewrite (Hrec _ _ _ _ Hx0). simpl. apply IH. exact H.
Qed.

Lemma minimax_min_loop_mono
  (rec1 rec2 : Board -> Z -> list Z -> result val)
  (b : Board) (d : Z) (p : list Z) :
  (forall child d' q v, rec1 child d' q = Ok v -> rec2 child d' q = Ok v) ->
  forall moves best v,
    minimax_min_loop rec1 b d p moves best = Ok v ->
    minimax_min_loop rec2 b d p moves best = Ok v.
Proof.
  intros Hrec. induction moves as [|m rest IH]; intros best v H; simpl in *.
  - exact H.
  - inv_bind H. inv_bind H. rewrite Hx. simpl.
    rewrite (Hrec _ _ _ _ Hx0). simpl. apply IH. exact H.
Qed.

Lemma minimax_fuel_S (fuel : nat) :
  forall (b : Board) (d : Z) (p : list Z) (v : val),
    minimax max_depth fuel b d p = Ok v ->
    minimax max_depth (S fuel) b d p = Ok v.
Proof.
  induction fuel as [|f IH]; intros b d p v H; [discriminate|].
  rewrite minimax_unfold in H. rewrite minimax_unfold.
  inv_bind H. rewrite Hx. cbn [bind].
  destruct ((d =? max_depth) || negb (x =? 0)); [exact H|].
  destruct (d mod 2 =? 0); inv_bind H; rewrite Hx0; cbn [bind].
  - eapply minimax_max_loop_mono; [exact IH | exact H].
  - eapply minimax_min_loop_mono; [exact IH | exact H].
Qed.

Lemma minimax_fuel_mono (fuel fuel' : nat) (b : Board) (d : Z) (p : list Z)
  (v : val) :
  (fuel <= fuel')%nat ->
  minimax max_depth fuel b d p = Ok v ->
  minimax max_depth fuel' b d p = Ok v.
Proof.
  induction 1 as [|k Hk IH]; intros H; [exact H|].
  apply minimax_fuel_S. apply IH. exact H.
Qed.

Lemma minimax_fuel_independent (fuel fuel' : nat) (b : Board) (d : Z)
  (p : list Z) (v : val) :
  wf_board b -> (playable b < fuel')%nat ->
  minimax max_depth fuel b d p = Ok v ->
  minimax max_depth fuel' b d p = Ok v.
Proof.
  intros Hwf Hfuel' H.
  destruct (Nat.le_ge_cases fuel fuel') as [Hle | Hge].
  - eapply minimax_fuel_mono; eauto.
  - destruct (minimax_total fuel' b d p Hwf Hfuel') as (v' & Hv').
    pose proof (minimax_fuel_mono fuel' fuel b d p v' Hge Hv') as H'.
    congruence.
Qed.

(** C1. On every well-formed board, at every depth and for every depth limit,
    [minimax] returns a value and [alphabeta] called on the same board at the
    same depth with the window (-inf, +inf) returns the same value; the value
    is the same for every amount of fuel above the number of playable
    cells. *)
Theorem minimax_alphabeta_equal (fuel : nat) (board : Board) (depth : Z)
  (path : list Z) :
  wf_board board -> (playable board < fuel)%nat ->
  exists v,
    minimax max_depth fuel board depth path = Ok v /\
    alphabeta max_depth fuel board depth path NegInf PosInf = Ok v /\
    (forall fuel', (playable board < fuel')%nat ->
       minimax max_depth fuel' board depth path = Ok v /\
       alphabeta max_depth fuel' board depth path NegInf PosInf = Ok v).
Proof.
  intros Hwf Hfuel.
  destruct (minimax_total fuel board depth path Hwf Hfuel) as (v & Hv).
  assert (Hab : forall k, minimax max_depth k board depth path = Ok v ->
                  alphabeta max_depth k board depth path NegInf PosInf = Ok v).
  { intros k Hk.
    destruct (alphabeta_sound k board depth path v Hk path NegInf PosInf)
      as (w & Hw & Hb); [reflexivity|].
    apply ab_bounds_full in Hb. congruence. }
  exists v. split; [exact Hv|]. split; [apply Hab; exact Hv|].
  intros fuel' Hfuel'.
  pose proof (minimax_fuel_independent fuel fuel' board depth path v
                Hwf Hfuel' Hv) as Hv'.
  split; [exact Hv' | apply Hab; exact Hv'].
Qed.

(** * Further properties of the searches *)

(** ** Depth of the recursion *)

Lemma minimax_max_loop_wf (rec : Board -> Z -> list Z -> result val)
  (b : Board) (d : Z) (p : list Z) :
  wf_board b ->
  (forall child q, wf_board child -> exists v, rec child (d + 1) q = Ok v) ->
  forall moves best, Forall (legal b) moves ->
    exists v, minimax_max_loop rec b d p moves best = Ok v.
Proof.
  intros Hwf Hrec moves. induction moves as [|m rest IH];
    intros best Hlegal; simpl.
  - eauto.
  - inversion Hlegal as [|? ? [Hm Htop] Hrest]; subst.
    destruct (make_move_playable b m 1 Hwf Hm Htop) as (c & Hc & Hwc & _);
      [lia|].
    rewrite Hc. simpl.
    destruct (Hrec c (p ++ [m]) Hwc) as (v & Hv).
    rewrite Hv. simpl. apply IH. exact Hrest.
Qed.

Lemma minimax_min_loop_wf (rec : Board -> Z -> list Z -> result val)
  (b : Board) (d : Z) (p : list Z) :
  wf_board b ->
  (forall child q, wf_board child -> exists v, rec child (d + 1) q = Ok v) ->
  forall moves best, Forall (legal b) moves ->
    exists v, minimax_min_loop rec b d p moves best = Ok v.
Proof.
  intros Hwf Hrec moves. induction moves as [|m rest IH];
    intros best Hlegal; simpl.
  - eauto.
  - inversion Hlegal as [|? ? [Hm Htop] Hrest]; subst.
    destruct (make_move_playable b m (-1) Hwf Hm Htop)
      as (c & Hc & Hwc & _); [lia|].
    rewrite Hc. simpl.
    destruct (Hrec c (p ++ [m]) Hwc) as (v & Hv).
    rewrite Hv. simpl. apply IH. exact Hrest.
Qed.

Lemma minimax_depth_total (fuel : nat) :
  forall (b : Board) (d : Z) (p : list Z),
    wf_board b -> d <= max_depth ->
    (Z.to_nat (max_depth - d) < fuel)%nat ->
    exists v, minimax max_depth fuel b d p = Ok v.
Proof.
  induction fuel as [|f IH]; intros b d p Hwf Hd Hfuel; [lia|].
  rewrite minimax_unfold.
  destruct (evaluate_ok b Hwf) as (s & ->). cbn [bind].
  destruct ((d =? max_depth) || negb (s =? 0)) eqn:Hterm; [eauto|].
  pose proof (not_terminal_below d s Hterm Hd) as Hlt.
  rewrite (get_valid_moves_filter b d Hwf). cbn [bind].
  pose proof (valid_moves_in b d _ Hwf (get_valid_moves_filter b d Hwf))
    as Hlegal.
  assert (Hrec : forall child q, wf_board child ->
            exists v, minimax max_depth f child (d + 1) q = Ok v).
  { intros child q Hwc. apply IH; [exact Hwc | lia | lia]. }
  destruct (d mod 2 =? 0).
  - apply minimax_max_loop_wf; auto.
  - apply minimax_min_loop_wf; auto.
Qed.

(** X7. The recursion is bounded by the depth limit: on a well-formed board
    at a depth up to the limit, [MAX_DEPTH - depth + 1] nested calls are
    enough for [minimax] and for [alphabeta] to return, however many cells
    are still playable. *)
Theorem recursion_depth_bound (board : Board) (depth : Z) (path : list Z) :
  wf_board board -> depth <= max_depth ->
  exists v,
    minimax max_depth (S (Z.to_nat (max_depth - depth))) board depth path
      = Ok v /\
    alphabeta max_depth (S (Z.to_nat (max_depth - depth))) board depth path
      NegInf PosInf = Ok v.
Proof.
  intros Hwf Hd.
  destruct (minimax_depth_total (S (Z.to_nat (max_depth - depth)))
              board depth path Hwf Hd) as (v & Hv); [lia|].
  exists v. split; [exact Hv|].
  destruct (alphabeta_sound _ board depth path v Hv path NegInf PosInf)
    as (w & Hw & Hb); [reflexivity|].
  apply ab_bounds_full in Hb. congruence.
Qed.

(** ** Alpha-Beta with any window *)

(** X8. Fail-soft bounds: called with any window [alpha < beta] on a
    well-formed board, [alphabeta] returns a value [w] that is the Minimax
    value when it lies strictly inside the window, an upper bound of the
    Minimax value when [w <= alpha], and a lower bound when [w >= beta]. *)
Theorem alphabeta_window_bounds (fuel : nat) (board : Board) (depth : Z)
  (path : list Z) (alpha beta : val) :
  wf_board board -> (playable board < fuel)%nat -> val_lt alpha beta ->
  exists v w,
    minimax max_depth fuel board depth path = Ok v /\
    alphabeta max_depth fuel board depth path alpha beta = Ok w /\
    (val_lt alpha w -> val_lt w beta -> w = v) /\
    (val_le w alpha -> val_le v w) /\
    (val_le beta w -> val_le w v).
Proof.
  intros Hwf Hfuel Hab.
  destruct (minimax_total fuel board depth path Hwf Hfuel) as (v & Hv).
  destruct (alphabeta_sound fuel board depth path v Hv path alpha beta Hab)
    as (w & Hw & H1 & H2 & H3).
  exists v, w. auto.
Qed.

(** ** Bounded branching *)

Lemma count_terminal_max_loop
  (rec : Board -> Z -> list Z -> result (list node * val))
  (b : Board) (d : Z) (p : list Z) (K : nat) :
  forall moves,
    (forall m child nodes v, In m moves -> make_move b m 1 = Ok child ->
       rec child (d + 1) (p ++ [m]) = Ok (nodes, v) ->
       (count_terminal nodes <= K)%nat) ->
    forall best n' cv' best',
      collect_max_loop rec b d p moves [] [] best = Ok (n', cv', best') ->
      (count_terminal n' <= length moves * K)%nat.
Proof.
  induction moves as [|m rest IH]; intros Hrec best n' cv' best' H.
  - simpl in H. injection H as <- <- <-. unfold count_terminal. simpl. lia.
  - cbn [collect_max_loop] in H. inv_bind H. rename x into child.
    inv_bind H. destruct x as [cn v]. rewrite collect_max_loop_shift in H.
    inv_bind H. destruct x as [[n2 cv2] b2]. cbn [app] in H.
    injection H as <- <- <-.
    pose proof (Hrec m child cn v (or_introl eq_refl) Hx Hx0) as Hc.
    pose proof (IH (fun m' c' n0 v0 Hin => Hrec m' c' n0 v0 (or_intror Hin))
                  _ _ _ _ Hx1) as Hr.
    rewrite count_terminal_app. simpl length. lia.
Qed.

Lemma count_terminal_min_loop
  (rec : Board -> Z -> list Z -> result (list node * val))
  (b : Board) (d : Z) (p : list Z) (K : nat) :
  forall moves,
    (forall m child nodes v, In m moves -> make_move b m (-1) = Ok child ->
       rec child (d + 1) (p ++ [m]) = Ok (nodes, v) ->
       (count_terminal nodes <= K)%nat) ->
    forall best n' cv' best',
      collect_min_loop rec b d p moves [] [] best = Ok (n', cv', best') ->
      (count_terminal n' <= length moves * K)%nat.
Proof.
  induction moves as [|m rest IH]; intros Hrec best n' cv' best' H.
  - simpl in H. injection H as <- <- <-. unfold count_terminal. simpl. lia.
  - cbn [collect_min_loop] in H. inv_bind H. rename x into child.
    inv_bind H. destruct x as [cn v]. rewrite collect_min_loop_shift in H.
    inv_bind H. destruct x as [[n2 cv2] b2]. cbn [app] in H.
    injection H as <- <- <-.
    pose proof (Hrec m child cn v (or_introl eq_refl) Hx Hx0) as Hc.
    pose proof (IH (fun m' c' n0 v0 Hin => Hrec m' c' n0 v0 (or_intror Hin))
                  _ _ _ _ Hx1) as Hr.
    rewrite count_terminal_app. simpl length. lia.
Qed.

Lemma valid_moves_at_most_three (b : Board) (d : Z) (moves : list Z) :
  wf_board b -> get_valid_moves b d = Ok moves -> (length moves <= 3)%nat.
Proof.
  intros Hwf H. rewrite get_valid_moves_filter in H by exact Hwf.
  assert (E : moves = filter (is_empty b 0) [0; 1; 2]) by congruence.
  rewrite E. apply (filter_length_le (is_empty b 0) [0; 1; 2]).
Qed.

Lemma legal_child_wf (b child : Board) (m player : Z) :
  wf_board b -> legal b m -> player <> 0 ->
  make_move b m player = Ok child -> wf_board child.
Proof.
  intros Hwf [Hm Htop] Hp Hmv.
  destruct (make_move_playable b m player Hwf Hm Htop Hp)
    as (c & Hc & Hwc & _).
  congruence.
Qed.

Lemma collect_tree_nodes_leaves (fuel : nat) :
  forall (b : Board) (d : Z) (p : list Z) (nodes : list node) (v : val),
    wf_board b -> d <= max_depth ->
    collect_tree_nodes max_depth fuel b d p = Ok (nodes, v) ->
    Z.of_nat (count_terminal nodes) <= 3 ^ (max_depth - d).
Proof.
  induction fuel as [|f IH]; intros b d p nodes v Hwf Hd H; [discriminate|].
  rewrite collect_tree_nodes_unfold in H.
  inv_bind H. rename x into s.
  destruct ((d =? max_depth) || negb (s =? 0)) eqn:Hterm.
  - injection H as <- <-. change (count_terminal _) with 1%nat.
    assert (0 < 3 ^ (max_depth - d)) by (apply Z.pow_pos_nonneg; lia). lia.
  - pose proof (not_terminal_below d s Hterm Hd) as Hlt.
    assert (Hpow : 3 ^ (max_depth - d) = 3 * 3 ^ (max_depth - (d + 1))).
    { replace (max_depth - d) with (Z.succ (max_depth - (d + 1))) by lia.
      rewrite Z.pow_succ_r by lia. reflexivity. }
    assert (HK : 0 <= 3 ^ (max_depth - (d + 1)))
      by (apply Z.pow_nonneg; lia).
    destruct (d mod 2 =? 0) eqn:Hpar; inv_bind H; inv_bind H;
      destruct x0 as [[n' cv] best]; injection H as <- <-;
      pose proof (valid_moves_in b d x Hwf Hx0) as Hlegal;
      rewrite Forall_forall in Hlegal;
      pose proof (valid_moves_at_most_three b d x Hwf Hx0) as Hlen;
      rewrite count_terminal_app;
      change (count_terminal [internal_record _ d p best cv x]) with 0%nat.
    + pose proof (count_terminal_max_loop (collect_tree_nodes max_depth f)
                    b d p (Z.to_nat (3 ^ (max_depth - (d + 1)))) x) as Hloop.
      specialize (Hloop
        (fun m child nodes v0 Hin Hmv Hrec =>
           proj2 (Nat2Z.inj_le _ _)
             (eq_ind_r (fun z => Z.of_nat (count_terminal nodes) <= z)
                (IH child (d + 1) (p ++ [m]) nodes v0
                   (legal_child_wf b child m 1 Hwf (Hlegal m Hin)
                      ltac:(lia) Hmv) ltac:(lia) Hrec)
                (Z2Nat.id _ HK)))
        _ _ _ _ Hx1).
      nia.
    + pose proof (count_terminal_min_loop (collect_tree_nodes max_depth f)
                    b d p (Z.to_nat (3 ^ (max_depth - (d + 1)))) x) as Hloop.
      specialize (Hloop
        (fun m child nodes v0 Hin Hmv Hrec =>
           proj2 (Nat2Z.inj_le _ _)
             (eq_ind_r (fun z => Z.of_nat (count_terminal nodes) <= z)
                (IH child (d + 1) (p ++ [m]) nodes v0
                   (legal_child_wf b child m (-1) Hwf (Hlegal m Hin)
                      ltac:(lia) Hmv) ltac:(lia) Hrec)
                (Z2Nat.id _ HK)))
        _ _ _ _ Hx1).
      nia.
Qed.

(** X9. Bounded branching: on a well-formed board at a depth up to the
    limit, the Minimax collecting search records at most
    [3 ^ (MAX_DEPTH - depth)] terminal nodes, and the Alpha-Beta one no more
    than that. *)
Theorem terminal_nodes_bound (fuel : nat) (board : Board) (depth : Z)
  (path : list Z) (alpha beta : val) :
  wf_board board -> (playable board < fuel)%nat -> depth <= max_depth ->
  exists nm vm na va,
    collect_tree_nodes max_depth fuel board depth path = Ok (nm, vm) /\
    collect_alphabeta_tree_nodes max_depth fuel board depth path alpha beta
      = Ok (na, va) /\
    Z.of_nat (count_terminal na) <= Z.of_nat (count_terminal nm) /\
    Z.of_nat (count_terminal nm) <= 3 ^ (max_depth - depth).
Proof.
  intros Hwf Hfuel Hd.
  destruct (collect_tree_nodes_total fuel board depth path Hwf Hfuel)
    as (nm & vm & Hm & _).
  destruct (collect_counts fuel board depth path nm vm Hm alpha beta)
    as (na & va & Ha & Hle & _).
  exists nm, vm, na, va.
  split; [exact Hm|]. split; [exact Ha|]. split; [lia|].
  eapply collect_tree_nodes_leaves; eauto.
Qed.

(** ** The collecting searches against the plain ones *)

Lemma collect_tree_nodes_root (fuel : nat) (b : Board) (d : Z) (p : list Z)
  (nodes : list node) (v : val) :
  collect_tree_nodes max_depth fuel b d p = Ok (nodes, v) ->
  exists pre n,
    nodes = pre ++ [n] /\ node_value n = v /\ node_path n = p /\
    node_depth n = d /\ node_state n = state_of d p.
Proof.
  destruct fuel as [|f]; [discriminate|].
  rewrite collect_tree_nodes_unfold. intros H. inv_bind H.
  destruct ((d =? max_depth) || negb (x =? 0)).
  - injection H as <- <-. exists [], (terminal_record d p x). auto.
  - destruct (d mod 2 =? 0); inv_bind H; inv_bind H;
      destruct x1 as [[n' cv] best]; injection H as <- <-;
      do 2 eexists; (split; [reflexivity|]); auto.
Qed.

Lemma collect_alphabeta_tree_nodes_root (fuel : nat) (b : Board) (d : Z)
  (p : list Z) (alpha beta : val) (nodes : list node) (v : val) :
  collect_alphabeta_tree_nodes max_depth fuel b d p alpha beta
    = Ok (nodes, v) ->
  exists pre n,
    nodes = pre ++ [n] /\ node_value n = v /\ node_path n = p /\
    node_depth n = d /\ node_state n = state_of d p.
Proof.
  destruct fuel as [|f]; [discriminate|].
  rewrite collect_alphabeta_tree_nodes_unfold. intros H. inv_bind H.
  destruct ((d =? max_depth) || negb (x =? 0)).
  - injection H as <- <-.
    exists [], (ab_terminal_record d p x alpha beta). auto.
  - destruct (d mod 2 =? 0); inv_bind H; inv_bind H;
      injection H as <- <-;
      do 2 eexists; (split; [reflexivity|]); auto.
Qed.

(** X10. The collecting searches return the value of the plain searches run
    on the same arguments, and the record of the node they were called on is
    the last of the list and carries that value with the node's path, depth
    and identifier. *)
Theorem collecting_agrees (fuel : nat) (board : Board) (depth : Z)
  (path : list Z) (alpha beta : val) :
  wf_board board -> (playable board < fuel)%nat ->
  exists vm prem nm va prea na,
    minimax max_depth fuel board depth path = Ok vm /\
    collect_tree_nodes max_depth fuel board depth path
      = Ok (prem ++ [nm], vm) /\
    alphabeta max_depth fuel board depth path alpha beta = Ok va /\
    collect_alphabeta_tree_nodes max_depth fuel board depth path alpha beta
      = Ok (prea ++ [na], va) /\
    node_value nm = vm /\ node_value na = va /\
    node_path nm = path /\ node_path na = path /\
    node_depth nm = depth /\ node_depth na = depth /\
    node_state nm = state_of depth path /\
    node_state na = state_of depth path.
Proof.
  intros Hwf Hfuel.
  destruct (collect_tree_nodes_total fuel board depth path Hwf Hfuel)
    as (nodes & vm & Hm & Hvm).
  destruct (collect_alphabeta_tree_nodes_total fuel board depth path
              alpha beta Hwf Hfuel) as (nodesa & va & Ha & Hva).
  destruct (collect_tree_nodes_root fuel board depth path nodes vm Hm)
    as (prem & nm & -> & M1 & M2 & M3 & M4).
  destruct (collect_alphabeta_tree_nodes_root fuel board depth path
              alpha beta nodesa va Ha) as (prea & na & -> & A1 & A2 & A3 & A4).
  exists vm, prem, nm, va, prea, na.
  repeat (split; [assumption|]). assumption.
Qed.

(** ** Where the records lie *)

Lemma position_ok_lift (d m : Z) (p : list Z) (n : node) :
  m = 0 \/ m = 1 \/ m = 2 ->
  position_ok (d + 1) (p ++ [m]) n -> position_ok d p n.
Proof.
  intros Hm (ms & Hp & Hd & Hms & Hs). exists (m :: ms).
  split; [rewrite Hp, <- app_assoc; reflexivity|].
  split; [rewrite Hd; simpl length; lia|].
  split; [constructor; assumption | exact Hs].
Qed.

Lemma position_ok_root (d : Z) (p : list Z) (n : node) :
  node_path n = p -> node_depth n = d -> node_state n = state_of d p ->
  position_ok d p n.
Proof.
  intros Hp Hd Hs. exists []. rewrite app_nil_r. simpl.
  split; [exact Hp|]. split; [lia|]. split; [constructor|].
  rewrite Hp, Hd. exact Hs.
Qed.

Lemma collect_tree_nodes_positions (fuel : nat) :
  forall (b : Board) (d : Z) (p : list Z) (nodes : list node) (v : val),
    wf_board b ->
    collect_tree_nodes max_depth fuel b d p = Ok (nodes, v) ->
    Forall (position_ok d p) nodes.
Proof.
  induction fuel as [|f IH]; intros b d p nodes v Hwf H; [discriminate|].
  rewrite collect_tree_nodes_unfold in H.
  inv_bind H. rename x into s.
  destruct ((d =? max_depth) || negb (s =? 0)).
  - injection H as <- <-. constructor; [|constructor].
    apply position_ok_root; reflexivity.
  - destruct (d mod 2 =? 0) eqn:Hpar; inv_bind H; inv_bind H;
      destruct x0 as [[n' cv] best]; injection H as <- <-;
      pose proof (valid_moves_in b d x Hwf Hx0) as Hlegal;
      rewrite Forall_forall in Hlegal.
    + edestruct (collect_max_loop_inv (collect_tree_nodes max_depth f)
                   b d p (position_ok d p) (fun _ => True) x)
        as (HP & _); [|exact Hx1|].
      { intros m child nodes v0 Hin Hmv Hrec. split; [|exact I].
        eapply Forall_impl;
          [|eapply IH; [|exact Hrec];
            eapply (legal_child_wf b child m 1 Hwf (Hlegal m Hin));
            [lia | exact Hmv]].
        intros n. apply position_ok_lift. apply (Hlegal m Hin). }
      apply Forall_app. split; [exact HP|]. constructor; [|constructor].
      apply position_ok_root; reflexivity.
    + edestruct (collect_min_loop_inv (collect_tree_nodes max_depth f)
                   b d p (position_ok d p) (fun _ => True) x)
        as (HP & _); [|exact Hx1|].
      { intros m child nodes v0 Hin Hmv Hrec. split; [|exact I].
        eapply Forall_impl;
          [|eapply IH; [|exact Hrec];
            eapply (legal_child_wf b child m (-1) Hwf (Hlegal m Hin));
            [lia | exact Hmv]].
        intros n. apply position_ok_lift. apply (Hlegal m Hin). }
      apply Forall_app. split; [exact HP|]. constructor; [|constructor].
      apply position_ok_root; reflexivity.
Qed.

Lemma collect_alphabeta_tree_nodes_positions (fuel : nat) :
  forall (b : Board) (d : Z) (p : list Z) (alpha beta : val)
         (nodes : list node) (v : val),
    wf_board b ->
    collect_alphabeta_tree_nodes max_depth fuel b d p alpha beta
      = Ok (nodes, v) ->
    Forall (position_ok d p) nodes.
Proof.
  induction fuel as [|f IH]; intros b d p alpha beta nodes v Hwf H;
    [discriminate|].
  rewrite collect_alphabeta_tree_nodes_unfold in H.
  inv_bind H. rename x into s.
  destruct ((d =? max_depth) || negb (s =? 0)).
  - injection H as <- <-. constructor; [|constructor].
    apply position_ok_root; reflexivity.
  - destruct (d mod 2 =? 0) eqn:Hpar; inv_bind H; inv_bind H;
      rename x0 into st; injection H as <- <-;
      pose proof (valid_moves_in b d x Hwf Hx0) as Hlegal;
      rewrite Forall_forall in Hlegal.
    + edestruct (collect_ab_max_loop_inv
                   (collect_alphabeta_tree_nodes max_depth f)
                   b d p (position_ok d p) (fun _ => True) x)
        as (HP & _); [| | |exact Hx1|]; try reflexivity.
      { intros m child a0 b0 nodes v0 Hin Hmv Hrec. split; [|exact I].
        eapply Forall_impl;
          [|eapply IH; [|exact Hrec];
            eapply (legal_child_wf b child m 1 Hwf (Hlegal m Hin));
            [lia | exact Hmv]].
        intros n. apply position_ok_lift. apply (Hlegal m Hin). }
      apply Forall_app. split; [exact HP|]. constructor; [|constructor].
      apply position_ok_root; reflexivity.
    + edestruct (collect_ab_min_loop_inv
                   (collect_alphabeta_tree_nodes max_depth f)
                   b d p (position_ok d p) (fun _ => True) x)
        as (HP & _); [| | |exact Hx1|]; try reflexivity.
      { intros m child a0 b0 nodes v0 Hin Hmv Hrec. split; [|exact I].
        eapply Forall_impl;
          [|eapply IH; [|exact Hrec];
            eapply (legal_child_wf b child m (-1) Hwf (Hlegal m Hin));
            [lia | exact Hmv]].
        intros n. apply position_ok_lift. apply (Hlegal m Hin). }
      apply Forall_app. split; [exact HP|]. constructor; [|constructor].
      apply position_ok_root; reflexivity.
Qed.

Lemma position_ok_length (n : node) :
  position_ok 0 [] n ->
  Z.of_nat (length (node_path n)) = node_depth n /\
  Forall (fun m => m = 0 \/ m = 1 \/ m = 2) (node_path n).
Proof.
  intros (ms & Hp & Hd & Hms & _). simpl in Hp. rewrite Hp, Hd.
  split; [lia | exact Hms].
Qed.

(** X11. In a search started at the root (depth 0, empty path) on a
    well-formed board, every record of either collecting search has a path
    of moves in columns 0 to 2 whose length is the record's depth, and an
    identifier computed from that depth and path. *)
Theorem record_paths (fuel : nat) (board : Board) (alpha beta : val) :
  wf_board board -> (playable board < fuel)%nat ->
  exists nm vm na va,
    collect_tree_nodes max_depth fuel board 0 [] = Ok (nm, vm) /\
    collect_alphabeta_tree_nodes max_depth fuel board 0 [] alpha beta
      = Ok (na, va) /\
    Forall (fun n =>
              Z.of_nat (length (node_path n)) = node_depth n /\
              Forall (fun m => m = 0 \/ m = 1 \/ m = 2) (node_path n) /\
              node_state n = state_of (node_depth n) (node_path n))
           (nm ++ na).
Proof.
  intros Hwf Hfuel.
  destruct (collect_tree_nodes_total fuel board 0 [] Hwf Hfuel)
    as (nm & vm & Hm & _).
  destruct (collect_alphabeta_tree_nodes_total fuel board 0 []
              alpha beta Hwf Hfuel) as (na & va & Ha & _).
  exists nm, vm, na, va. split; [exact Hm|]. split; [exact Ha|].
  apply Forall_app. split.
  - eapply Forall_impl;
      [|eapply collect_tree_nodes_positions; [exact Hwf | exact Hm]].
    intros n Hn. destruct (position_ok_length n Hn) as [H1 H2].
    destruct Hn as (ms & _ & _ & _ & Hs). auto.
  - eapply Forall_impl;
      [|eapply collect_alphabeta_tree_nodes_positions; [exact Hwf | exact Ha]].
    intros n Hn. destruct (position_ok_length n Hn) as [H1 H2].
    destruct Hn as (ms & _ & _ & _ & Hs). auto.
Qed.

(** ** Alpha-Beta visits nodes that Minimax visits *)

Lemma nodes_among_app (a1 a2 m1 m2 : list node) :
  nodes_among a1 m1 -> nodes_among a2 m2 ->
  nodes_among (a1 ++ a2) (m1 ++ m2).
Proof.
  intros H1 H2 n Hin. apply in_app_or in Hin. destruct Hin as [Hin | Hin].
  - destruct (H1 n Hin) as (n' & Hn' & Hs). exists n'.
    split; [apply in_or_app; left; exact Hn' | exact Hs].
  - destruct (H2 n Hin) as (n' & Hn' & Hs). exists n'.
    split; [apply in_or_app; right; exact Hn' | exact Hs].
Qed.

Lemma nodes_among_nil (m : list node) : nodes_among [] m.
Proof. intros n []. Qed.

Lemma nodes_among_weaken (a m1 m2 : list node) :
  nodes_among a m1 -> nodes_among a (m1 ++ m2).
Proof.
  intros H n Hin. destruct (H n Hin) as (n' & Hn' & Hs). exists n'.
  split; [apply in_or_app; left; exact Hn' | exact Hs].
Qed.

Lemma nodes_among_max_loop
  (rec_m : Board -> Z -> list Z -> result (list node * val))
  (rec_a : Board -> Z -> list Z -> val -> val -> result (list node * val))
  (b : Board) (d : Z) (p : list Z) :
  (forall child d' q nm v, rec_m child d' q = Ok (nm, v) ->
     forall alpha beta na w,
       rec_a child d' q alpha beta = Ok (na, w) -> nodes_among na nm) ->
  forall moves best nm cv v st st',
    l_nodes st = [] ->
    collect_max_loop rec_m b d p moves [] [] best = Ok (nm, cv, v) ->
    collect_ab_max_loop rec_a b d p moves st = Ok st' ->
    nodes_among (l_nodes st') nm.
Proof.
  intros Hrec. induction moves as [|m rest IH];
    intros best nm cv v st st' Hst Hm Ha.
  - simpl in Ha. injection Ha as <-. rewrite Hst. apply nodes_among_nil.
  - cbn [collect_max_loop] in Hm. inv_bind Hm. rename x into child.
    inv_bind Hm. destruct x as [cn v']. rewrite collect_max_loop_shift in Hm.
    inv_bind Hm. destruct x as [[n' cv'] best'].
    cbn [app] in Hm. injection Hm as <- <- <-.
    cbn [collect_ab_max_loop] in Ha. rewrite Hx in Ha. cbn [bind] in Ha.
    inv_bind Ha. destruct x as [cna w]. rewrite Hst in Ha. cbn [app] in Ha.
    pose proof (Hrec child _ _ cn v' Hx0 _ _ cna w Hx2) as Hc.
    destruct (val_geb _ (l_beta st)).
    + injection Ha as <-. cbn [l_nodes]. apply nodes_among_weaken. exact Hc.
    + rewrite collect_ab_max_loop_shift in Ha. apply fmap_ok in Ha.
      destruct Ha as (st2 & H2 & <-).
      unfold locals_app. cbn [l_nodes]. apply nodes_among_app; [exact Hc|].
      eapply IH; [|exact Hx1|exact H2]. reflexivity.
Qed.

Lemma nodes_among_min_loop
  (rec_m : Board -> Z -> list Z -> result (list node * val))
  (rec_a : Board -> Z -> list Z -> val -> val -> result (list node * val))
  (b : Board) (d : Z) (p : list Z) :
  (forall child d' q nm v, rec_m child d' q = Ok (nm, v) ->
     forall alpha beta na w,
       rec_a child d' q alpha beta = Ok (na, w) -> nodes_among na nm) ->
  forall moves best nm cv v st st',
    l_nodes st = [] ->
    collect_min_loop rec_m b d p moves [] [] best = Ok (nm, cv, v) ->
    collect_ab_min_loop rec_a b d p moves st = Ok st' ->
    nodes_among (l_nodes st') nm.
Proof.
  intros Hrec. induction moves as [|m rest IH];
    intros best nm cv v st st' Hst Hm Ha.
  - simpl in Ha. injection Ha as <-. rewrite Hst. apply nodes_among_nil.
  - cbn [collect_min_loop] in Hm. inv_bind Hm. rename x into child.
    inv_bind Hm. destruct x as [cn v']. rewrite collect_min_loop_shift in Hm.
    inv_bind Hm. destruct x as [[n' cv'] best'].
    cbn [app] in Hm. injection Hm as <- <- <-.
    cbn [collect_ab_min_loop] in Ha. rewrite Hx in Ha. cbn [bind] in Ha.
    inv_bind Ha. destruct x as [cna w]. rewrite Hst in Ha. cbn [app] in Ha.
    pose proof (Hrec child _ _ cn v' Hx0 _ _ cna w Hx2) as Hc.
    destruct (val_geb (l_alpha st) _).
    + injection Ha as <-. cbn [l_nodes]. apply nodes_among_weaken. exact Hc.
    + rewrite collect_ab_min_loop_shift in Ha. apply fmap_ok in Ha.
      destruct Ha as (st2 & H2 & <-).
      unfold locals_app. cbn [l_nodes]. apply nodes_among_app; [exact Hc|].
      eapply IH; [|exact Hx1|exact H2]. reflexivity.
Qed.

Lemma nodes_among_single (n n' : node) :
  same_node n n' -> nodes_among [n] [n'].
Proof.
  intros Hs x [<- | []]. exists n'. split; [left; reflexivity | exact Hs].
Qed.

Lemma collect_nodes_among (fuel : nat) :
  forall (b : Board) (d : Z) (p : list Z) (nm : list node) (v : val),
    collect_tree_nodes max_depth fuel b d p = Ok (nm, v) ->
    forall alpha beta na w,
      collect_alphabeta_tree_nodes max_depth fuel b d p alpha beta
        = Ok (na, w) ->
      nodes_among na nm.
Proof.
  induction fuel as [|f IH]; intros b d p nm v Hm alpha beta na w Ha;
    [discriminate|].
  rewrite collect_tree_nodes_unfold in Hm.
  rewrite collect_alphabeta_tree_nodes_unfold in Ha.
  inv_bind Hm. rename x into s. rewrite Hx in Ha. cbn [bind] in Ha.
  destruct ((d =? max_depth) || negb (s =? 0)).
  - injection Hm as <- <-. injection Ha as <- <-.
    apply nodes_among_single. repeat split.
  - destruct (d mod 2 =? 0); inv_bind Hm; rewrite Hx0 in Ha;
      cbn [bind] in Ha; inv_bind Hm; destruct x0 as [[n' cv] best];
      injection Hm as <- <-; inv_bind Ha; rename x0 into st;
      injection Ha as <- <-.
    + apply nodes_among_app.
      * eapply (nodes_among_max_loop _ _ b d p IH); [|exact Hx1|exact Hx2].
        reflexivity.
      * apply nodes_among_single. repeat split. intros Ht; discriminate.
    + apply nodes_among_app.
      * eapply (nodes_among_min_loop _ _ b d p IH); [|exact Hx1|exact Hx2].
        reflexivity.
      * apply nodes_among_single. repeat split. intros Ht; discriminate.
Qed.

(** X12. Pruning only leaves nodes out: on a well-formed board every record
    of the Alpha-Beta collecting search, whatever its window, describes a
    node that the Minimax collecting search records too, with the same path,
    depth, identifier, kind and legal moves, and the same value when it is
    terminal. *)
Theorem alphabeta_nodes_among_minimax (fuel : nat) (board : Board)
  (depth : Z) (path : list Z) (alpha beta : val) :
  wf_board board -> (playable board < fuel)%nat ->
  exists nm vm na va,
    collect_tree_nodes max_depth fuel board depth path = Ok (nm, vm) /\
    collect_alphabeta_tree_nodes max_depth fuel board depth path alpha beta
      = Ok (na, va) /\
    nodes_among na nm.
Proof.
  intros Hwf Hfuel.
  destruct (collect_tree_nodes_total fuel board depth path Hwf Hfuel)
    as (nm & vm & Hm & _).
  destruct (collect_alphabeta_tree_nodes_total fuel board depth path
              alpha beta Hwf Hfuel) as (na & va & Ha & _).
  exists nm, vm, na, va. split; [exact Hm|]. split; [exact Ha|].
  eapply collect_nodes_among; eauto.
Qed.

(** ** The terminal rule *)

Lemma minimax_calls_unfold (fuel : nat) (b : Board) (d : Z) (p : list Z) :
  minimax_calls max_depth (S fuel) b d p =
  score_win <- evaluate b ;;
  if (d =? max_depth) || negb (score_win =? 0) then
    Ok (Fin score_win, [(d, p)])
  else if d mod 2 =? 0 then
    moves <- get_valid_moves b d ;;
    minimax_calls_max_loop (minimax_calls max_depth fuel) b d p moves
      NegInf [(d, p)]
  else
    moves <- get_valid_moves b d ;;
    minimax_calls_min_loop (minimax_calls max_depth fuel) b d p moves
      PosInf [(d, p)].
Proof. reflexivity. Qed.

Lemma minimax_calls_max_loop_value
  (rec_m : Board -> Z -> list Z -> result val)
  (rec_c : Board -> Z -> list Z -> result (val * list (Z * list Z)))
  (b : Board) (d : Z) (p : list Z) :
  (forall child d' q, rec_m child d' q = fmap fst (rec_c child d' q)) ->
  forall moves best log,
    minimax_max_loop rec_m b d p moves best
    = fmap fst (minimax_calls_max_loop rec_c b d p moves best log).
Proof.
  intros Hrec. induction moves as [|m rest IH]; intros best log; simpl.
  - reflexivity.
  - destruct (make_move b m 1) as [child| |]; simpl; try reflexivity.
    rewrite Hrec.
    destruct (rec_c child (d + 1) (p ++ [m])) as [[v cl]| |]; simpl;
      try reflexivity.
    apply IH.
Qed.

Lemma minimax_calls_min_loop_value
  (rec_m : Board -> Z -> list Z -> result val)
  (rec_c : Board -> Z -> list Z -> result (val * list (Z * list Z)))
  (b : Board) (d : Z) (p : list Z) :
  (forall child d' q, rec_m child d' q = fmap fst (rec_c child d' q)) ->
  forall moves best log,
    minimax_min_loop rec_m b d p moves best
    = fmap fst (minimax_calls_min_loop rec_c b d p moves best log).
Proof.
  intros Hrec. induction moves as [|m rest IH]; intros best log; simpl.
  - reflexivity.
  - destruct (make_move b m (-1)) as [child| |]; simpl; try reflexivity.
    rewrite Hrec.
    destruct (rec_c child (d + 1) (p ++ [m])) as [[v cl]| |]; simpl;
      try reflexivity.
    apply IH.
Qed.

(** Erasing the call log gives [minimax]. *)
Lemma minimax_calls_value (fuel : nat) :
  forall (b : Board) (d : Z) (p : list Z),
    minimax max_depth fuel b d p =
    fmap fst (minimax_calls max_depth fuel b d p).
Proof.
  induction fuel as [|f IH]; intros b d p; [reflexivity|].
  rewrite minimax_unfold, minimax_calls_unfold.
  destruct (evaluate b) as [s| |]; cbn [bind fmap]; try reflexivity.
  destruct ((d =? max_depth) || negb (s =? 0)); [reflexivity|].
  destruct (d mod 2 =? 0);
    (destruct (get_valid_moves b d) as [moves| |]; cbn [bind];
     try reflexivity).
  - apply (minimax_calls_max_loop_value _ _ b d p IH).
  - apply (minimax_calls_min_loop_value _ _ b d p IH).
Qed.

Lemma minimax_calls_max_loop_prefix
  (rec : Board -> Z -> list Z -> result (val * list (Z * list Z)))
  (b : Board) (d : Z) (p : list Z) :
  forall moves best log0 w log,
    minimax_calls_max_loop rec b d p moves best log0 = Ok (w, log) ->
    exists more, log = log0 ++ more.
Proof.
  induction moves as [|m rest IH]; intros best log0 w log H.
  - simpl in H. injection H as <- <-. exists []. now rewrite app_nil_r.
  - cbn [minimax_calls_max_loop] in H. inv_bind H. inv_bind H.
    destruct x0 as [v cl]. apply IH in H. destruct H as (more & ->).
    exists (cl ++ more). now rewrite app_assoc.
Qed.

Lemma minimax_calls_min_loop_prefix
  (rec : Board -> Z -> list Z -> result (val * list (Z * list Z)))
  (b : Board) (d : Z) (p : list Z) :
  forall moves best log0 w log,
    minimax_calls_min_loop rec b d p moves best log0 = Ok (w, log) ->
    exists more, log = log0 ++ more.
Proof.
  induction moves as [|m rest IH]; intros best log0 w log H.
  - simpl in H. injection H as <- <-. exists []. now rewrite app_nil_r.
  - cbn [minimax_calls_min_loop] in H. inv_bind H. inv_bind H.
    destruct x0 as [v cl]. apply IH in H. destruct H as (more & ->).
    exists (cl ++ more). now rewrite app_assoc.
Qed.

(** Every call logs itself first. *)
Lemma minimax_calls_head (fuel : nat) (b : Board) (d : Z) (p : list Z)
  (w : val) (log : list (Z * list Z)) :
  minimax_calls max_depth fuel b d p = Ok (w, log) ->
  exists rest, log = (d, p) :: rest.
Proof.
  destruct fuel as [|f]; [discriminate|].
  rewrite minimax_calls_unfold. intros H. inv_bind H.
  destruct ((d =? max_depth) || negb (x =? 0)).
  - injection H as <- <-. eauto.
  - destruct (d mod 2 =? 0); inv_bind H.
    + apply minimax_calls_max_loop_prefix in H. destruct H as (more & ->).
      exists more. reflexivity.
    + apply minimax_calls_min_loop_prefix in H. destruct H as (more & ->).
      exists more. reflexivity.
Qed.

Lemma alphabeta_calls_head (fuel : nat) (b : Board) (d : Z) (p : list Z)
  (alpha beta w : val) (log : list call) :
  alphabeta_calls max_depth fuel b d p alpha beta = Ok (w, log) ->
  exists rest, log = mk_call d p alpha beta :: rest.
Proof.
  destruct fuel as [|f]; [discriminate|].
  rewrite alphabeta_calls_unfold. intros H. inv_bind H.
  destruct ((d =? max_depth) || negb (x =? 0)).
  - injection H as <- <-. eauto.
  - destruct (d mod 2 =? 0); inv_bind H.
    + apply calls_max_loop_prefix in H. destruct H as (more & ->).
      exists more. reflexivity.
    + apply calls_min_loop_prefix in H. destruct H as (more & ->).
      exists more. reflexivity.
Qed.

(** The value of an internal Minimax node is the fold of the values that
    the recursive calls return for the moves, in order. *)
Lemma minimax_max_loop_fold (rec : Board -> Z -> list Z -> result val)
  (b : Board) (d : Z) (p : list Z) :
  forall moves best w,
    minimax_max_loop rec b d p moves best = Ok w ->
    exists vals,
      Forall2 (fun m v => exists child,
                 make_move b m 1 = Ok child /\
                 rec child (d + 1) (p ++ [m]) = Ok v) moves vals /\
      w = fold_left vmax vals best.
Proof.
  induction moves as [|m rest IH]; intros best w H; simpl in H.
  - injection H as <-. exists []. split; [constructor | reflexivity].
  - inv_bind H. inv_bind H. apply IH in H.
    destruct H as (vals & Hall & ->).
    exists (x0 :: vals). split; [|reflexivity].
    constructor; [|exact Hall]. eauto.
Qed.

Lemma minimax_min_loop_fold (rec : Board -> Z -> list Z -> result val)
  (b : Board) (d : Z) (p : list Z) :
  forall moves best w,
    minimax_min_loop rec b d p moves best = Ok w ->
    exists vals,
      Forall2 (fun m v => exists child,
                 make_move b m (-1) = Ok child /\
                 rec child (d + 1) (p ++ [m]) = Ok v) moves vals /\
      w = fold_left vmin vals best.
Proof.
  induction moves as [|m rest IH]; intros best w H; simpl in H.
  - injection H as <-. exists []. split; [constructor | reflexivity].
  - inv_bind H. inv_bind H. apply IH in H.
    destruct H as (vals & Hall & ->).
    exists (x0 :: vals). split; [|reflexivity].
    constructor; [|exact Hall]. eauto.
Qed.

Lemma calls_max_loop_ge
  (rec : Board -> Z -> list Z -> val -> val -> result (val * list call))
  (b : Board) (d : Z) (p : list Z) :
  forall moves value alpha beta log0 w log,
    calls_max_loop rec b d p moves value alpha beta log0 = Ok (w, log) ->
    val_le value w.
Proof.
  induction moves as [|m rest IH]; intros value alpha beta log0 w log H.
  - simpl in H. injection H as <- _. apply val_le_refl.
  - cbn [calls_max_loop] in H. inv_bind H. inv_bind H.
    destruct x0 as [v cl]. cbv zeta in H.
    assert (Hstep : val_le value (if val_gtb v value then v else value))
      by (clear; vorder [v; value]).
    destruct (val_geb _ beta).
    + injection H as <- _. exact Hstep.
    + apply IH in H. eapply val_le_trans; eauto.
Qed.

Lemma calls_min_loop_le
  (rec : Board -> Z -> list Z -> val -> val -> result (val * list call))
  (b : Board) (d : Z) (p : list Z) :
  forall moves value alpha beta log0 w log,
    calls_min_loop rec b d p moves value alpha beta log0 = Ok (w, log) ->
    val_le w value.
Proof.
  induction moves as [|m rest IH]; intros value alpha beta log0 w log H.
  - simpl in H. injection H as <- _. apply val_le_refl.
  - cbn [calls_min_loop] in H. inv_bind H. inv_bind H.
    destruct x0 as [v cl]. cbv zeta in H.
    assert (Hstep : val_le (if val_ltb v value then v else value) value)
      by (clear; vorder [v; value]).
    destruct (val_geb alpha _).
    + injection H as <- _. exact Hstep.
    + apply IH in H. eapply val_le_trans; eauto.
Qed.

(** The loop of an internal Alpha-Beta node calls the first move's child
    with the window of the node. *)
Lemma calls_max_loop_first
  (rec : Board -> Z -> list Z -> val -> val -> result (val * list call))
  (b : Board) (d : Z) (p : list Z) (m : Z) (rest : list Z)
  (value alpha beta : val) (log0 : list call) (w : val) (log : list call) :
  calls_max_loop rec b d p (m :: rest) value alpha beta log0 = Ok (w, log) ->
  exists child v1 cl more,
    make_move b m 1 = Ok child /\
    rec child (d + 1) (p ++ [m]) alpha beta = Ok (v1, cl) /\
    log = log0 ++ cl ++ more /\ val_le v1 w.
Proof.
  intros H. cbn [calls_max_loop] in H. inv_bind H. inv_bind H.
  destruct x0 as [v cl]. cbv zeta in H. exists x, v, cl.
  assert (Hstep : val_le v (if val_gtb v value then v else value))
    by (clear; vorder [v; value]).
  destruct (val_geb _ beta).
  - injection H as <- <-. exists []. rewrite app_nil_r. auto.
  - pose proof (calls_max_loop_ge _ _ _ _ _ _ _ _ _ _ _ H) as Hge.
    apply calls_max_loop_prefix in H. destruct H as (more & ->).
    exists more. rewrite app_assoc. repeat split; auto.
    eapply val_le_trans; eauto.
Qed.

Lemma calls_min_loop_first
  (rec : Board -> Z -> list Z -> val -> val -> result (val * list call))
  (b : Board) (d : Z) (p : list Z) (m : Z) (rest : list Z)
  (value alpha beta : val) (log0 : list call) (w : val) (log : list call) :
  calls_min_loop rec b d p (m :: rest) value alpha beta log0 = Ok (w, log) ->
  exists child v1 cl more,
    make_move b m (-1) = Ok child /\
    rec child (d + 1) (p ++ [m]) alpha beta = Ok (v1, cl) /\
    log = log0 ++ cl ++ more /\ val_le w v1.
Proof.
  intros H. cbn [calls_min_loop] in H. inv_bind H. inv_bind H.
  destruct x0 as [v cl]. cbv zeta in H. exists x, v, cl.
  assert (Hstep : val_le (if val_ltb v value then v else value) v)
    by (clear; vorder [v; value]).
  destruct (val_geb alpha _).
  - injection H as <- <-. exists []. rewrite app_nil_r. auto.
  - pose proof (calls_min_loop_le _ _ _ _ _ _ _ _ _ _ _ H) as Hle.
    apply calls_min_loop_prefix in H. destruct H as (more & ->).
    exists more. rewrite app_assoc. repeat split; auto.
    eapply val_le_trans; eauto.
Qed.

(** A node that is not terminal does not answer as a terminal one: a run
    of its loop returns [-inf] or [+inf] when there is no move, and logs a
    call of a child otherwise. *)
Lemma minimax_calls_internal (fuel : nat) (b : Board) (d : Z) (p : list Z)
  (s : Z) :
  evaluate b = Ok s ->
  (d =? max_depth) || negb (s =? 0) = false ->
  minimax_calls max_depth (S fuel) b d p <> Ok (Fin s, [(d, p)]).
Proof.
  intros He Hc H. rewrite minimax_calls_unfold, He in H. cbn [bind] in H.
  rewrite Hc in H.
  destruct (d mod 2 =? 0); inv_bind H; destruct x as [|m rest];
    try discriminate; cbn in H; inv_bind H; inv_bind H;
    destruct x0 as [v cl];
    destruct (minimax_calls_head _ _ _ _ _ _ Hx1) as (cl' & ->).
  - apply minimax_calls_max_loop_prefix in H. destruct H as (more & H).
    discriminate.
  - apply minimax_calls_min_loop_prefix in H. destruct H as (more & H).
    discriminate.
Qed.

Lemma alphabeta_calls_internal (fuel : nat) (b : Board) (d : Z)
  (p : list Z) (alpha beta : val) (s : Z) :
  evaluate b = Ok s ->
  (d =? max_depth) || negb (s =? 0) = false ->
  alphabeta_calls max_depth (S fuel) b d p alpha beta
  <> Ok (Fin s, [mk_call d p alpha beta]).
Proof.
  intros He Hc H. rewrite alphabeta_calls_unfold, He in H. cbn [bind] in H.
  rewrite Hc in H.
  destruct (d mod 2 =? 0); inv_bind H; destruct x as [|m rest];
    try discriminate.
  - apply calls_max_loop_first in H.
    destruct H as (child & v1 & cl & more & _ & Hrec & Hlog & _).
    destruct (alphabeta_calls_head _ _ _ _ _ _ _ _ Hrec) as (cl' & ->).
    discriminate.
  - apply calls_min_loop_first in H.
    destruct H as (child & v1 & cl & more & _ & Hrec & Hlog & _).
    destruct (alphabeta_calls_head _ _ _ _ _ _ _ _ Hrec) as (cl' & ->).
    discriminate.
Qed.

(** C3. A node is treated as terminal exactly when [depth] is the depth
    limit or [evaluate] is non-zero.  In that case, whatever the depth,
    [minimax] and [alphabeta] return [evaluate(board)] at once: their call
    logs hold the call of the node alone and the collecting searches return
    the single terminal record, so no child is generated.  Otherwise the node
    does not answer as a terminal one: [minimax] returns the maximum (the
    minimum at an odd depth) of the values that it returns for the children
    of the legal moves, from [-inf] ([+inf]), [alphabeta] calls the child of
    the first legal move with the window of the node and returns at least
    (at most) that child's value, or [-inf] ([+inf]) when there is no legal
    move, and the record that the collecting searches append for the node is
    a 'max' or 'min' record holding the legal moves.  Erasing the call logs
    gives [minimax] and [alphabeta]. *)
Theorem terminal_rule (fuel : nat) (board : Board) (depth : Z)
  (path : list Z) (alpha beta : val) (s : Z) :
  evaluate board = Ok s ->
  (depth = max_depth \/ s <> 0 ->
   minimax max_depth (S fuel) board depth path = Ok (Fin s) /\
   alphabeta max_depth (S fuel) board depth path alpha beta = Ok (Fin s) /\
   minimax_calls max_depth (S fuel) board depth path
     = Ok (Fin s, [(depth, path)]) /\
   alphabeta_calls max_depth (S fuel) board depth path alpha beta
     = Ok (Fin s, [mk_call depth path alpha beta]) /\
   collect_tree_nodes max_depth (S fuel) board depth path
     = Ok ([terminal_record depth path s], Fin s) /\
   collect_alphabeta_tree_nodes max_depth (S fuel) board depth path alpha beta
     = Ok ([ab_terminal_record depth path s alpha beta], Fin s)) /\
  (minimax_calls max_depth (S fuel) board depth path
     = Ok (Fin s, [(depth, path)]) \/
   alphabeta_calls max_depth (S fuel) board depth path alpha beta
     = Ok (Fin s, [mk_call depth path alpha beta]) \/
   collect_tree_nodes max_depth (S fuel) board depth path
     = Ok ([terminal_record depth path s], Fin s) \/
   collect_alphabeta_tree_nodes max_depth (S fuel) board depth path alpha beta
     = Ok ([ab_terminal_record depth path s alpha beta], Fin s) ->
   depth = max_depth \/ s <> 0) /\
  minimax max_depth (S fuel) board depth path
    = fmap fst (minimax_calls max_depth (S fuel) board depth path) /\
  alphabeta max_depth (S fuel) board depth path alpha beta
    = fmap fst (alphabeta_calls max_depth (S fuel) board depth path
                  alpha beta) /\
  (depth <> max_depth -> s = 0 ->
   forall nodes v,
     collect_tree_nodes max_depth (S fuel) board depth path = Ok (nodes, v) \/
     collect_alphabeta_tree_nodes max_depth (S fuel) board depth path
       alpha beta = Ok (nodes, v) ->
     exists pre n moves,
       nodes = pre ++ [n] /\
       node_type n = (if depth mod 2 =? 0 then Max else Min) /\
       node_path n = path /\ node_depth n = depth /\ node_value n = v /\
       get_valid_moves board depth = Ok moves /\
       node_moves n = Some moves) /\
  (depth <> max_depth -> s = 0 ->
   wf_board board -> (playable board <= fuel)%nat ->
   exists moves,
     get_valid_moves board depth = Ok moves /\
     (exists vals,
        Forall2 (fun m v => exists child,
                   make_move board m (player_at depth) = Ok child /\
                   minimax max_depth fuel child (depth + 1) (path ++ [m])
                     = Ok v) moves vals /\
        minimax max_depth (S fuel) board depth path =
          Ok (if depth mod 2 =? 0 then fold_left vmax vals NegInf
              else fold_left vmin vals PosInf)) /\
     (exists v log,
        alphabeta max_depth (S fuel) board depth path alpha beta = Ok v /\
        alphabeta_calls max_depth (S fuel) board depth path alpha beta
          = Ok (v, mk_call depth path alpha beta :: log) /\
        match moves with
        | [] => log = [] /\ v = (if depth mod 2 =? 0 then NegInf else PosInf)
        | m :: _ =>
            exists child v1 cl more,
              make_move board m (player_at depth) = Ok child /\
              alphabeta max_depth fuel child (depth + 1) (path ++ [m])
                alpha beta = Ok v1 /\
              alphabeta_calls max_depth fuel child (depth + 1) (path ++ [m])
                alpha beta
                = Ok (v1, mk_call (depth + 1) (path ++ [m]) alpha beta :: cl) /\
              log = mk_call (depth + 1) (path ++ [m]) alpha beta
                      :: cl ++ more /\
              (if depth mod 2 =? 0 then val_le v1 v else val_le v v1)
        end) /\
     (exists prem nm vm prea na va,
        collect_tree_nodes max_depth (S fuel) board depth path
          = Ok (prem ++ [nm], vm) /\
        collect_alphabeta_tree_nodes max_depth (S fuel) board depth path
          alpha beta = Ok (prea ++ [na], va) /\
        node_type nm = (if depth mod 2 =? 0 then Max else Min) /\
        node_type na = (if depth mod 2 =? 0 then Max else Min) /\
        node_moves nm = Some moves /\ node_moves na = Some moves)).
Proof.
  intros He.
  assert (Hpart : depth <> max_depth -> s = 0 ->
    forall nodes v,
      collect_tree_nodes max_depth (S fuel) board depth path
        = Ok (nodes, v) \/
      collect_alphabeta_tree_nodes max_depth (S fuel) board depth path
        alpha beta = Ok (nodes, v) ->
      exists pre n moves,
        nodes = pre ++ [n] /\
        node_type n = (if depth mod 2 =? 0 then Max else Min) /\
        node_path n = path /\ node_depth n = depth /\ node_value n = v /\
        get_valid_moves board depth = Ok moves /\
        node_moves n = Some moves).
  { intros Hd Hs nodes v H.
    assert (Hc : (depth =? max_depth) || negb (s =? 0) = false).
    { apply orb_false_iff. split.
      - apply Z.eqb_neq. exact Hd.
      - subst s. reflexivity. }
    rewrite collect_tree_nodes_unfold, collect_alphabeta_tree_nodes_unfold
      in H.
    rewrite He in H. cbn [bind] in H. rewrite Hc in H.
    destruct H as [H | H]; destruct (depth mod 2 =? 0);
      inv_bind H; inv_bind H.
    + destruct x0 as [[n' cv] best]. injection H as <- <-.
      do 3 eexists. split; [reflexivity|].
      repeat split; try reflexivity; exact Hx.
    + destruct x0 as [[n' cv] best]. injection H as <- <-.
      do 3 eexists. split; [reflexivity|].
      repeat split; try reflexivity; exact Hx.
    + injection H as <- <-.
      do 3 eexists. split; [reflexivity|].
      repeat split; try reflexivity; exact Hx.
    + injection H as <- <-.
      do 3 eexists. split; [reflexivity|].
      repeat split; try reflexivity; exact Hx. }
  assert (Hinternal : (depth =? max_depth) || negb (s =? 0) = false ->
                      depth <> max_depth /\ s = 0).
  { intros Hc. apply orb_false_iff in Hc. destruct Hc as [H1 H2].
    apply Z.eqb_neq in H1. apply negb_false_iff, Z.eqb_eq in H2. auto. }
  split; [|split; [|split; [|split; [|split]]]].
  - intros Hterm.
    assert (Hc : (depth =? max_depth) || negb (s =? 0) = true).
    { apply orb_true_iff. destruct Hterm as [-> | Hs].
      - left. apply Z.eqb_refl.
      - right. apply negb_true_iff. apply Z.eqb_neq. exact Hs. }
    rewrite minimax_unfold, alphabeta_unfold, minimax_calls_unfold,
      alphabeta_calls_unfold, collect_tree_nodes_unfold,
      collect_alphabeta_tree_nodes_unfold.
    rewrite He. cbn [bind]. rewrite Hc. repeat split; reflexivity.
  - intros H.
    destruct ((depth =? max_depth) || negb (s =? 0)) eqn:Hc.
    + apply orb_true_iff in Hc. destruct Hc as [Hc | Hc].
      * left. apply Z.eqb_eq. exact Hc.
      * right. apply Z.eqb_neq. apply negb_true_iff. exact Hc.
    + exfalso. destruct (Hinternal eq_refl) as [Hd Hs].
      destruct H as [H | [H | H]].
      * exact (minimax_calls_internal fuel board depth path s He Hc H).
      * exact (alphabeta_calls_internal fuel board depth path alpha beta s
                 He Hc H).
      * assert (Hrec : exists t, node_type t = Terminal /\
                  (collect_tree_nodes max_depth (S fuel) board depth path
                     = Ok ([t], Fin s) \/
                   collect_alphabeta_tree_nodes max_depth (S fuel) board
                     depth path alpha beta = Ok ([t], Fin s))).
        { destruct H as [H | H]; eexists; (split; [|rewrite H; auto]);
            reflexivity. }
        destruct Hrec as (t & Ht & Hrun).
        destruct (Hpart Hd Hs _ _ Hrun) as (pre & n & mv & E & Hty & _).
        apply (app_inj_tail [] pre t n) in E. destruct E as [_ ->].
        rewrite Ht in Hty. destruct (depth mod 2 =? 0); discriminate.
  - apply minimax_calls_value.
  - apply alphabeta_calls_value.
  - exact Hpart.
  - intros Hd Hs Hwf Hfuel.
    assert (Hc : (depth =? max_depth) || negb (s =? 0) = false).
    { apply orb_false_iff. split.
      - apply Z.eqb_neq. exact Hd.
      - subst s. reflexivity. }
    pose proof (get_valid_moves_filter board depth Hwf) as Hmoves.
    remember (filter (is_empty board 0) [0; 1; 2]) as moves eqn:Emoves.
    clear Emoves. exists moves. split; [exact Hmoves|].
    split; [|split].
    + destruct (minimax_total (S fuel) board depth path Hwf) as (w & Hw);
        [lia|].
      pose proof Hw as Hrun. rewrite minimax_unfold, He in Hrun.
      cbn [bind] in Hrun. rewrite Hc, Hmoves in Hrun. cbn [bind] in Hrun.
      unfold player_at. revert Hrun.
      destruct (depth mod 2 =? 0); intros Hrun.
      * apply minimax_max_loop_fold in Hrun.
        destruct Hrun as (vals & Hall & ->). exists vals. auto.
      * apply minimax_min_loop_fold in Hrun.
        destruct Hrun as (vals & Hall & ->). exists vals. auto.
    + destruct (collect_alphabeta_tree_nodes_total (S fuel) board depth path
                  alpha beta Hwf) as (na & va & _ & Hva); [lia|].
      pose proof Hva as Hcalls. rewrite alphabeta_calls_value in Hcalls.
      apply fmap_ok in Hcalls. destruct Hcalls as ([v' log] & Hcalls & Hv').
      simpl in Hv'. subst v'.
      destruct (alphabeta_calls_head _ _ _ _ _ _ _ _ Hcalls) as (rest & ->).
      exists va, rest. split; [exact Hva|]. split; [exact Hcalls|].
      pose proof Hcalls as Hrun. rewrite alphabeta_calls_unfold, He in Hrun.
      cbn [bind] in Hrun. rewrite Hc, Hmoves in Hrun. cbn [bind] in Hrun.
      unfold player_at. revert Hrun.
      destruct (depth mod 2 =? 0); intros Hrun; destruct moves as [|m ms].
      * simpl in Hrun. injection Hrun as <- <-. auto.
      * apply calls_max_loop_first in Hrun.
        destruct Hrun as (child & v1 & cl & more & Hmv & Hrec & Hlog & Hle).
        destruct (alphabeta_calls_head _ _ _ _ _ _ _ _ Hrec) as (cl' & ->).
        exists child, v1, cl', more. split; [exact Hmv|].
        split; [rewrite alphabeta_calls_value, Hrec; reflexivity|].
        split; [exact Hrec|]. split; [|exact Hle].
        simpl in Hlog. injection Hlog as ->. reflexivity.
      * simpl in Hrun. injection Hrun as <- <-. auto.
      * apply calls_min_loop_first in Hrun.
        destruct Hrun as (child & v1 & cl & more & Hmv & Hrec & Hlog & Hle).
        destruct (alphabeta_calls_head _ _ _ _ _ _ _ _ Hrec) as (cl' & ->).
        exists child, v1, cl', more. split; [exact Hmv|].
        split; [rewrite alphabeta_calls_value, Hrec; reflexivity|].
        split; [exact Hrec|]. split; [|exact Hle].
        simpl in Hlog. injection Hlog as ->. reflexivity.
    + destruct (collect_tree_nodes_total (S fuel) board depth path Hwf)
        as (nm & vm & Hnm & _); [lia|].
      destruct (collect_alphabeta_tree_nodes_total (S fuel) board depth path
                  alpha beta Hwf) as (na & va & Hna & _); [lia|].
      destruct (Hpart Hd Hs nm vm (or_introl Hnm))
        as (prem & n1 & mv1 & -> & Hty1 & _ & _ & _ & Hmv1 & Hnm1).
      destruct (Hpart Hd Hs na va (or_intror Hna))
        as (prea & n2 & mv2 & -> & Hty2 & _ & _ & _ & Hmv2 & Hnm2).
      assert (mv1 = moves) by congruence.
      assert (mv2 = moves) by congruence. subst mv1 mv2.
      exists prem, n1, vm, prea, n2, va. auto 10.
Qed.

End SearchProofs.

(** * The configured search: [MAX_DEPTH = 3] *)

(** ** Runs on the initial board *)

Example initial_board_created : create_initial_board = Ok initial_board.
Proof. reflexivity. Qed.

Example minimax_initial :
  minimax MAX_DEPTH 10 initial_board 0 [] = Ok (Fin 100).
Proof. vm_compute. reflexivity. Qed.

Example alphabeta_initial :
  alphabeta MAX_DEPTH 10 initial_board 0 [] NegInf PosInf = Ok (Fin 100).
Proof. vm_compute. reflexivity. Qed.

(** Early wins leave 19 of the 27 leaves to Minimax; Alpha-Beta visits 9. *)
Example terminals_initial :
  fmap (fun r => count_terminal (fst r))
    (collect_tree_nodes MAX_DEPTH 10 initial_board 0 []) = Ok 19%nat /\
  fmap (fun r => count_terminal (fst r))
    (collect_alphabeta_tree_nodes MAX_DEPTH 10 initial_board 0 []
       NegInf PosInf) = Ok 9%nat.
Proof. split; vm_compute; reflexivity. Qed.

(** With depth limit 0 the root is the sole node, a terminal one. *)
Example depth_limit_zero :
  minimax 0 1 initial_board 0 [] = Ok (Fin 0) /\
  alphabeta 0 1 initial_board 0 [] NegInf PosInf = Ok (Fin 0) /\
  collect_tree_nodes 0 1 initial_board 0 []
    = Ok ([terminal_record 0 [] 0], Fin 0).
Proof. repeat split; vm_compute; reflexivity. Qed.

(** ** Instances of the theorems *)

Lemma minimax_alphabeta_equal_witness :
  wf_board initial_board /\ (playable initial_board < 10)%nat /\
  exists v,
    minimax MAX_DEPTH 10 initial_board 0 [] = Ok v /\
    alphabeta MAX_DEPTH 10 initial_board 0 [] NegInf PosInf = Ok v /\
    (forall fuel', (playable initial_board < fuel')%nat ->
       minimax MAX_DEPTH fuel' initial_board 0 [] = Ok v /\
       alphabeta MAX_DEPTH fuel' initial_board 0 [] NegInf PosInf = Ok v).
Proof.
  split; [split; [reflexivity | repeat constructor]|].
  split; [change (playable initial_board) with 9%nat; lia|].
  apply (minimax_alphabeta_equal MAX_DEPTH 10 initial_board 0 []).
  - split; [reflexivity | repeat constructor].
  - change (playable initial_board) with 9%nat; lia.
Defined.

Lemma alphabeta_terminals_le_witness :
  wf_board initial_board /\ (playable initial_board < 10)%nat /\
  exists nm vm na va,
    collect_tree_nodes MAX_DEPTH 10 initial_board 0 [] = Ok (nm, vm) /\
    collect_alphabeta_tree_nodes MAX_DEPTH 10 initial_board 0 []
      NegInf PosInf = Ok (na, va) /\
    (count_terminal na <= count_terminal nm)%nat /\
    (all_open na -> count_terminal na = count_terminal nm).
Proof.
  split; [split; [reflexivity | repeat constructor]|].
  split; [change (playable initial_board) with 9%nat; lia|].
  apply (alphabeta_terminals_le MAX_DEPTH 10 initial_board 0 []).
  - split; [reflexivity | repeat constructor].
  - change (playable initial_board) with 9%nat; lia.
Defined.

Lemma terminal_rule_witness :
  (evaluate won_board = Ok 100 /\
   minimax MAX_DEPTH 1 won_board 1 [2] = Ok (Fin 100) /\
   alphabeta MAX_DEPTH 1 won_board 1 [2] NegInf PosInf = Ok (Fin 100) /\
   minimax_calls MAX_DEPTH 1 won_board 1 [2] = Ok (Fin 100, [(1, [2])]) /\
   alphabeta_calls MAX_DEPTH 1 won_board 1 [2] NegInf PosInf
     = Ok (Fin 100, [mk_call 1 [2] NegInf PosInf]) /\
   collect_tree_nodes MAX_DEPTH 1 won_board 1 [2]
     = Ok ([terminal_record 1 [2] 100], Fin 100) /\
   collect_alphabeta_tree_nodes MAX_DEPTH 1 won_board 1 [2] NegInf PosInf
     = Ok ([ab_terminal_record 1 [2] 100 NegInf PosInf], Fin 100)) /\
  (evaluate initial_board = Ok 0 /\
   exists moves,
     get_valid_moves initial_board 0 = Ok moves /\
     (exists vals,
        Forall2 (fun m v => exists child,
                   make_move initial_board m (player_at 0) = Ok child /\
                   minimax MAX_DEPTH 9 child (0 + 1) ([] ++ [m]) = Ok v)
                moves vals /\
        minimax MAX_DEPTH 10 initial_board 0 [] =
          Ok (if 0 mod 2 =? 0 then fold_left vmax vals NegInf
              else fold_left vmin vals PosInf)) /\
     (exists v log,
        alphabeta MAX_DEPTH 10 initial_board 0 [] NegInf PosInf = Ok v /\
        alphabeta_calls MAX_DEPTH 10 initial_board 0 [] NegInf PosInf
          = Ok (v, mk_call 0 [] NegInf PosInf :: log) /\
        match moves with
        | [] => log = [] /\ v = (if 0 mod 2 =? 0 then NegInf else PosInf)
        | m :: _ =>
            exists child v1 cl more,
              make_move initial_board m (player_at 0) = Ok child /\
              alphabeta MAX_DEPTH 9 child (0 + 1) ([] ++ [m])
                NegInf PosInf = Ok v1 /\
              alphabeta_calls MAX_DEPTH 9 child (0 + 1) ([] ++ [m])
                NegInf PosInf
                = Ok (v1, mk_call (0 + 1) ([] ++ [m]) NegInf PosInf :: cl) /\
              log = mk_call (0 + 1) ([] ++ [m]) NegInf PosInf
                      :: cl ++ more /\
              (if 0 mod 2 =? 0 then val_le v1 v else val_le v v1)
        end) /\
     (exists prem nm vm prea na va,
        collect_tree_nodes MAX_DEPTH 10 initial_board 0 []
          = Ok (prem ++ [nm], vm) /\
        collect_alphabeta_tree_nodes MAX_DEPTH 10 initial_board 0 []
          NegInf PosInf = Ok (prea ++ [na], va) /\
        node_type nm = (if 0 mod 2 =? 0 then Max else Min) /\
        node_type na = (if 0 mod 2 =? 0 then Max else Min) /\
        node_moves nm = Some moves /\ node_moves na = Some moves)).
Proof.
  split.
  - split; [vm_compute; reflexivity|].
    apply (terminal_rule MAX_DEPTH 0 won_board 1 [2] NegInf PosInf 100).
    + vm_compute; reflexivity.
    + right. lia.
  - assert (He : evaluate initial_board = Ok 0) by (vm_compute; reflexivity).
    split; [exact He|].
    destruct (terminal_rule MAX_DEPTH 9 initial_board 0 [] NegInf PosInf 0 He)
      as (_ & _ & _ & _ & _ & Hinternal).
    apply Hinternal.
    + unfold MAX_DEPTH; lia.
    + reflexivity.
    + split; [reflexivity | repeat constructor].
    + change (playable initial_board) with 9%nat; lia.
Defined.

Lemma node_records_aggregate_witness :
  wf_board initial_board /\ (playable initial_board < 10)%nat /\
  exists nm vm na va,
    collect_tree_nodes MAX_DEPTH 10 initial_board 0 [] = Ok (nm, vm) /\
    collect_alphabeta_tree_nodes MAX_DEPTH 10 initial_board 0 []
      NegInf PosInf = Ok (na, va) /\
    Forall (record_ok initial_board 0 []) nm /\
    Forall (record_ok initial_board 0 []) na.
Proof.
  split; [split; [reflexivity | repeat constructor]|].
  split; [change (playable initial_board) with 9%nat; lia|].
  apply (node_records_aggregate MAX_DEPTH 10 initial_board 0 []).
  - split; [reflexivity | repeat constructor].
  - change (playable initial_board) with 9%nat; lia.
Defined.

Lemma alphabeta_window_valid_witness :
  wf_board initial_board /\ (playable initial_board < 10)%nat /\
  exists v log nodes,
    alphabeta MAX_DEPTH 10 initial_board 0 [] NegInf PosInf = Ok v /\
    alphabeta_calls MAX_DEPTH 10 initial_board 0 [] NegInf PosInf
      = Ok (v, mk_call 0 [] NegInf PosInf :: log) /\
    collect_alphabeta_tree_nodes MAX_DEPTH 10 initial_board 0 []
      NegInf PosInf = Ok (nodes, v) /\
    Forall open_call (mk_call 0 [] NegInf PosInf :: log) /\
    Forall window_ok nodes.
Proof.
  split; [split; [reflexivity | repeat constructor]|].
  split; [change (playable initial_board) with 9%nat; lia|].
  apply (alphabeta_window_valid MAX_DEPTH 10 initial_board 0 []).
  - split; [reflexivity | repeat constructor].
  - change (playable initial_board) with 9%nat; lia.
Defined.


(** ** Where the claims as stated fail *)

Lemma all_open_forallb (nodes : list node) :
  all_open nodes ->
  forallb (fun n => negb (window_closed n)) nodes = true.
Proof.
  intros H. apply forallb_forall. intros n Hn.
  unfold all_open in H. rewrite Forall_forall in H.
  rewrite (H n Hn). reflexivity.
Qed.

(** C2 as stated fails: on [narrow_board] two nodes detect [alpha >= beta]
    after their last legal move, so nothing is cut and both searches record
    the same four terminal nodes. *)
Lemma alphabeta_terminals_counterexample :
  exists nm vm na va,
    collect_tree_nodes MAX_DEPTH 5 narrow_board 0 [] = Ok (nm, vm) /\
    collect_alphabeta_tree_nodes MAX_DEPTH 5 narrow_board 0 []
      NegInf PosInf = Ok (na, va) /\
    count_terminal na = count_terminal nm /\
    ~ all_open na.
Proof.
  destruct (collect_tree_nodes MAX_DEPTH 5 narrow_board 0 [])
    as [[nm vm]| |] eqn:Hm; try (vm_compute in Hm; discriminate).
  destruct (collect_alphabeta_tree_nodes MAX_DEPTH 5 narrow_board 0 []
              NegInf PosInf)
    as [[na va]| |] eqn:Ha; try (vm_compute in Ha; discriminate).
  exists nm, vm, na, va.
  split; [reflexivity|]. split; [reflexivity|].
  vm_compute in Hm. vm_compute in Ha.
  injection Hm as <- <-. injection Ha as <- <-.
  split; [vm_compute; reflexivity|].
  intros H. apply all_open_forallb in H. vm_compute in H. discriminate.
Qed.

(** C4 as stated fails: on [full_board] the root is a 'max' record with no
    child value, and its value [-inf] is not the maximum of the empty list. *)
Lemma node_records_counterexample :
  exists n,
    collect_tree_nodes MAX_DEPTH 1 full_board 0 [] = Ok ([n], NegInf) /\
    node_type n = Max /\
    node_children_values n = Some [] /\
    node_value n = NegInf /\
    ~ is_maximum (node_value n) [].
Proof.
  eexists. split; [vm_compute; reflexivity|].
  split; [reflexivity|]. split; [reflexivity|]. split; [reflexivity|].
  intros [Hin _]. exact Hin.
Qed.


(** ** Instances of the further properties *)

Lemma recursion_depth_bound_witness :
  wf_board initial_board /\ 0 <= MAX_DEPTH /\
  exists v,
    minimax MAX_DEPTH (S (Z.to_nat (MAX_DEPTH - 0))) initial_board 0 []
      = Ok v /\
    alphabeta MAX_DEPTH (S (Z.to_nat (MAX_DEPTH - 0))) initial_board 0 []
      NegInf PosInf = Ok v.
Proof.
  split; [split; [reflexivity | repeat constructor]|].
  split; [unfold MAX_DEPTH; lia|].
  apply (recursion_depth_bound MAX_DEPTH initial_board 0 []).
  - split; [reflexivity | repeat constructor].
  - unfold MAX_DEPTH; lia.
Defined.

Lemma alphabeta_window_bounds_witness :
  wf_board initial_board /\ (playable initial_board < 10)%nat /\
  val_lt (Fin 0) (Fin 50) /\
  exists v w,
    minimax MAX_DEPTH 10 initial_board 0 [] = Ok v /\
    alphabeta MAX_DEPTH 10 initial_board 0 [] (Fin 0) (Fin 50) = Ok w /\
    (val_lt (Fin 0) w -> val_lt w (Fin 50) -> w = v) /\
    (val_le w (Fin 0) -> val_le v w) /\
    (val_le (Fin 50) w -> val_le w v).
Proof.
  split; [split; [reflexivity | repeat constructor]|].
  split; [change (playable initial_board) with 9%nat; lia|].
  split; [reflexivity|].
  apply (alphabeta_window_bounds MAX_DEPTH 10 initial_board 0 []
           (Fin 0) (Fin 50)).
  - split; [reflexivity | repeat constructor].
  - change (playable initial_board) with 9%nat; lia.
  - reflexivity.
Defined.

Lemma terminal_nodes_bound_witness :
  wf_board initial_board /\ (playable initial_board < 10)%nat /\
  0 <= MAX_DEPTH /\
  exists nm vm na va,
    collect_tree_nodes MAX_DEPTH 10 initial_board 0 [] = Ok (nm, vm) /\
    collect_alphabeta_tree_nodes MAX_DEPTH 10 initial_board 0 []
      NegInf PosInf = Ok (na, va) /\
    Z.of_nat (count_terminal na) <= Z.of_nat (count_terminal nm) /\
    Z.of_nat (count_terminal nm) <= 3 ^ (MAX_DEPTH - 0).
Proof.
  split; [split; [reflexivity | repeat constructor]|].
  split; [change (playable initial_board) with 9%nat; lia|].
  split; [unfold MAX_DEPTH; lia|].
  apply (terminal_nodes_bound MAX_DEPTH 10 initial_board 0 []
           NegInf PosInf).
  - split; [reflexivity | repeat constructor].
  - change (playable initial_board) with 9%nat; lia.
  - unfold MAX_DEPTH; lia.
Defined.

Lemma collecting_agrees_witness :
  wf_board initial_board /\ (playable initial_board < 10)%nat /\
  exists vm prem nm va prea na,
    minimax MAX_DEPTH 10 initial_board 0 [] = Ok vm /\
    collect_tree_nodes MAX_DEPTH 10 initial_board 0 []
      = Ok (prem ++ [nm], vm) /\
    alphabeta MAX_DEPTH 10 initial_board 0 [] NegInf PosInf = Ok va /\
    collect_alphabeta_tree_nodes MAX_DEPTH 10 initial_board 0 []
      NegInf PosInf = Ok (prea ++ [na], va) /\
    node_value nm = vm /\ node_value na = va /\
    node_path nm = [] /\ node_path na = [] /\
    node_depth nm = 0 /\ node_depth na = 0 /\
    node_state nm = state_of 0 [] /\
    node_state na = state_of 0 [].
Proof.
  split; [split; [reflexivity | repeat constructor]|].
  split; [change (playable initial_board) with 9%nat; lia|].
  apply (collecting_agrees MAX_DEPTH 10 initial_board 0 [] NegInf PosInf).
  - split; [reflexivity | repeat constructor].
  - change (playable initial_board) with 9%nat; lia.
Defined.

Lemma record_paths_witness :
  wf_board initial_board /\ (playable initial_board < 10)%nat /\
  exists nm vm na va,
    collect_tree_nodes MAX_DEPTH 10 initial_board 0 [] = Ok (nm, vm) /\
    collect_alphabeta_tree_nodes MAX_DEPTH 10 initial_board 0 []
      NegInf PosInf = Ok (na, va) /\
    Forall (fun n =>
              Z.of_nat (length (node_path n)) = node_depth n /\
              Forall (fun m => m = 0 \/ m = 1 \/ m = 2) (node_path n) /\
              node_state n = state_of (node_depth n) (node_path n))
           (nm ++ na).
Proof.
  split; [split; [reflexivity | repeat constructor]|].
  split; [change (playable initial_board) with 9%nat; lia|].
  apply (record_paths MAX_DEPTH 10 initial_board NegInf PosInf).
  - split; [reflexivity | repeat constructor].
  - change (playable initial_board) with 9%nat; lia.
Defined.

Lemma alphabeta_nodes_among_minimax_witness :
  wf_board initial_board /\ (playable initial_board < 10)%nat /\
  exists nm vm na va,
    collect_tree_nodes MAX_DEPTH 10 initial_board 0 [] = Ok (nm, vm) /\
    collect_alphabeta_tree_nodes MAX_DEPTH 10 initial_board 0 []
      NegInf PosInf = Ok (na, va) /\
    nodes_among na nm.
Proof.
  split; [split; [reflexivity | repeat constructor]|].
  split; [change (playable initial_board) with 9%nat; lia|].
  apply (alphabeta_nodes_among_minimax MAX_DEPTH 10 initial_board 0 []
           NegInf PosInf).
  - split; [reflexivity | repeat constructor].
  - change (playable initial_board) with 9%nat; lia.
Defined.
